(** * alburnum.maas.flesh: command registration and dispatch

    A shallow embedding of [alburnum/maas/flesh/__init__.py]: the extended
    argument parser with its lazily created sub-command registry, the
    command archetypes, the construction of the parser tree and the
    top-level dispatch loop with its recovery policy.

    Python objects that are mutated in place and shared by reference
    (parsers, sub-command registries) live in a store indexed by object
    identity.  Observable effects (writes to the standard streams, module
    imports, calls into collaborators) are appended to a trace.  Python
    exceptions are an explicit result. *)

From Stdlib Require Import Ascii NArith Lia.
From stdpp Require Import base option list strings pretty gmap.

Open Scope string_scope.
Open Scope list_scope.

(** ** Python string primitives used by the module *)

Module PyStr.

(** [str.lower] on one character; only the ASCII letters have a case. *)
Definition is_upper (c : ascii) : bool :=
  let n := nat_of_ascii c in (65 <=? n)%nat && (n <=? 90)%nat.

Definition lower_char (c : ascii) : ascii :=
  if is_upper c then ascii_of_nat (nat_of_ascii c + 32) else c.

Fixpoint lower (s : string) : string :=
  match s with
  | EmptyString => EmptyString
  | String c s' => String (lower_char c) (lower s')
  end.

(** [str.replace(old, new)] for one-character [old] and [new]. *)
Fixpoint replace (old new : ascii) (s : string) : string :=
  match s with
  | EmptyString => EmptyString
  | String c s' =>
      String (if Ascii.eqb c old then new else c) (replace old new s')
  end.

(** [s.startswith(p)] *)
Definition startswith (p s : string) : bool := String.prefix p s.

(** [s[n:]] *)
Fixpoint slice_from (n : nat) (s : string) : string :=
  match n, s with
  | O, _ => s
  | S n', String _ s' => slice_from n' s'
  | S _, EmptyString => EmptyString
  end.

(** [c in s] for a character [c] *)
Fixpoint contains (c : ascii) (s : string) : bool :=
  match s with
  | EmptyString => false
  | String d s' => Ascii.eqb c d || contains c s'
  end.

(** [s.split(sep, 1)] when [sep in s]: the text before and after the
    first occurrence of the character [sep]. *)
Fixpoint split_first (sep : ascii) (s : string) : option (string * string) :=
  match s with
  | EmptyString => None
  | String c s' =>
      if Ascii.eqb c sep then Some (EmptyString, s')
      else match split_first sep s' with
           | Some (a, b) => Some (String c a, b)
           | None => None
           end
  end.

(** [sep.join(l)] *)
Fixpoint join (sep : string) (l : list string) : string :=
  match l with
  | [] => ""
  | [x] => x
  | x :: l' => x +:+ sep +:+ join sep l'
  end.

(** The line feed. *)
Definition nl : string := String (ascii_of_nat 10) "".

(** [s.lstrip(c)] for a character [c] *)
Fixpoint lstrip (c : ascii) (s : string) : string :=
  match s with
  | EmptyString => EmptyString
  | String d s' => if Ascii.eqb d c then lstrip c s' else s
  end.

(** [repr(s)] of a string without quotes or escapes in it. *)
Definition repr (s : string) : string := "'" +:+ s +:+ "'".

Definition is_digit (c : ascii) : bool :=
  let n := nat_of_ascii c in (48 <=? n)%nat && (n <=? 57)%nat.

Fixpoint all_digits (s : string) : bool :=
  match s with
  | EmptyString => true
  | String c s' => is_digit c && all_digits s'
  end.

(** [sorted(l)] on strings: insertion into an ordered list, comparing
    character codes. *)
Fixpoint insert_sorted (x : string) (l : list string) : list string :=
  match l with
  | [] => [x]
  | y :: l' => if String.leb x y then x :: l else y :: insert_sorted x l'
  end.

Definition sorted (l : list string) : list string :=
  foldr insert_sorted [] l.

End PyStr.

(** ** colorclass

    [colorclass.Color(text)] substitutes the [{tag}] markers of [text]:
    its string value carries one ANSI escape sequence per known tag, and
    its [value_no_colors] attribute is the same text with the tags
    dropped.  The table lists the automatic colours this module uses, as
    colorclass resolves them on its default (dark) background. *)

Module Colorclass.

Definition ESC : ascii := ascii_of_nat 27.

Definition codes : list (string * string) :=
  [ ("autored", "91"); ("/autored", "39");
    ("autoyellow", "93"); ("/autoyellow", "39");
    ("automagenta", "95"); ("/automagenta", "39");
    ("autogreen", "92"); ("/autogreen", "39");
    ("/all", "0") ].

Definition code_of (tag : string) : option string :=
  snd <$> List.find (fun kv => String.eqb (fst kv) tag) codes.

Definition escape (code : string) : string :=
  String ESC ("[" +:+ code +:+ "m").

(** One pass over the text.  [pending] holds the characters read since
    an opening brace that has not been closed yet. *)
Fixpoint scan (colors : bool) (pending : option string) (s : string)
  : string :=
  match s with
  | EmptyString =>
      match pending with
      | Some t => "{" +:+ t
      | None => ""
      end
  | String c s' =>
      match pending with
      | None =>
          if Ascii.eqb c "{" then scan colors (Some "") s'
          else String c (scan colors None s')
      | Some t =>
          if Ascii.eqb c "}" then
            match code_of t with
            | Some k =>
                (if colors then escape k else "") +:+ scan colors None s'
            | None => "{" +:+ t +:+ "}" +:+ scan colors None s'
            end
          else if Ascii.eqb c "{" then "{" +:+ t +:+ scan colors (Some "") s'
          else scan colors (Some (t +:+ String c "")) s'
      end
  end.

Definition value_colors (text : string) : string := scan true None text.
Definition value_no_colors (text : string) : string := scan false None text.

(** A string carries colour codes when it holds an escape character. *)
Definition has_ansi (s : string) : bool := PyStr.contains ESC s.

End Colorclass.

(** ** Values, exceptions and observable effects *)

(** Modelled from the spec: [tabular.RenderTarget] is declared outside this
    file.  It is a closed enumeration with the members [pretty] and
    [plain] and one or more structured dump formats; each member is
    looked up by its name. *)
Module tabular.

Inductive RenderTarget :=
| pretty
| plain
| dump (fmt : string).

End tabular.

(** The classes of this module that a concrete command derives from.
    [Shell] stands for [cmd_shell], a [Command] with a constructor of its
    own. *)
Inductive Base :=
| Command
| TableCommand
| OriginCommand
| OriginTableCommand
| Shell.

(** A command class: its [__name__], its docstring and its base. *)
Record CommandClass := {
  cls_name : string;
  cls_doc : string;
  cls_base : Base
}.

(** A command instance, bound to the parser it was constructed against. *)
Record Instance := {
  inst_cls : CommandClass;
  inst_parser : nat
}.

(** The Python values that occur as option values. *)
Inductive Value :=
| VNone
| VBool (b : bool)
| VStr (s : string)
| VTarget (t : tabular.RenderTarget)
| VCommand (i : Instance).

Global Instance RenderTarget_eq_dec : EqDecision tabular.RenderTarget.
Proof. solve_decision. Defined.
Global Instance Base_eq_dec : EqDecision Base.
Proof. solve_decision. Defined.
Global Instance CommandClass_eq_dec : EqDecision CommandClass.
Proof. solve_decision. Defined.
Global Instance Instance_eq_dec : EqDecision Instance.
Proof. solve_decision. Defined.
Global Instance Value_eq_dec : EqDecision Value.
Proof. solve_decision. Defined.

(** [argparse.Namespace]: attribute name to value. *)
Abbreviation Namespace := (gmap string Value).

(** Exceptions.  [Exception cls msg] is an instance of the class [cls],
    which derives from [Exception], constructed with the message [msg];
    the other three derive from [BaseException] only. *)
Inductive Exn :=
| SystemExit (status : nat)
| KeyboardInterrupt
| GeneratorExit
| Exception (cls : string) (msg : string).

(** [isinstance(e, Exception)] *)
Definition is_Exception (e : Exn) : bool :=
  match e with
  | Exception _ _ => true
  | _ => false
  end.

(** ["%s" % error] *)
Definition str_of (e : Exn) : string :=
  match e with
  | Exception _ msg => msg
  | SystemExit n => pretty n
  | KeyboardInterrupt | GeneratorExit => ""
  end.

Inductive Res (A : Type) :=
| Ok (a : A)
| Raise (e : Exn).
Arguments Ok {A} a.
Arguments Raise {A} e.

(** Handles of the external session and origin objects. *)
Definition Session := nat.
Definition Origin := nat.

Inductive Stream := Stdout | Stderr.
Inductive Debugger := ipdb | pdb.

Inductive Event :=
| EvWrite (f : Stream) (text : string)
| EvPrintHelp (f : Stream) (parser : nat)
| EvPrintUsage (f : Stream) (parser : nat)
| EvImport (module : string)
| EvAutocomplete (parser : nat)
| EvFromProfileName (profile_name : Value)
| EvOrigin (session : Session)
| EvExecute (cls : string) (origin : Origin) (options : Namespace)
    (target : option Value)
| EvCall (cls : string) (options : Namespace)
| EvPostMortem (debugger : Debugger) (traceback : Exn).

(** ** argparse objects *)

Inductive ActionKind := Store | StoreTrue | HelpAction.

Inductive Help :=
| HelpText (s : string)
| HelpNone
| HelpSuppress.

(** The [type=] callable of an argument: its name and its conversion,
    [None] where it raises. *)
Record ArgType := {
  type_name : string;
  convert : string → option Value
}.

(** An action of a parser ([argparse.Action]).  [dest = None] is
    [argparse.SUPPRESS]. *)
Record Action := {
  option_strings : list string;
  dest : option string;
  kind : ActionKind;
  atype : option ArgType;
  choices : option (list Value);
  required : bool;
  default : Value;
  help : Help;
  metavar : option string
}.

(** A parser node.  [base_subparsers] is argparse's own [_subparsers]
    slot: the title of the argument group and the registry it holds.
    [priv_subparsers] is the private [__subparsers] attribute of the
    subclass, absent until the first access of the property. *)
Record Parser := {
  prog : string;
  description : option string;
  epilog : option string;
  actions : list Action;
  defaults : gmap string Value;
  base_subparsers : option (string * nat);
  priv_subparsers : option nat
}.

(** The sub-command registry ([argparse._SubParsersAction]); [reg_choices]
    is its ordered name to parser map. *)
Record Registry := {
  reg_metavar : option string;
  reg_prog_prefix : string;
  reg_choices : list (string * nat);
  reg_help : list (string * Help)
}.

(** The store of parser and registry objects, and the trace of effects. *)
Record World := {
  parsers : gmap nat Parser;
  registries : gmap nat Registry;
  next_id : nat;
  trace : list Event
}.

Definition empty_world : World :=
  {| parsers := ∅; registries := ∅; next_id := 0; trace := [] |}.

(** ** The monad of stateful computations that may raise *)

Definition M (A : Type) : Type := World → Res A * World.

Definition ret {A} (a : A) : M A := fun w => (Ok a, w).

Definition raise {A} (e : Exn) : M A := fun w => (Raise e, w).

Definition bind {A B} (c : M A) (k : A → M B) : M B :=
  fun w =>
    match c w with
    | (Ok a, w') => k a w'
    | (Raise e, w') => (Raise e, w')
    end.

Notation "'let!' x ':=' c 'in' k" := (bind c (fun x => k))
  (at level 10, x name, c at level 100, k at level 200).
Notation "c ;; k" := (bind c (fun _ => k))
  (at level 100, k at level 200, right associativity).

Definition emit (ev : Event) : M unit :=
  fun w =>
    (Ok tt, {| parsers := parsers w; registries := registries w;
               next_id := next_id w; trace := trace w ++ [ev] |}).

(** A call into a collaborator: the call is recorded, its outcome is the
    collaborator's. *)
Definition extern {A} (ev : Event) (r : Res A) : M A :=
  emit ev ;; fun w => (r, w).

Fixpoint for_each {A} (l : list A) (body : A → M unit) : M unit :=
  match l with
  | [] => ret tt
  | x :: l' => body x ;; for_each l' body
  end.

Definition dangling {A} : M A :=
  raise (Exception "ReferenceError" "no such object").

Definition get_parser (p : nat) : M Parser :=
  fun w =>
    match parsers w !! p with
    | Some node => (Ok node, w)
    | None => dangling w
    end.

Definition put_parser (p : nat) (node : Parser) : M unit :=
  fun w =>
    (Ok tt, {| parsers := <[p := node]> (parsers w);
               registries := registries w;
               next_id := next_id w; trace := trace w |}).

Definition get_registry (r : nat) : M Registry :=
  fun w =>
    match registries w !! r with
    | Some reg => (Ok reg, w)
    | None => dangling w
    end.

Definition put_registry (r : nat) (reg : Registry) : M unit :=
  fun w =>
    (Ok tt, {| parsers := parsers w;
               registries := <[r := reg]> (registries w);
               next_id := next_id w; trace := trace w |}).

(** A fresh object identity. *)
Definition fresh : M nat :=
  fun w =>
    (Ok (next_id w),
     {| parsers := parsers w; registries := registries w;
        next_id := S (next_id w); trace := trace w |}).

(** ** The process environment *)

Record Profile := {
  name : string
}.

(** The profile store as [ProfileManager.open()] yields it: the names in
    the order the store iterates them, and the default profile. *)
Record ProfileConfig := {
  config_names : list string;
  config_default : option Profile
}.

Record Env := {
  stdout_isatty : bool;
  stderr_isatty : bool;
  ipdb_importable : bool;
  completion_requested : bool;
  config : ProfileConfig
}.

(** ** argparse

    The part of [argparse.ArgumentParser] that this module builds on:
    construction of parsers, [add_argument] for options, [set_defaults],
    the sub-command registry, and [parse_args] over option tokens
    ([--flag VALUE], [--flag=VALUE], unambiguous abbreviations, clusters
    of one-letter flags), the [--] separator and sub-command words.
    Sub-commands are optional, as they are from Python 3.3 on.  The
    methods call [self.error], which a subclass may override: it is a
    parameter here. *)

Module argparse.

(** [ArgumentParser.exit(status, message)] *)
Definition exit {A} (status : nat) (message : string) : M A :=
  (if String.eqb message "" then ret tt
   else emit (EvWrite Stderr message)) ;;
  raise (SystemExit status).

Definition with_actions (node : Parser) (l : list Action) : Parser :=
  {| prog := prog node; description := description node;
     epilog := epilog node; actions := l; defaults := defaults node;
     base_subparsers := base_subparsers node;
     priv_subparsers := priv_subparsers node |}.

Definition with_defaults (node : Parser) (d : gmap string Value) : Parser :=
  {| prog := prog node; description := description node;
     epilog := epilog node; actions := actions node; defaults := d;
     base_subparsers := base_subparsers node;
     priv_subparsers := priv_subparsers node |}.

Definition with_base_subparsers (node : Parser) (g : option (string * nat))
  : Parser :=
  {| prog := prog node; description := description node;
     epilog := epilog node; actions := actions node;
     defaults := defaults node; base_subparsers := g;
     priv_subparsers := priv_subparsers node |}.

Definition with_default (a : Action) (v : Value) : Action :=
  {| option_strings := option_strings a; dest := dest a; kind := kind a;
     atype := atype a; choices := choices a; required := required a;
     default := v; help := help a; metavar := metavar a |}.

(** The [-h/--help] action every parser is born with. *)
Definition help_action : Action :=
  {| option_strings := ["-h"; "--help"]; dest := None; kind := HelpAction;
     atype := None; choices := None; required := false; default := VNone;
     help := HelpText "show this help message and exit";
     metavar := None |}.

(** [ArgumentParser(prog=..., description=..., epilog=...)] *)
Definition new (prog : string) (description epilog : option string)
  : M nat :=
  let! p := fresh in
  put_parser p
    {| prog := prog; description := description; epilog := epilog;
       actions := [help_action]; defaults := ∅;
       base_subparsers := None; priv_subparsers := None |} ;;
  ret p.

(** The keyword arguments of [add_argument] for one option string. *)
Record ArgSpec := {
  flag : string;
  s_action : ActionKind;
  s_type : option ArgType;
  s_choices : option (list Value);
  s_required : bool;
  s_default : option Value;
  s_help : Help;
  s_metavar : option string
}.

(** [--profile-name] is stored under [profile_name]. *)
Definition dest_of_flag (flag : string) : string :=
  PyStr.replace "-" "_" (PyStr.lstrip "-" flag).

Definition has_option (o : string) (a : Action) : bool :=
  existsb (String.eqb o) (option_strings a).

Definition find_option (node : Parser) (o : string) : option Action :=
  List.find (has_option o) (actions node).

Definition action_name (a : Action) : string :=
  PyStr.join "/" (option_strings a).

(** [parser.add_argument(flag, ...)] *)
Definition add_argument (self : nat) (spec : ArgSpec) : M unit :=
  let! node := get_parser self in
  match find_option node (flag spec) with
  | Some a =>
      raise (Exception "ArgumentError"
               ("argument " +:+ action_name a +:+
                ": conflicting option string: " +:+ flag spec))
  | None =>
      let d := dest_of_flag (flag spec) in
      let v :=
        match s_default spec with
        | Some v => v
        | None =>
            match defaults node !! d with
            | Some v => v
            | None =>
                match s_action spec with
                | StoreTrue => VBool false
                | _ => VNone
                end
            end
        end in
      put_parser self
        (with_actions node
           (actions node ++
            [ {| option_strings := [flag spec]; dest := Some d;
                 kind := s_action spec; atype := s_type spec;
                 choices := s_choices spec; required := s_required spec;
                 default := v; help := s_help spec;
                 metavar := s_metavar spec |} ]))
  end.

(** [parser.set_defaults] with keyword arguments: the parser-level defaults are
    updated, and so is the default of every action stored under one of
    the names. *)
Definition set_defaults (self : nat) (kwargs : list (string * Value))
  : M unit :=
  let! node := get_parser self in
  let kw : gmap string Value := list_to_map (reverse kwargs) in
  let upd (a : Action) :=
    match dest a with
    | Some d =>
        match kw !! d with
        | Some v => with_default a v
        | None => a
        end
    | None => a
    end in
  put_parser self
    (with_actions (with_defaults node (kw ∪ defaults node))
       (map upd (actions node))).

Section Methods.

(** [self.error], dispatched on the class of the parser. *)
Variable self_error : nat → string → M Empty_set.

Definition fail {A} (self : nat) (message : string) : M A :=
  let! x := self_error self message in
  match x with end.

(** [ArgumentParser.add_subparsers(title=...)] *)
Definition add_subparsers (self : nat) (title : string) : M nat :=
  let! node := get_parser self in
  match base_subparsers node with
  | Some _ => fail self "cannot have multiple subparser arguments"
  | None =>
      let! r := fresh in
      put_registry r
        {| reg_metavar := None; reg_prog_prefix := prog node;
           reg_choices := []; reg_help := [] |} ;;
      put_parser self (with_base_subparsers node (Some (title, r))) ;;
      ret r
  end.

End Methods.

(** [d[k] = v] on an ordered map *)
Fixpoint assoc_set {A} (k : string) (v : A) (l : list (string * A))
  : list (string * A) :=
  match l with
  | [] => [(k, v)]
  | (k', v') :: l' =>
      if String.eqb k k' then (k, v) :: l' else (k', v') :: assoc_set k v l'
  end.

Fixpoint assoc_get {A} (k : string) (l : list (string * A)) : option A :=
  match l with
  | [] => None
  | (k', v) :: l' => if String.eqb k k' then Some v else assoc_get k l'
  end.

(** [registry.add_parser(name, help=..., description=..., epilog=...)]:
    a new parser of the class of the parent, entered under [name]. *)
Definition add_parser (r : nat) (name : string) (help : Help)
    (description epilog : option string) : M nat :=
  let! reg := get_registry r in
  let! child :=
    new (reg_prog_prefix reg +:+ " " +:+ name) description epilog in
  put_registry r
    {| reg_metavar := reg_metavar reg;
       reg_prog_prefix := reg_prog_prefix reg;
       reg_choices := assoc_set name child (reg_choices reg);
       reg_help :=
         match help with
         | HelpNone => reg_help reg
         | _ => reg_help reg ++ [(name, help)]
         end |} ;;
  ret child.

(** *** Parsing *)

(** How [_parse_optional] reads one argument string. *)
Inductive Token :=
| TPositional
| TOption (a : Action) (option_string : string)
    (explicit_arg : option string)
| TAmbiguous (matches : list string)
| TUnknown.

(** The option strings of the parser that [pre] abbreviates. *)
Definition long_tuples (node : Parser) (pre : string)
  : list (Action * string) :=
  flat_map
    (fun a =>
       map (fun o => (a, o))
         (List.filter (PyStr.startswith pre) (option_strings a)))
    (actions node).

(** For a one-dash argument: the one-letter option it starts with, which
    takes the rest as its explicit argument, and the options it
    abbreviates. *)
Definition short_tuples (node : Parser) (arg : string)
  : list (Action * string * option string) :=
  let short := String.substring 0 2 arg in
  let tail := PyStr.slice_from 2 arg in
  flat_map
    (fun a =>
       flat_map
         (fun o =>
            if String.eqb o short then [(a, o, Some tail)]
            else if PyStr.startswith arg o then [(a, o, None)]
            else [])
         (option_strings a))
    (actions node).

Definition option_tuples (node : Parser) (arg : string)
  : list (Action * string * option string) :=
  if PyStr.startswith "--" arg then
    match PyStr.split_first "=" arg with
    | Some (pre, v) =>
        map (fun ao => (fst ao, snd ao, Some v)) (long_tuples node pre)
    | None =>
        map (fun ao => (fst ao, snd ao, None)) (long_tuples node arg)
    end
  else short_tuples node arg.

(** [-5] or [-.5]: read as an argument, not as an option. *)
Definition is_negative_number (s : string) : bool :=
  match s with
  | String "-" rest =>
      (negb (String.eqb rest "") && PyStr.all_digits rest)
      || match PyStr.split_first "." rest with
         | Some (a, b) =>
             PyStr.all_digits a && negb (String.eqb b "")
             && PyStr.all_digits b
         | None => false
         end
  | _ => false
  end.

Definition parse_optional (node : Parser) (arg : string) : Token :=
  match arg with
  | EmptyString => TPositional
  | String c rest =>
      if negb (Ascii.eqb c "-") then TPositional
      else
        match find_option node arg with
        | Some a => TOption a arg None
        | None =>
            if String.eqb rest "" then TPositional
            else
              let by_equals :=
                match PyStr.split_first "=" arg with
                | Some (o, v) =>
                    match find_option node o with
                    | Some a => Some (TOption a o (Some v))
                    | None => None
                    end
                | None => None
                end in
              match by_equals with
              | Some t => t
              | None =>
                  match option_tuples node arg with
                  | [(a, o, e)] => TOption a o e
                  | (_ :: _ :: _) as l =>
                      TAmbiguous (map (fun t => snd (fst t)) l)
                  | [] =>
                      if is_negative_number arg then TPositional
                      else if PyStr.contains " " arg then TPositional
                      else TUnknown
                  end
              end
        end
  end.

(** The state of one [parse_known_args]: the namespace, the names of
    the actions taken so far, and the arguments nobody claimed. *)
Record PState := {
  ns : Namespace;
  seen : list string;
  extras : list string
}.

(** An action to take, with its argument strings and the option string
    that selected it. *)
Definition Taken : Type := Action * list string * string.

Definition set_attr (d : option string) (v : Value) (m : Namespace)
  : Namespace :=
  match d with
  | Some k => <[k := v]> m
  | None => m
  end.

Definition repr_value (v : Value) : string :=
  match v with
  | VNone => "None"
  | VBool true => "True"
  | VBool false => "False"
  | VStr s => PyStr.repr s
  | VTarget tabular.pretty => "<RenderTarget.pretty>"
  | VTarget tabular.plain => "<RenderTarget.plain>"
  | VTarget (tabular.dump f) => "<RenderTarget." +:+ f +:+ ">"
  | VCommand i => "<" +:+ cls_name (inst_cls i) +:+ " object>"
  end.

(** The number of argument strings the action takes. *)
Definition arity (a : Action) : nat :=
  match kind a with
  | Store => 1
  | StoreTrue | HelpAction => 0
  end.

(** [option_string[1] not in self.prefix_chars] *)
Definition single_dash (o : string) : bool :=
  match o with
  | String _ (String c _) => negb (Ascii.eqb c "-")
  | _ => false
  end.

Definition init_namespace (node : Parser) : Namespace :=
  fold_left
    (fun m a =>
       match dest a with
       | Some d =>
           match m !! d with
           | Some _ => m
           | None => <[d := default a]> m
           end
       | None => m
       end)
    (actions node) (∅ : Namespace)
  ∪ defaults node.

Definition init (node : Parser) : PState :=
  {| ns := init_namespace node; seen := []; extras := [] |}.

Definition add_extras (st : PState) (l : list string) : PState :=
  {| ns := ns st; seen := seen st; extras := extras st ++ l |}.

(** What a sub-command's parser found is copied over the namespace of
    its parent. *)
Definition merge (st : PState) (sub : Namespace * list string) : PState :=
  {| ns := fst sub ∪ ns st; seen := seen st;
     extras := extras st ++ snd sub |}.

Definition was_seen (st : PState) (a : Action) : bool :=
  existsb (String.eqb (action_name a)) (seen st).

Section Parsing.

Variable self_error : nat → string → M Empty_set.

Definition argument_error {A} (self : nat) (a : Action)
    (message : string) : M A :=
  fail self_error self
    ("argument " +:+ action_name a +:+ ": " +:+ message).

(** [_get_value]: the string converted by the [type=] callable. *)
Definition get_value (self : nat) (a : Action) (arg : string)
  : M Value :=
  match atype a with
  | None => ret (VStr arg)
  | Some t =>
      match convert t arg with
      | Some v => ret v
      | None =>
          argument_error self a
            ("invalid " +:+ type_name t +:+ " value: "
             +:+ PyStr.repr arg)
      end
  end.

(** [_check_value]: the converted value is one of the choices. *)
Definition check_value (self : nat) (a : Action) (v : Value) : M unit :=
  match choices a with
  | None => ret tt
  | Some l =>
      if bool_decide (v ∈ l) then ret tt
      else
        argument_error self a
          ("invalid choice: " +:+ repr_value v +:+ " (choose from "
           +:+ PyStr.join ", " (map repr_value l) +:+ ")")
  end.

Definition take_action (self : nat) (st : PState) (t : Taken)
  : M PState :=
  let a := fst (fst t) in
  let st1 :=
    {| ns := ns st; seen := seen st ++ [action_name a];
       extras := extras st |} in
  match kind a with
  | Store =>
      match snd (fst t) with
      | [arg] =>
          let! v := get_value self a arg in
          check_value self a v ;;
          ret {| ns := set_attr (dest a) v (ns st1); seen := seen st1;
                 extras := extras st1 |}
      | _ => argument_error self a "expected one argument"
      end
  | StoreTrue =>
      ret {| ns := set_attr (dest a) (VBool true) (ns st1);
             seen := seen st1; extras := extras st1 |}
  | HelpAction =>
      emit (EvPrintHelp Stdout self) ;; exit 0 ""
  end.

Fixpoint take_all (self : nat) (st : PState) (l : list Taken)
  : M PState :=
  match l with
  | [] => ret st
  | t :: l' =>
      let! st' := take_action self st t in
      take_all self st' l'
  end.

(** An option that came with an explicit argument ([--flag=VALUE], or
    the tail of a one-dash argument).  A one-letter flag that takes no
    argument hands the tail on to the next one-letter option.  The
    result is the actions to take and, where the last option still
    waits for its argument, that option. *)
Fixpoint consume_explicit (self : nat) (node : Parser) (a : Action)
    (o expl : string) (queue : list Taken)
  : M (list Taken * option (Action * string)) :=
  match arity a with
  | 1 => ret (queue ++ [(a, [expl], o)], None)
  | _ =>
      if single_dash o then
        match expl with
        | EmptyString =>
            argument_error self a
              ("ignored explicit argument " +:+ PyStr.repr expl)
        | String c tail =>
            let o' := String "-" (String c "") in
            match find_option node o' with
            | Some a' =>
                match tail with
                | EmptyString =>
                    if (arity a' =? 0)%nat then
                      ret (queue ++ [(a, [], o); (a', [], o')], None)
                    else ret (queue ++ [(a, [], o)], Some (a', o'))
                | _ =>
                    consume_explicit self node a' o' tail
                      (queue ++ [(a, [], o)])
                end
            | None =>
                argument_error self a
                  ("ignored explicit argument " +:+ PyStr.repr expl)
            end
        end
      else
        argument_error self a
          ("ignored explicit argument " +:+ PyStr.repr expl)
  end.

(** After the last argument: the string defaults of the options that
    were not given are converted, and a required option that was not
    given is an error. *)
Fixpoint convert_defaults (self : nat) (l : list Action) (st : PState)
  : M PState :=
  match l with
  | [] => ret st
  | a :: l' =>
      if was_seen st a || required a then convert_defaults self l' st
      else
        match default a, dest a with
        | VStr s, Some d =>
            if bool_decide (ns st !! d = Some (VStr s)) then
              let! v := get_value self a s in
              convert_defaults self l'
                {| ns := <[d := v]> (ns st); seen := seen st;
                   extras := extras st |}
            else convert_defaults self l' st
        | _, _ => convert_defaults self l' st
        end
  end.

Definition missing (node : Parser) (st : PState) : list string :=
  map action_name
    (List.filter (fun a => negb (was_seen st a) && required a)
       (actions node)).

Definition finish (self : nat) (node : Parser) (st : PState)
  : M (Namespace * list string) :=
  let! st' := convert_defaults self (actions node) st in
  match missing node st' with
  | [] => ret (ns st', extras st')
  | l =>
      fail self_error self
        ("the following arguments are required: "
         +:+ PyStr.join ", " l)
  end.

(** The first pass over the arguments, up to [--]: an ambiguous
    abbreviation is an error before any action is taken. *)
Fixpoint prescan (self : nat) (node : Parser) (args : list string)
  : M unit :=
  match args with
  | [] => ret tt
  | tok :: rest =>
      if String.eqb tok "--" then ret tt
      else
        match parse_optional node tok with
        | TAmbiguous l =>
            fail self_error self
              ("ambiguous option: " +:+ tok +:+ " could match "
               +:+ PyStr.join ", " l)
        | _ => prescan self node rest
        end
  end.

Definition expected_one {A} (self : nat) (a : Action) : M A :=
  argument_error self a "expected one argument".

Definition invalid_command {A} (self : nat) (reg : Registry)
    (tok : string) : M A :=
  fail self_error self
    ("argument "
     +:+ match reg_metavar reg with Some m => m | None => "command" end
     +:+ ": invalid choice: " +:+ PyStr.repr tok +:+ " (choose from "
     +:+ PyStr.join ", " (map (fun c => PyStr.repr (fst c))
                            (reg_choices reg)) +:+ ")").

(** The arguments from left to right.  [waiting] is an option that
    takes one argument and has not seen it yet, with the flags of its
    cluster that are taken together with it.  A word that is not an
    option selects a sub-command when the parser has a registry; the
    parser of the sub-command reads all that follows into a namespace
    of its own. *)
Fixpoint loop (self : nat) (node : Parser) (st : PState)
    (waiting : option (list Taken * Action * string))
    (args : list string) {struct args}
  : M (Namespace * list string) :=
  let subcommand (r : nat) (tok : string) (rest : list string) :=
    let! reg := get_registry r in
    match assoc_get tok (reg_choices reg) with
    | None => invalid_command self reg tok
    | Some child =>
        let! cnode := get_parser child in
        prescan child cnode rest ;;
        let! sub := loop child cnode (init cnode) None rest in
        finish self node (merge st sub)
    end in
  match args with
  | [] =>
      match waiting with
      | Some (_, a, _) => expected_one self a
      | None => finish self node st
      end
  | tok :: rest =>
      match waiting with
      | Some (queue, a, o) =>
          if String.eqb tok "--" then expected_one self a
          else
            match parse_optional node tok with
            | TPositional =>
                let! st' := take_all self st (queue ++ [(a, [tok], o)]) in
                loop self node st' None rest
            | _ => expected_one self a
            end
      | None =>
          if String.eqb tok "--" then
            match base_subparsers node, rest with
            | Some (_, r), _ :: _ => subcommand r tok rest
            | _, _ => finish self node (add_extras st (tok :: rest))
            end
          else
            match parse_optional node tok with
            | TPositional =>
                match base_subparsers node with
                | Some (_, r) => subcommand r tok rest
                | None => loop self node (add_extras st [tok]) None rest
                end
            | TOption a o None =>
                if (arity a =? 0)%nat then
                  let! st' := take_all self st [(a, [], o)] in
                  loop self node st' None rest
                else loop self node st (Some ([], a, o)) rest
            | TOption a o (Some e) =>
                let! q := consume_explicit self node a o e [] in
                match snd q with
                | None =>
                    let! st' := take_all self st (fst q) in
                    loop self node st' None rest
                | Some (a', o') =>
                    loop self node st (Some (fst q, a', o')) rest
                end
            | TAmbiguous l =>
                fail self_error self
                  ("ambiguous option: " +:+ tok +:+ " could match "
                   +:+ PyStr.join ", " l)
            | TUnknown => loop self node (add_extras st [tok]) None rest
            end
      end
  end.

Definition parse_known_args (self : nat) (args : list string)
  : M (Namespace * list string) :=
  let! node := get_parser self in
  prescan self node args ;;
  loop self node (init node) None args.

Definition parse_args (self : nat) (args : list string) : M Namespace :=
  let! r := parse_known_args self args in
  match snd r with
  | [] => ret (fst r)
  | l =>
      fail self_error self
        ("unrecognized arguments: " +:+ PyStr.join " " l)
  end.

End Parsing.

(** The option strings that [print_help] lists: the actions whose help
    is not suppressed. *)
Definition help_listing (node : Parser) : list string :=
  flat_map
    (fun a =>
       match help a with
       | HelpSuppress => []
       | _ => option_strings a
       end)
    (actions node).

End argparse.

(** ** Collaborators

    The code of the package that this file calls and that lives outside
    it. *)

(** Modelled from the spec: the command-group modules ([profiles],
    [files], [nodes], [tags], [users]) are not part of this file.  The
    registration entry point of a module registers any number of commands
    anywhere in the tree: each entry is one [cls.register(node, name)]
    call, where [node] is reached from the root through [at_path]. *)
Record Registration := {
  at_path : list string;
  reg_cls : CommandClass;
  reg_name : option string
}.

Record Collaborators := {
  (** the names of the dump members of [tabular.RenderTarget] *)
  dump_formats : list string;
  (** [utils.parse_docstring]: title and body of a class's docstring *)
  parse_docstring : CommandClass → string * string;
  (** the module that [import_module] finds under a name, if any *)
  modules : string → option (list Registration);
  (** [bones.SessionAPI.fromProfileName] *)
  fromProfileName : Value → Res Session;
  (** [viscera.Origin] *)
  Origin_new : Session → Res Origin;
  (** the [execute] method that a profile-bound command class defines *)
  execute : CommandClass → Origin → Namespace → option Value → Res Value;
  (** the [__call__] method that any other command class defines *)
  call : CommandClass → Namespace → Res Value
}.

Definition RenderTarget_members (K : Collaborators)
  : list tabular.RenderTarget :=
  tabular.pretty :: tabular.plain :: map tabular.dump (dump_formats K).

Definition RenderTarget_value (t : tabular.RenderTarget) : string :=
  match t with
  | tabular.pretty => "pretty"
  | tabular.plain => "plain"
  | tabular.dump f => f
  end.

(** [tabular.RenderTarget(s)]: the member looked up by value. *)
Definition RenderTarget_call (K : Collaborators) (s : string)
  : option Value :=
  VTarget <$>
    List.find (fun t => String.eqb (RenderTarget_value t) s)
      (RenderTarget_members K).

(** ** The module itself *)

Definition colorized (env : Env) (text : string) : string :=
  if stdout_isatty env then Colorclass.value_colors text
  else Colorclass.value_no_colors text.

Definition get_profile_names_and_default (cfg : ProfileConfig)
  : list string * option Profile :=
  (PyStr.sorted (config_names cfg), config_default cfg).

Definition PROFILE_NAMES (env : Env) : list string :=
  fst (get_profile_names_and_default (config env)).

Definition PROFILE_DEFAULT (env : Env) : option Profile :=
  snd (get_profile_names_and_default (config env)).

Arguments PROFILE_NAMES : simpl never.
Arguments PROFILE_DEFAULT : simpl never.

(** *** class ArgumentParser *)

Definition ArgumentParser_add_subparsers (self : nat) : M nat :=
  raise (Exception "NotImplementedError" "add_subparsers has been disabled").

Definition ArgumentParser_error (env : Env) (self : nat) (message : string)
  : M Empty_set :=
  argparse.exit 2
    (colorized env "{autored}Error:{/autored} " +:+ message +:+ PyStr.nl).

Definition with_priv_subparsers (node : Parser) (r : option nat) : Parser :=
  {| prog := prog node; description := description node;
     epilog := epilog node; actions := actions node;
     defaults := defaults node; base_subparsers := base_subparsers node;
     priv_subparsers := r |}.

Definition with_metavar (reg : Registry) (m : option string) : Registry :=
  {| reg_metavar := m; reg_prog_prefix := reg_prog_prefix reg;
     reg_choices := reg_choices reg; reg_help := reg_help reg |}.

(** The [subparsers] property. *)
Definition ArgumentParser_subparsers (env : Env) (self : nat) : M nat :=
  let! node := get_parser self in
  match priv_subparsers node with
  | Some r => ret r
  | None =>
      let! r :=
        argparse.add_subparsers (ArgumentParser_error env) self
          "sub-commands" in
      let! node' := get_parser self in
      put_parser self (with_priv_subparsers node' (Some r)) ;;
      let! reg := get_registry r in
      put_registry r (with_metavar reg (Some "COMMAND")) ;;
      ret r
  end.

(** [parser[name]] *)
Definition ArgumentParser_getitem (env : Env) (self : nat) (name : string)
  : M nat :=
  let! r := ArgumentParser_subparsers env self in
  let! reg := get_registry r in
  match argparse.assoc_get name (reg_choices reg) with
  | Some child => ret child
  | None => raise (Exception "KeyError" (PyStr.repr name))
  end.

(** [parse_args] is inherited; its errors go through the override. *)
Definition ArgumentParser_parse_args (env : Env) (self : nat)
    (args : list string) : M Namespace :=
  argparse.parse_args (ArgumentParser_error env) self args.

(** *** class Command and its archetypes *)

Definition Command_init (parser : nat) : M unit := ret tt.

Definition Command_name (cls : CommandClass) : string :=
  let name := PyStr.lower (PyStr.replace "_" "-" (cls_name cls)) in
  if PyStr.startswith "cmd-" name then PyStr.slice_from 4 name else name.

Definition output_format_help : string :=
  "Output tabular data as a formatted table (pretty), a "
  +:+ "formatted table using only ASCII for borders (plain), or "
  +:+ "one of several dump formats. Default: %(default)s.".

Definition TableCommand_init (K : Collaborators) (env : Env)
    (super_init : nat → M unit) (parser : nat) : M unit :=
  super_init parser ;;
  let default_target :=
    if stdout_isatty env then tabular.pretty else tabular.plain in
  argparse.add_argument parser
    {| argparse.flag := "--output-format";
       argparse.s_action := Store;
       argparse.s_type :=
         Some {| type_name := "RenderTarget";
                 convert := RenderTarget_call K |};
       argparse.s_choices := Some (map VTarget (RenderTarget_members K));
       argparse.s_required := false;
       argparse.s_default := Some (VTarget default_target);
       argparse.s_help := HelpText output_format_help;
       argparse.s_metavar := None |}.

Definition profile_name_help (env : Env) : string :=
  "The name of the remote MAAS instance to use. Use "
  +:+ "`list-profiles` to obtain a list of valid profiles."
  +:+ match PROFILE_DEFAULT env with
      | None => ""
      | Some _ => " [default: %(default)s]"
      end.

Definition OriginCommandBase_init (env : Env) (super_init : nat → M unit)
    (parser : nat) : M unit :=
  super_init parser ;;
  argparse.add_argument parser
    {| argparse.flag := "--profile-name";
       argparse.s_action := Store;
       argparse.s_type := None;
       argparse.s_choices := Some (map VStr (PROFILE_NAMES env));
       argparse.s_required :=
         match PROFILE_DEFAULT env with None => true | Some _ => false end;
       argparse.s_default := None;
       argparse.s_help := HelpText (profile_name_help env);
       argparse.s_metavar := Some "NAME" |} ;;
  match PROFILE_DEFAULT env with
  | Some d => argparse.set_defaults parser [("profile_name", VStr (name d))]
  | None => ret tt
  end.

Definition cmd_shell_init (env : Env) (super_init : nat → M unit)
    (parser : nat) : M unit :=
  super_init parser ;;
  argparse.add_argument parser
    {| argparse.flag := "--profile-name";
       argparse.s_action := Store;
       argparse.s_type := None;
       argparse.s_choices := Some (map VStr (PROFILE_NAMES env));
       argparse.s_required := false;
       argparse.s_default := None;
       argparse.s_help := HelpText (profile_name_help env);
       argparse.s_metavar := Some "NAME" |} ;;
  match PROFILE_DEFAULT env with
  | None => argparse.set_defaults parser [("profile_name", VNone)]
  | Some d => argparse.set_defaults parser [("profile_name", VStr (name d))]
  end.

(** [cls(parser)]: the constructors run along the method resolution
    order.  For [OriginTableCommand(OriginCommandBase, TableCommand)] the
    [super] of [OriginCommandBase] is [TableCommand]. *)
Definition construct (K : Collaborators) (env : Env) (cls : CommandClass)
    (parser : nat) : M Instance :=
  match cls_base cls with
  | Command => Command_init parser
  | TableCommand => TableCommand_init K env Command_init parser
  | OriginCommand => OriginCommandBase_init env Command_init parser
  | OriginTableCommand =>
      OriginCommandBase_init env (TableCommand_init K env Command_init) parser
  | Shell => cmd_shell_init env Command_init parser
  end ;;
  ret {| inst_cls := cls; inst_parser := parser |}.

Definition Command_register (K : Collaborators) (env : Env)
    (cls : CommandClass) (parser : nat) (name : option string) : M unit :=
  let doc := parse_docstring K cls in
  let! registry := ArgumentParser_subparsers env parser in
  let! command_parser :=
    argparse.add_parser registry
      (match name with None => Command_name cls | Some n => n end)
      (HelpText (fst doc)) (Some (fst doc)) (Some (snd doc)) in
  let! instance := construct K env cls command_parser in
  argparse.set_defaults command_parser [("execute", VCommand instance)].

(** [options.attr] *)
Definition getattr (options : Namespace) (attr : string) : M Value :=
  match options !! attr with
  | Some v => ret v
  | None =>
      raise (Exception "AttributeError"
               ("'Namespace' object has no attribute " +:+ PyStr.repr attr))
  end.

Definition OriginCommand_call (K : Collaborators) (self : Instance)
    (options : Namespace) : M Value :=
  let! profile_name := getattr options "profile_name" in
  let! session :=
    extern (EvFromProfileName profile_name)
      (fromProfileName K profile_name) in
  let! origin := extern (EvOrigin session) (Origin_new K session) in
  extern (EvExecute (cls_name (inst_cls self)) origin options None)
    (execute K (inst_cls self) origin options None).

Definition OriginTableCommand_call (K : Collaborators) (self : Instance)
    (options : Namespace) : M Value :=
  let! profile_name := getattr options "profile_name" in
  let! session :=
    extern (EvFromProfileName profile_name)
      (fromProfileName K profile_name) in
  let! origin := extern (EvOrigin session) (Origin_new K session) in
  let! target := getattr options "output_format" in
  extern (EvExecute (cls_name (inst_cls self)) origin options (Some target))
    (execute K (inst_cls self) origin options (Some target)).

(** [instance(options)], dispatched on the class of the instance. *)
Definition call_instance (K : Collaborators) (self : Instance)
    (options : Namespace) : M Value :=
  match cls_base (inst_cls self) with
  | OriginCommand => OriginCommand_call K self options
  | OriginTableCommand => OriginTableCommand_call K self options
  | Command | TableCommand | Shell =>
      extern (EvCall (cls_name (inst_cls self)) options)
        (call K (inst_cls self) options)
  end.

(** [f(options)] for a value [f] *)
Definition call_value (K : Collaborators) (f : Value) (options : Namespace)
  : M Value :=
  match f with
  | VCommand i => call_instance K i options
  | _ => raise (Exception "TypeError" "object is not callable")
  end.

Definition cmd_shell : CommandClass :=
  {| cls_name := "cmd_shell";
     cls_doc := "Start an interactive shell with some convenient local variables.";
     cls_base := Shell |}.

(** *** cmd_shell.__call__

    The call of the shell command in detail.  It ends in an interpreter
    that runs the user's code; that last step is the result here. *)

(** What the shell command needs to know of the process besides [Env]:
    whether standard input is a terminal, whether [IPython] can be
    imported, and the text that standard input holds when a script is
    piped in. *)
Record Terminal := {
  stdin_isatty : bool;
  IPython_importable : bool;
  stdin_text : string
}.

(** The objects that the shell puts into the namespace of the code it
    runs. *)
Inductive ShellVar :=
| VarSession (s : Session)
| VarOrigin (o : Origin).

(** The interpreter that the call ends in, with the namespace it is given:
    [IPython.start_ipython(argv=[], display_banner=False, user_ns=...)],
    [code.InteractiveConsole(...).interact(banner)], or [exec] of the
    source read from standard input. *)
Inductive Interpreter :=
| StartIPython (user_ns : list (string * ShellVar))
| Interact (banner : string) (locals : list (string * ShellVar))
| Exec (source : string) (globals : list (string * ShellVar)).

(** ["%s" % v].  A profile name is [None] or a string; the other values
    cannot reach this attribute through the parser and are rendered as
    [repr_value] renders them. *)
Definition format_s (v : Value) : string :=
  match v with
  | VStr s => s
  | _ => argparse.repr_value v
  end.

(** ["%10s" % s]: [s] moved to the right of a field of ten characters. *)
Definition format_10s (s : string) : string :=
  String.concat "" (repeat " " (10 - String.length s)) +:+ s.

(** [sorted(d.items())] on a dict with string keys. *)
Fixpoint insert_item (x : string * string) (l : list (string * string))
  : list (string * string) :=
  match l with
  | [] => [x]
  | y :: l' =>
      if String.leb (fst x) (fst y) then x :: l else y :: insert_item x l'
  end.

Definition sorted_items (l : list (string * string))
  : list (string * string) :=
  foldr insert_item [] l.

(** [print(s)] *)
Definition print (s : string) : M unit :=
  emit (EvWrite Stdout (s +:+ PyStr.nl)).

Definition cmd_shell_call (K : Collaborators) (env : Env) (term : Terminal)
    (options : Namespace) : M Interpreter :=
  let! profile_name := getattr options "profile_name" in
  let! vars :=
    match profile_name with
    | VNone => ret ([], [])
    | _ =>
        let! session :=
          extern (EvFromProfileName profile_name)
            (fromProfileName K profile_name) in
        let! origin := extern (EvOrigin session) (Origin_new K session) in
        ret ([("session", VarSession session); ("origin", VarOrigin origin)],
             [("session",
               "A `bones` session, configured for "
               +:+ format_s profile_name +:+ ".");
              ("origin",
               "A `viscera` origin, configured for "
               +:+ format_s profile_name +:+ ".")])
    end in
  let namespace : list (string * ShellVar) := fst vars in
  let variables : list (string * string) := snd vars in
  (if stdin_isatty term && stdout_isatty env then
     let banner :=
       ["{automagenta}Welcome to the MAAS shell.{/automagenta}"]
       ++ match variables with
          | [] => []
          | _ =>
              [""; "Predefined variables:"; ""]
              ++ map (fun variable =>
                        "{autoyellow}" +:+ format_10s (fst variable)
                        +:+ "{/autoyellow}: " +:+ snd variable)
                   (sorted_items variables)
          end in
     for_each banner (fun line => print (colorized env line))
   else ret tt) ;;
  if stdin_isatty term then
    if IPython_importable term then ret (StartIPython namespace)
    else ret (Interact " " namespace)
  else ret (Exec (stdin_text term) namespace).

(** *** prepare_parser *)

Definition submodules : list string :=
  ["profiles"; "files"; "nodes"; "tags"; "users"].

Definition import_module (K : Collaborators) (name : string)
  : M (list Registration) :=
  emit (EvImport name) ;;
  match modules K name with
  | Some m => ret m
  | None =>
      raise (Exception "ImportError" ("No module named " +:+ PyStr.repr name))
  end.

Fixpoint resolve (env : Env) (parser : nat) (path : list string) : M nat :=
  match path with
  | [] => ret parser
  | n :: path' =>
      let! child := ArgumentParser_getitem env parser n in
      resolve env child path'
  end.

(** [module.register(parser)] *)
Definition module_register (K : Collaborators) (env : Env)
    (module : list Registration) (parser : nat) : M unit :=
  for_each module
    (fun r =>
       let! node := resolve env parser (at_path r) in
       Command_register K env (reg_cls r) node (reg_name r)).

Definition add_group (env : Env) (parser : nat) (name help : string)
  : M unit :=
  let! registry := ArgumentParser_subparsers env parser in
  let! _child := argparse.add_parser registry name (HelpText help) None None in
  ret tt.

Definition debug_flag : argparse.ArgSpec :=
  {| argparse.flag := "--debug";
     argparse.s_action := StoreTrue;
     argparse.s_type := None;
     argparse.s_choices := None;
     argparse.s_required := false;
     argparse.s_default := Some (VBool false);
     argparse.s_help := HelpSuppress;
     argparse.s_metavar := None |}.

Definition prepare_parser (K : Collaborators) (env : Env)
    (argv : list string) : M nat :=
  let! prog :=
    match argv with
    | p :: _ => ret p
    | [] => raise (Exception "IndexError" "list index out of range")
    end in
  let! parser :=
    argparse.new prog (Some "Interact with a remote MAAS server.")
      (Some "http://maas.ubuntu.com/") in
  Command_register K env cmd_shell parser None ;;
  add_group env parser "acquire" "Acquire nodes or other resources." ;;
  add_group env parser "launch" "Launch nodes or other resources." ;;
  add_group env parser "release" "Release nodes or other resources." ;;
  add_group env parser "list"
    "List nodes, files, tags, and other resources." ;;
  for_each submodules
    (fun submodule =>
       let! module := import_module K ("." +:+ submodule) in
       module_register K env module parser) ;;
  argparse.add_argument parser debug_flag ;;
  ret parser.

(** *** post_mortem and main *)

Definition post_mortem (env : Env) (traceback : Exn) : M unit :=
  emit (EvPostMortem (if ipdb_importable env then ipdb else pdb) traceback).

(** [argcomplete.autocomplete]: returns at once unless the shell asked
    for completions, in which case it answers and ends the process. *)
Definition autocomplete (env : Env) (parser : nat) : M unit :=
  if completion_requested env then
    emit (EvAutocomplete parser) ;; raise (SystemExit 0)
  else ret tt.

(** The truth value of a Python value. *)
Definition truthy (v : Value) : bool :=
  match v with
  | VNone => false
  | VBool b => b
  | VStr s => negb (String.eqb s "")
  | VTarget _ | VCommand _ => true
  end.

(** The outcome of a computation as a value: the body of a [try]. *)
Definition catch {A} (c : M A) : M (Res A) :=
  fun w => let (r, w') := c w in (Ok r, w').

(** The [except] clauses of [main].  [options] is the variable of that
    name at the time of the exception: [None] until [parse_args] has
    returned. *)
Definition handlers (env : Env) (parser : nat) (options : option Namespace)
    (error : Exn) : M unit :=
  match error with
  | KeyboardInterrupt => raise (SystemExit 1)
  | Exception _ _ =>
      let! inspect :=
        match options with
        | None => ret true
        | Some o => let! d := getattr o "debug" in ret (truthy d)
        end in
      if inspect then post_mortem env error ;; raise error
      else
        let! x := ArgumentParser_error env parser (str_of error) in
        match x with end
  | SystemExit _ | GeneratorExit => raise error
  end.

(** The inner [try]: the entry point of the selected command is looked
    up and, when there is one, called with the options. *)
Definition dispatch (K : Collaborators) (env : Env) (parser : nat)
    (options : Namespace) : M unit :=
  match options !! "execute" with
  | None =>
      let! x := ArgumentParser_error env parser "No arguments given." in
      match x with end
  | Some execute_ =>
      let! _result := call_value K execute_ options in
      ret tt
  end.

Definition main (K : Collaborators) (env : Env) (argv : list string)
  : M unit :=
  let! parser := prepare_parser K env argv in
  autocomplete env parser ;;
  let! parsed := catch (ArgumentParser_parse_args env parser (tail argv)) in
  match parsed with
  | Raise e => handlers env parser None e
  | Ok options =>
      let! outcome := catch (dispatch K env parser options) in
      match outcome with
      | Raise e => handlers env parser (Some options) e
      | Ok _ => ret tt
      end
  end.

(** The exit status of the process: that of [SystemExit], 1 after an
    uncaught exception, 0 otherwise. *)
Definition exit_status {A} (r : Res A) : nat :=
  match r with
  | Ok _ => 0
  | Raise (SystemExit n) => n
  | Raise _ => 1
  end.

(** The whole run of the program from an empty store. *)
Definition run (K : Collaborators) (env : Env) (argv : list string)
  : Res unit * list Event :=
  let r := main K env argv empty_world in (fst r, trace (snd r)).

(** ** A small installation, for the examples *)

Definition cmd_list_nodes : CommandClass :=
  {| cls_name := "cmd_list_nodes"; cls_doc := "List nodes.";
     cls_base := OriginTableCommand |}.

Definition cmd_acquire_node : CommandClass :=
  {| cls_name := "cmd_acquire_node"; cls_doc := "Acquire a node.";
     cls_base := OriginCommand |}.

Definition cmd_list_profiles : CommandClass :=
  {| cls_name := "cmd_list_profiles"; cls_doc := "List profiles.";
     cls_base := TableCommand |}.

Definition sample_modules (name : string) : option (list Registration) :=
  if String.eqb name ".profiles" then
    Some [ {| at_path := []; reg_cls := cmd_list_profiles;
              reg_name := None |} ]
  else if String.eqb name ".nodes" then
    Some [ {| at_path := ["list"]; reg_cls := cmd_list_nodes;
              reg_name := Some "nodes" |};
           {| at_path := ["acquire"]; reg_cls := cmd_acquire_node;
              reg_name := Some "node" |} ]
  else if String.eqb name ".files" || String.eqb name ".tags"
          || String.eqb name ".users" then Some []
  else None.

(** [prod] and [dev] can be reached; acquiring a node fails with
    "disk full"; everything else succeeds. *)
Definition sample_K : Collaborators :=
  {| dump_formats := ["yaml"; "json"; "csv"];
     parse_docstring := fun cls => (cls_doc cls, "");
     modules := sample_modules;
     fromProfileName := fun v =>
       match v with
       | VStr "prod" => Ok 7
       | VStr "dev" => Ok 8
       | _ => Raise (Exception "ProfileNotFound" "no such profile")
       end;
     Origin_new := fun s => Ok (100 + s);
     execute := fun cls _ _ _ =>
       if String.eqb (cls_name cls) "cmd_acquire_node"
       then Raise (Exception "CommandError" "disk full")
       else Ok VNone;
     call := fun _ _ => Ok VNone |}.

Definition sample_env (tty : bool) (dflt : option Profile) : Env :=
  {| stdout_isatty := tty; stderr_isatty := negb tty;
     ipdb_importable := false; completion_requested := false;
     config := {| config_names := ["prod"; "dev"];
                  config_default := dflt |} |}.


Definition dev_profile : Profile := {| name := "dev" |}.

Definition sample_options : Namespace :=
  <["profile_name" := VStr "prod"]>
    (<["output_format" := VTarget tabular.plain]>
       (<["debug" := VBool false]> ∅)).

Definition sample_instance : Instance :=
  {| inst_cls := cmd_list_nodes; inst_parser := 8 |}.

(** The root parser as its constructor leaves it. *)
Definition fresh_root : Parser :=
  {| prog := "maas"; description := None; epilog := None;
     actions := [argparse.help_action]; defaults := ∅;
     base_subparsers := None; priv_subparsers := None |}.

Definition fresh_root_world : World :=
  snd (argparse.new "maas" None None empty_world).

(** The store after one command was registered under the new root. *)
Definition acquire_world : World :=
  snd (Command_register sample_K (sample_env false None) cmd_acquire_node 0
         (Some "node") fresh_root_world).

Definition profiles_world : World :=
  snd (Command_register sample_K (sample_env true None) cmd_list_profiles 0
         None fresh_root_world).

(** ** Notions used in the statements *)

(** The world after some more events. *)
Definition log (w : World) (evs : list Event) : World :=
  {| parsers := parsers w; registries := registries w;
     next_id := next_id w; trace := trace w ++ evs |}.

(** [n] successive reads of the [subparsers] property of one parser. *)
Fixpoint access_times (env : Env) (self : nat) (n : nat) (w : World)
  : list (Res nat) * World :=
  match n with
  | O => ([], w)
  | S n' =>
      let (r, w') := ArgumentParser_subparsers env self w in
      let (rs, w'') := access_times env self n' w' in
      (r :: rs, w'')
  end.

(** An argument string selects the option [flag] of a parser when the
    parser reads it as that option, written out, abbreviated or with an
    explicit argument. *)
Definition selects (node : Parser) (flag : string) (tok : string) : bool :=
  match argparse.parse_optional node tok with
  | argparse.TOption a _ _ => argparse.has_option flag a
  | _ => false
  end.

Definition mentions (node : Parser) (flag : string) (args : list string)
  : bool :=
  existsb (selects node flag) args.

Definition named (n : string) : CommandClass :=
  {| cls_name := n; cls_doc := ""; cls_base := Command |}.

Definition error_prefix : string := "{autored}Error:{/autored} ".

(** What [error] writes to standard error. *)
Definition error_text (env : Env) (message : string) : string :=
  colorized env error_prefix +:+ message +:+ PyStr.nl.

(** The debugger that [post_mortem] finds. *)
Definition debugger_of (env : Env) : Debugger :=
  if ipdb_importable env then ipdb else pdb.

(** C7 as it is stated: every exception other than the user's interrupt,
    raised while the options are unparsed or while the debug flag is set,
    is inspected and raised again. *)
Definition recovery_as_stated : Prop :=
  ∀ (env : Env) (parser : nat) (options : option Namespace) (e : Exn)
    (w : World),
    e ≠ KeyboardInterrupt →
    (options = None
     ∨ ∃ o d, options = Some o ∧ o !! "debug" = Some d ∧ truthy d = true) →
    handlers env parser options e w
    = (Raise e, log w [EvPostMortem (debugger_of env) e]).

(** The events of a trace that print the usage or the help of a parser. *)
Definition prints_help (ev : Event) : bool :=
  match ev with
  | EvPrintHelp _ _ | EvPrintUsage _ _ => true
  | _ => false
  end.

Definition inspects (ev : Event) : bool :=
  match ev with
  | EvPostMortem _ _ => true
  | _ => false
  end.

(** A triple for computations: [Q] holds of the result when the
    computation returns, [R] of the exception when it raises. *)
Definition wp {A} (c : M A) (Q : A → Prop) (R : Exn → Prop) : Prop :=
  ∀ w, match c w with
       | (Ok a, _) => Q a
       | (Raise e, _) => R e
       end.

(** The first steps of [prepare_parser]: the root parser, the shell
    command and the four groups. *)
Definition register_toplevel (K : Collaborators) (env : Env) (prog : string)
  : M nat :=
  let! parser :=
    argparse.new prog (Some "Interact with a remote MAAS server.")
      (Some "http://maas.ubuntu.com/") in
  Command_register K env cmd_shell parser None ;;
  add_group env parser "acquire" "Acquire nodes or other resources." ;;
  add_group env parser "launch" "Launch nodes or other resources." ;;
  add_group env parser "release" "Release nodes or other resources." ;;
  add_group env parser "list"
    "List nodes, files, tags, and other resources." ;;
  ret parser.

(** The steps of [prepare_parser] that follow them. *)
Definition register_rest (K : Collaborators) (env : Env) (parser : nat)
  : M nat :=
  for_each submodules
    (fun submodule =>
       let! module := import_module K ("." +:+ submodule) in
       module_register K env module parser) ;;
  argparse.add_argument parser debug_flag ;;
  ret parser.

(** A node that only groups sub-commands: it has the help option and
    nothing else, no defaults, and so no command to execute. *)
Definition grouping_node (w : World) (id : nat) : Prop :=
  ∃ node,
    parsers w !! id = Some node
    ∧ actions node = [argparse.help_action]
    ∧ defaults node = ∅
    ∧ base_subparsers node = None
    ∧ priv_subparsers node = None.

(** The action that [--debug] becomes. *)
Definition debug_action : Action :=
  {| option_strings := ["--debug"]; dest := Some "debug";
     kind := StoreTrue; atype := None; choices := None; required := false;
     default := VBool false; help := HelpSuppress; metavar := None |}.

(** A computation that, when it returns, has added the events [evs] to
    the trace. *)
Definition logs {A} (evs : list Event) (c : M A) : Prop :=
  ∀ w r w', c w = (Ok r, w') → trace w' = trace w ++ evs.

(** An action taken during parsing is good when it is an action of the
    parser and one of those the arguments may select. *)
Definition good (node : Parser) (allowed : Action → Prop)
    (t : argparse.Taken) : Prop :=
  In (fst (fst t)) (actions node) ∧ allowed (fst (fst t)).

Definition waiting_ok (node : Parser) (allowed : Action → Prop)
    (waiting : option (list argparse.Taken * Action * string)) : Prop :=
  match waiting with
  | Some (queue, a, _) =>
      Forall (good node allowed) queue ∧ In a (actions node) ∧ allowed a
  | None => True
  end.

(** The action that [OriginCommandBase] leaves on a parser: the option
    as [add_argument] enters it, with the default that [set_defaults]
    gives it when there is a default profile. *)
Definition profile_action (env : Env) : Action :=
  {| option_strings := ["--profile-name"];
     dest := Some "profile_name";
     kind := Store;
     atype := None;
     choices := Some (map VStr (PROFILE_NAMES env));
     required :=
       match PROFILE_DEFAULT env with None => true | Some _ => false end;
     default :=
       match PROFILE_DEFAULT env with
       | None => VNone
       | Some d => VStr (name d)
       end;
     help := HelpText (profile_name_help env);
     metavar := Some "NAME" |}.

(** The action that [TableCommand] leaves on a parser. *)
Definition output_action (K : Collaborators) (env : Env) : Action :=
  {| option_strings := ["--output-format"];
     dest := Some "output_format";
     kind := Store;
     atype := Some {| type_name := "RenderTarget";
                      convert := RenderTarget_call K |};
     choices := Some (map VTarget (RenderTarget_members K));
     required := false;
     default :=
       VTarget (if stdout_isatty env then tabular.pretty else tabular.plain);
     help := HelpText output_format_help;
     metavar := None |}.

(** The action that [cmd_shell] leaves on a parser. *)
Definition shell_action (env : Env) : Action :=
  {| option_strings := ["--profile-name"];
     dest := Some "profile_name";
     kind := Store;
     atype := None;
     choices := Some (map VStr (PROFILE_NAMES env));
     required := false;
     default :=
       match PROFILE_DEFAULT env with
       | None => VNone
       | Some d => VStr (name d)
       end;
     help := HelpText (profile_name_help env);
     metavar := Some "NAME" |}.

(** The actions of the parser of a command, by the base of its class. *)
Definition command_actions (K : Collaborators) (env : Env) (b : Base)
  : list Action :=
  argparse.help_action ::
  match b with
  | Command => []
  | TableCommand => [output_action K env]
  | OriginCommand => [profile_action env]
  | OriginTableCommand => [output_action K env; profile_action env]
  | Shell => [shell_action env]
  end.

(** The parser-level defaults that the constructor of a command sets. *)
Definition command_defaults (env : Env) (b : Base) : gmap string Value :=
  match b with
  | Command | TableCommand => ∅
  | OriginCommand | OriginTableCommand =>
      match PROFILE_DEFAULT env with
      | None => ∅
      | Some d => {["profile_name" := VStr (name d)]}
      end
  | Shell =>
      match PROFILE_DEFAULT env with
      | None => {["profile_name" := VNone]}
      | Some d => {["profile_name" := VStr (name d)]}
      end
  end.

(** The parser of a registered command: a parser without sub-commands
    that holds the actions of its class and, among its defaults, the
    instance to execute. *)
Definition command_parser (K : Collaborators) (env : Env)
    (cls : CommandClass) (self : nat) (node : Parser) : Prop :=
  actions node = command_actions K env (cls_base cls)
  ∧ defaults node
    = <["execute" := VCommand {| inst_cls := cls; inst_parser := self |}]>
        (command_defaults env (cls_base cls))
  ∧ base_subparsers node = None
  ∧ priv_subparsers node = None.

(** Ascending order of a list of strings, by character codes: every
    element is at most each of those that follow it. *)
Fixpoint ascending (l : list string) : Prop :=
  match l with
  | [] => True
  | x :: l' => Forall (fun y => String.leb x y = true) l' ∧ ascending l'
  end.

(** The name under which [register] enters a command. *)
Definition registered_name (cls : CommandClass) (name : option string)
  : string :=
  match name with None => Command_name cls | Some n => n end.

(** Only the parser [p] may differ between two stores. *)
Definition only_parser (p : nat) (w w' : World) : Prop :=
  registries w' = registries w
  ∧ next_id w' = next_id w
  ∧ trace w' = trace w
  ∧ ∀ q, q ≠ p → parsers w' !! q = parsers w !! q.

(** A computation that works on the parser [p] and on nothing else,
    however it ends. *)
Definition touches {A} (p : nat) (c : M A) : Prop :=
  ∀ w r w', c w = (r, w') → only_parser p w w'.

(** The registry of sub-commands as [add_subparsers] makes it for a
    parser, with the metavar that the [subparsers] property sets. *)
Definition empty_registry (node : Parser) : Registry :=
  {| reg_metavar := Some "COMMAND"; reg_prog_prefix := prog node;
     reg_choices := []; reg_help := [] |}.

(** The option strings that the help of a command lists after those of
    the help option, by the base of its class. *)
Definition listed_options (b : Base) : list string :=
  match b with
  | Command => []
  | TableCommand => ["--output-format"]
  | OriginCommand | Shell => ["--profile-name"]
  | OriginTableCommand => ["--output-format"; "--profile-name"]
  end.

(** The events that write to a stream. *)
Definition is_write (ev : Event) : bool :=
  match ev with
  | EvWrite _ _ => true
  | _ => false
  end.

(** What a computation adds to the trace: events that satisfy [ok] when
    it returns, events that satisfy [err] when it raises. *)
Definition emits {A} (ok err : Event → Prop) (c : M A) : Prop :=
  ∀ w, ∃ evs,
    trace (snd (c w)) = trace w ++ evs
    ∧ match fst (c w) with
      | Ok _ => Forall ok evs
      | Raise _ => Forall err evs
      end.

Definition nothing (ev : Event) : Prop := False.
Definition anything (ev : Event) : Prop := True.

(** The events that run a command. *)
Definition is_command (ev : Event) : bool :=
  match ev with
  | EvExecute _ _ _ _ | EvCall _ _ => true
  | _ => false
  end.

Definition no_command (ev : Event) : Prop := is_command ev = false.

Definition commands_run (evs : list Event) : nat :=
  length (List.filter is_command evs).

(** What one call of a command adds to the trace: the command runs at
    most once, and it has run when the call returns. *)
Definition runs_once {A} (c : M A) : Prop :=
  ∀ w, ∃ evs,
    trace (snd (c w)) = trace w ++ evs
    ∧ (commands_run evs ≤ 1)%nat
    ∧ (∀ a, fst (c w) = Ok a → commands_run evs = 1%nat).

(** The imports of the five modules, in the order of the loop. *)
Definition imports : list Event :=
  map (fun m => EvImport ("." +:+ m)) submodules.

(** What registrations keep of the objects that exist already: a parser
    keeps its options and its defaults, and a parser that has its
    registry is not changed at all; a registry keeps its entries, in
    their order and before any new one. *)
Definition extends (w w' : World) : Prop :=
  (next_id w ≤ next_id w')%nat
  ∧ (∀ q node,
       (q < next_id w)%nat → parsers w !! q = Some node →
       ∃ node',
         parsers w' !! q = Some node'
         ∧ actions node' = actions node
         ∧ defaults node' = defaults node
         ∧ (is_Some (priv_subparsers node) → node' = node))
  ∧ (∀ r reg,
       (r < next_id w)%nat → registries w !! r = Some reg →
       ∃ reg',
         registries w' !! r = Some reg'
         ∧ map fst (reg_choices reg) `prefix_of` map fst (reg_choices reg')
         ∧ reg_metavar reg' = reg_metavar reg).

(** The names that [prepare_parser] itself enters at the top level, in
    the order of its statements. *)
Definition toplevel_names : list string :=
  ["shell"; "acquire"; "launch"; "release"; "list"].

(** The root parser once its registry exists. *)
Definition root_node (prog : string) (r : nat) : Parser :=
  {| prog := prog;
     description := Some "Interact with a remote MAAS server.";
     epilog := Some "http://maas.ubuntu.com/";
     actions := [argparse.help_action]; defaults := ∅;
     base_subparsers := Some ("sub-commands", r);
     priv_subparsers := Some r |}.

(** The root parser as [prepare_parser] returns it. *)
Definition prepared_root (prog : string) : Parser :=
  argparse.with_actions (root_node prog 1)
    [argparse.help_action; debug_action].

(** * Properties *)

(** ** Strings *)

Lemma lower_char_not_upper (c : ascii) :
  PyStr.is_upper (PyStr.lower_char c) = false.
Proof. destruct c as [[] [] [] [] [] [] [] []]; reflexivity. Qed.

Lemma lower_char_underscore (c : ascii) :
  Ascii.eqb c "_" = false → Ascii.eqb (PyStr.lower_char c) "_" = false.
Proof. destruct c as [[] [] [] [] [] [] [] []]; intros H; (reflexivity || discriminate H). Qed.

Lemma lower_length (s : string) : String.length (PyStr.lower s) = String.length s.
Proof. induction s as [|c s IH]; simpl; [reflexivity | now rewrite IH]. Qed.

Lemma replace_length (a b : ascii) (s : string) :
  String.length (PyStr.replace a b s) = String.length s.
Proof. induction s as [|c s IH]; simpl; [reflexivity | now rewrite IH]. Qed.

Lemma derived_no_underscore (s : string) :
  PyStr.contains "_" (PyStr.lower (PyStr.replace "_" "-" s)) = false.
Proof.
  induction s as [|c s IH];
    cbn [PyStr.contains PyStr.lower PyStr.replace]; [reflexivity |].
  rewrite IH, orb_false_r.
  destruct (Ascii.eqb c "_") eqn:E.
  - reflexivity.
  - rewrite Ascii.eqb_sym. now apply lower_char_underscore.
Qed.

Lemma lower_no_upper (c : ascii) (s : string) :
  PyStr.is_upper c = true → PyStr.contains c (PyStr.lower s) = false.
Proof.
  intros Hc. induction s as [|d s IH];
    cbn [PyStr.contains PyStr.lower]; [reflexivity |].
  rewrite IH, orb_false_r.
  destruct (Ascii.eqb c (PyStr.lower_char d)) eqn:E; [| reflexivity].
  apply Ascii.eqb_eq in E. subst c.
  rewrite lower_char_not_upper in Hc. discriminate.
Qed.

Lemma app_cons (c : ascii) (a b : string) :
  String c a +:+ b = String c (a +:+ b).
Proof. reflexivity. Qed.

Lemma app_empty (b : string) : "" +:+ b = b.
Proof. reflexivity. Qed.

Lemma startswith_app (p s : string) : PyStr.startswith p (p +:+ s) = true.
Proof.
  unfold PyStr.startswith.
  induction p as [|c p IH].
  - rewrite app_empty. now destruct s.
  - rewrite app_cons. cbn [String.prefix].
    destruct (ascii_dec c c); [exact IH | congruence].
Qed.

Lemma slice_from_app (p s : string) :
  PyStr.slice_from (String.length p) (p +:+ s) = s.
Proof.
  induction p as [|c p IH].
  - rewrite app_empty. now destruct s.
  - rewrite app_cons. exact IH.
Qed.

Lemma contains_app (c : ascii) (a b : string) :
  PyStr.contains c (a +:+ b) = PyStr.contains c a || PyStr.contains c b.
Proof.
  induction a as [|d a IH].
  - reflexivity.
  - rewrite app_cons. cbn [PyStr.contains]. now rewrite IH, orb_assoc.
Qed.

(** ** C3: the name of a command *)

(** C3, as stated: a class named [CmdFooBar] would be known as [foo-bar].
    It is known as [cmdfoobar]: capital letters are lowered, they do not
    start a word. *)
Lemma Command_name_CmdFooBar :
  Command_name (named "CmdFooBar") = "cmdfoobar"
  ∧ Command_name (named "CmdFooBar") ≠ "foo-bar".
Proof. split; [reflexivity | discriminate]. Qed.

(** C3, amended: the name is a function of the class identifier alone.
    The identifier with its underscores replaced by hyphens and its
    letters lowered keeps its length and holds neither an underscore nor a
    capital letter; a leading [cmd-] of that form is stripped once, and a
    form without it is the name.  [cmd_list_nodes] is known as
    [list-nodes], [cmd_foo_bar] as [foo-bar], [cmd_cmd_x] as [cmd-x] and
    [CmdFooBar] as [cmdfoobar]. *)
Theorem Command_name_derivation (cls : CommandClass) :
  let derived := PyStr.lower (PyStr.replace "_" "-" (cls_name cls)) in
  String.length derived = String.length (cls_name cls)
  ∧ PyStr.contains "_" derived = false
  ∧ (∀ c, PyStr.is_upper c = true → PyStr.contains c derived = false)
  ∧ (∀ rest, derived = "cmd-" +:+ rest → Command_name cls = rest)
  ∧ (PyStr.startswith "cmd-" derived = false → Command_name cls = derived)
  ∧ Command_name (named "cmd_list_nodes") = "list-nodes"
  ∧ Command_name (named "cmd_foo_bar") = "foo-bar"
  ∧ Command_name (named "cmd_cmd_x") = "cmd-x"
  ∧ Command_name (named "CmdFooBar") = "cmdfoobar".
Proof.
  intros derived. repeat split; try reflexivity.
  - unfold derived. now rewrite lower_length, replace_length.
  - apply derived_no_underscore.
  - intros c Hc. now apply lower_no_upper.
  - intros rest Hd. unfold Command_name. fold derived. rewrite Hd.
    rewrite startswith_app.
    exact (slice_from_app "cmd-" rest).
  - intros Hd. unfold Command_name. fold derived. now rewrite Hd.
Qed.

Lemma Command_name_derivation_witness :
  (PyStr.lower (PyStr.replace "_" "-" (cls_name cmd_list_nodes))
   = "cmd-" +:+ "list-nodes"
   ∧ Command_name cmd_list_nodes = "list-nodes")
  ∧ (PyStr.startswith "cmd-"
       (PyStr.lower (PyStr.replace "_" "-" (cls_name (named "Shell"))))
     = false
     ∧ Command_name (named "Shell") = "shell").
Proof.
  destruct (Command_name_derivation cmd_list_nodes) as (_ & _ & _ & H & _).
  destruct (Command_name_derivation (named "Shell"))
    as (_ & _ & _ & _ & H' & _).
  split; (split; [reflexivity |]).
  - apply H. reflexivity.
  - apply H'. reflexivity.
Defined.

(** ** Computations *)

Lemma bind_Ok {A B} (c : M A) (k : A → M B) (w w' : World) (a : A) :
  c w = (Ok a, w') → bind c k w = k a w'.
Proof. intros H. unfold bind. now rewrite H. Qed.

Lemma bind_Raise {A B} (c : M A) (k : A → M B) (w w' : World) (e : Exn) :
  c w = (Raise e, w') → bind c k w = (Raise e, w').
Proof. intros H. unfold bind. now rewrite H. Qed.

Lemma bind_ret_l {A B} (a : A) (k : A → M B) (w : World) :
  bind (ret a) k w = k a w.
Proof. reflexivity. Qed.

Lemma bind_assoc {A B C} (c : M A) (f : A → M B) (g : B → M C)
    (w : World) :
  bind (bind c f) g w = bind c (fun a => bind (f a) g) w.
Proof. unfold bind. now destruct (c w) as [[a|e] w']. Qed.

Lemma log_nil (w : World) : log w [] = w.
Proof. destruct w. unfold log. cbn. now rewrite app_nil_r. Qed.

Lemma log_log (w : World) (l1 l2 : list Event) :
  log (log w l1) l2 = log w (l1 ++ l2).
Proof. unfold log. cbn. now rewrite app_assoc. Qed.

(** ** C10: colours follow standard output *)

Lemma scan_plain_no_ansi (s : string) :
  ∀ pending,
    PyStr.contains Colorclass.ESC s = false →
    match pending with
    | Some t => PyStr.contains Colorclass.ESC t = false
    | None => True
    end →
    PyStr.contains Colorclass.ESC (Colorclass.scan false pending s) = false.
Proof.
  induction s as [|c s IH]; intros pending Hs Hp.
  - destruct pending as [t|]; cbn [Colorclass.scan]; [| reflexivity].
    now rewrite contains_app, Hp.
  - cbn [PyStr.contains] in Hs. apply orb_false_iff in Hs as [Hc Hs].
    destruct pending as [t|]; cbn [Colorclass.scan].
    + destruct (Ascii.eqb c "}").
      * destruct (Colorclass.code_of t).
        -- rewrite app_empty. now apply IH.
        -- rewrite !contains_app, Hp, (IH None Hs I). reflexivity.
      * destruct (Ascii.eqb c "{").
        -- rewrite !contains_app, Hp, (IH (Some "") Hs eq_refl). reflexivity.
        -- apply IH; [exact Hs |].
           rewrite contains_app, Hp. cbn [PyStr.contains].
           now rewrite Hc.
    + destruct (Ascii.eqb c "{").
      * now apply IH.
      * cbn [PyStr.contains]. now rewrite Hc, (IH None Hs I).
Qed.

Lemma value_no_colors_plain (text : string) :
  Colorclass.has_ansi text = false →
  Colorclass.has_ansi (Colorclass.value_no_colors text) = false.
Proof. intros H. now apply scan_plain_no_ansi. Qed.

Lemma error_text_nonempty (env : Env) (message : string) :
  String.eqb (error_text env message) "" = false.
Proof.
  unfold error_text, colorized. now destruct (stdout_isatty env).
Qed.

Lemma ArgumentParser_error_eq (env : Env) (self : nat) (message : string)
    (w : World) :
  ArgumentParser_error env self message w
  = (Raise (SystemExit 2), log w [EvWrite Stderr (error_text env message)]).
Proof.
  unfold ArgumentParser_error, argparse.exit.
  fold error_prefix. fold (error_text env message).
  now rewrite error_text_nonempty.
Qed.

Lemma error_text_ansi (env : Env) (message : string) :
  Colorclass.has_ansi message = false →
  Colorclass.has_ansi (error_text env message) = stdout_isatty env.
Proof.
  intros H. unfold error_text, Colorclass.has_ansi, colorized.
  rewrite !contains_app. fold (Colorclass.has_ansi message). rewrite H.
  now destruct (stdout_isatty env).
Qed.

(** C10: for a text without escape characters of its own, [colorized]
    returns the coloured value when standard output is a terminal and a
    value without any colour code otherwise, so that its result carries
    colour codes only if standard output is a terminal.  The text that the
    parser's [error] writes to standard error carries colour codes exactly
    when standard output is a terminal, and is the same in two
    environments that agree on standard output, whatever standard error
    is. *)
Theorem colorized_follows_stdout (env : Env) (text : string) :
  Colorclass.has_ansi text = false →
  (stdout_isatty env = true →
   colorized env text = Colorclass.value_colors text)
  ∧ (stdout_isatty env = false →
     colorized env text = Colorclass.value_no_colors text
     ∧ Colorclass.has_ansi (colorized env text) = false)
  ∧ (Colorclass.has_ansi (colorized env text) = true →
     stdout_isatty env = true)
  ∧ Colorclass.has_ansi (colorized env error_prefix) = stdout_isatty env
  ∧ (∀ self w,
       ArgumentParser_error env self text w
       = (Raise (SystemExit 2),
          log w [EvWrite Stderr (error_text env text)])
       ∧ Colorclass.has_ansi (error_text env text) = stdout_isatty env)
  ∧ (∀ env' self w,
       stdout_isatty env' = stdout_isatty env →
       ArgumentParser_error env' self text w
       = ArgumentParser_error env self text w).
Proof.
  intros Htext. repeat split.
  - intros H. unfold colorized. now rewrite H.
  - unfold colorized. now rewrite H.
  - unfold colorized. rewrite H. now apply value_no_colors_plain.
  - unfold colorized. destruct (stdout_isatty env); [reflexivity |].
    intros H. now rewrite value_no_colors_plain in H.
  - unfold colorized. now destruct (stdout_isatty env).
  - apply ArgumentParser_error_eq.
  - now apply error_text_ansi.
  - intros env' self w H. rewrite !ArgumentParser_error_eq.
    unfold error_text, colorized. now rewrite H.
Qed.

Lemma colorized_follows_stdout_witness :
  Colorclass.has_ansi "No arguments given." = false
  ∧ Colorclass.has_ansi
      (colorized (sample_env true None) "No arguments given.") = false
  ∧ Colorclass.has_ansi
      (error_text (sample_env true None) "No arguments given.") = true
  ∧ Colorclass.has_ansi
      (error_text (sample_env false None) "No arguments given.") = false.
Proof.
  pose proof (colorized_follows_stdout (sample_env true None)
                "No arguments given." eq_refl) as (_ & _ & _ & _ & H1 & _).
  pose proof (colorized_follows_stdout (sample_env false None)
                "No arguments given." eq_refl) as (_ & H2 & _ & _ & H3 & _).
  split; [reflexivity |]. split; [reflexivity |]. split.
  - exact (proj2 (H1 0 empty_world)).
  - exact (proj2 (H3 0 empty_world)).
Defined.

(** ** C1: the error path of the parser *)

(** C1, on the code: [error] writes the prefix and the message to
    standard error and ends the process with status 2, and that is all it
    does: the help of the parser is not printed.  For the arguments
    [--bogus] the program imports its command groups, writes one line to
    standard error and exits with status 2; neither the usage nor the help
    is printed and the debugger is not entered. *)
Theorem error_prints_no_help :
  (∀ env self message w,
     ArgumentParser_error env self message w
     = (Raise (SystemExit 2),
        log w [EvWrite Stderr (error_text env message)]))
  ∧ run sample_K (sample_env false None) ["maas"; "--bogus"]
    = (Raise (SystemExit 2),
       [EvImport ".profiles"; EvImport ".files"; EvImport ".nodes";
        EvImport ".tags"; EvImport ".users";
        EvWrite Stderr
          ("Error: unrecognized arguments: --bogus" +:+ PyStr.nl)])
  ∧ existsb prints_help
      (snd (run sample_K (sample_env false None) ["maas"; "--bogus"]))
    = false
  ∧ existsb inspects
      (snd (run sample_K (sample_env false None) ["maas"; "--bogus"]))
    = false.
Proof.
  split; [exact ArgumentParser_error_eq |].
  split; [vm_compute; reflexivity |].
  split; vm_compute; reflexivity.
Qed.

(** ** C9: profile-bound commands *)

(** C9: when the options hold a profile name for which the session and
    the origin can be made, calling a profile-bound command makes one
    session from that name, one origin from that session and calls the
    [execute] of the class once, with the origin and the options; the
    result is that of [execute].  A profile-bound table command does the
    same and passes the output format of the options as the target. *)
Theorem origin_command_call (K : Collaborators) (self : Instance)
    (options : Namespace) (w : World) (profile : Value) (session : Session)
    (origin : Origin) :
  options !! "profile_name" = Some profile →
  fromProfileName K profile = Ok session →
  Origin_new K session = Ok origin →
  OriginCommand_call K self options w
  = (execute K (inst_cls self) origin options None,
     log w [EvFromProfileName profile; EvOrigin session;
            EvExecute (cls_name (inst_cls self)) origin options None])
  ∧ (cls_base (inst_cls self) = OriginCommand →
     call_instance K self options w = OriginCommand_call K self options w)
  ∧ (∀ target,
       options !! "output_format" = Some target →
       OriginTableCommand_call K self options w
       = (execute K (inst_cls self) origin options (Some target),
          log w [EvFromProfileName profile; EvOrigin session;
                 EvExecute (cls_name (inst_cls self)) origin options
                   (Some target)]))
  ∧ (cls_base (inst_cls self) = OriginTableCommand →
     call_instance K self options w
     = OriginTableCommand_call K self options w).
Proof.
  intros Hp Hs Ho. repeat split.
  - unfold OriginCommand_call, getattr, extern, bind, emit, ret.
    rewrite Hp, Hs, Ho. cbn. unfold log. cbn.
    now rewrite <- !app_assoc.
  - intros Hb. unfold call_instance. now rewrite Hb.
  - intros target Ht.
    unfold OriginTableCommand_call, getattr, extern, bind, emit, ret.
    rewrite Hp, Hs, Ho, Ht. cbn. unfold log. cbn.
    now rewrite <- !app_assoc.
  - intros Hb. unfold call_instance. now rewrite Hb.
Qed.

Lemma origin_command_call_witness :
  (sample_options !! "profile_name" = Some (VStr "prod")
   ∧ fromProfileName sample_K (VStr "prod") = Ok 7
   ∧ Origin_new sample_K 7 = Ok 107
   ∧ sample_options !! "output_format" = Some (VTarget tabular.plain))
  ∧ OriginTableCommand_call sample_K sample_instance sample_options
      empty_world
    = (Ok VNone,
       log empty_world
         [EvFromProfileName (VStr "prod"); EvOrigin 7;
          EvExecute "cmd_list_nodes" 107 sample_options
            (Some (VTarget tabular.plain))]).
Proof.
  split; [repeat split; reflexivity |].
  destruct (origin_command_call sample_K sample_instance sample_options
              empty_world (VStr "prod") 7 107 eq_refl eq_refl eq_refl)
    as (_ & _ & H & _).
  exact (H (VTarget tabular.plain) eq_refl).
Defined.

(** ** C6 and C7: the dispatch loop *)

Lemma main_parse_raises (K : Collaborators) (env : Env) (argv : list string)
    (parser : nat) (w1 w2 : World) (e : Exn) :
  prepare_parser K env argv empty_world = (Ok parser, w1) →
  completion_requested env = false →
  ArgumentParser_parse_args env parser (tail argv) w1 = (Raise e, w2) →
  main K env argv empty_world = handlers env parser None e w2.
Proof.
  intros H1 Hc H2. unfold main.
  rewrite (bind_Ok _ _ _ _ _ H1).
  unfold autocomplete. rewrite Hc.
  unfold bind at 1. unfold ret at 1.
  unfold bind at 1. unfold catch at 1. now rewrite H2.
Qed.

Lemma main_parse_returns (K : Collaborators) (env : Env)
    (argv : list string) (parser : nat) (w1 w2 : World)
    (options : Namespace) :
  prepare_parser K env argv empty_world = (Ok parser, w1) →
  completion_requested env = false →
  ArgumentParser_parse_args env parser (tail argv) w1 = (Ok options, w2) →
  main K env argv empty_world
  = match dispatch K env parser options w2 with
    | (Ok _, w3) => (Ok tt, w3)
    | (Raise e, w3) => handlers env parser (Some options) e w3
    end.
Proof.
  intros H1 Hc H2. unfold main.
  rewrite (bind_Ok _ _ _ _ _ H1).
  unfold autocomplete. rewrite Hc.
  unfold bind at 1. unfold ret at 1.
  unfold bind at 1. unfold catch at 1. rewrite H2.
  unfold bind at 1. unfold catch at 1.
  now destruct (dispatch K env parser options w2) as [[u|e] w3].
Qed.

(** C6: when the options that [parse_args] returns hold no [execute]
    entry, the program reports "No arguments given." through the error
    path of the parser: that one line, with the "Error:" prefix, is
    written to standard error and the process exits with status 2. *)
Theorem no_arguments_given (K : Collaborators) (env : Env)
    (argv : list string) (parser : nat) (w1 w2 : World)
    (options : Namespace) :
  prepare_parser K env argv empty_world = (Ok parser, w1) →
  completion_requested env = false →
  ArgumentParser_parse_args env parser (tail argv) w1 = (Ok options, w2) →
  options !! "execute" = None →
  main K env argv empty_world
  = (Raise (SystemExit 2),
     log w2 [EvWrite Stderr (error_text env "No arguments given.")])
  ∧ error_text env "No arguments given."
    = colorized env error_prefix +:+ "No arguments given." +:+ PyStr.nl
  ∧ exit_status (fst (main K env argv empty_world)) = 2.
Proof.
  intros H1 Hc H2 Hx.
  assert (Hm : main K env argv empty_world
               = (Raise (SystemExit 2),
                  log w2
                    [EvWrite Stderr (error_text env "No arguments given.")])).
  { rewrite (main_parse_returns K env argv parser w1 w2 options H1 Hc H2).
    unfold dispatch. rewrite Hx.
    unfold bind. rewrite ArgumentParser_error_eq.
    reflexivity. }
  split; [exact Hm |]. split; [reflexivity |]. now rewrite Hm.
Qed.

Lemma no_arguments_given_witness :
  ∃ parser w1 options w2,
    prepare_parser sample_K (sample_env false None) ["maas"; "list"]
      empty_world = (Ok parser, w1)
    ∧ completion_requested (sample_env false None) = false
    ∧ ArgumentParser_parse_args (sample_env false None) parser ["list"] w1
      = (Ok options, w2)
    ∧ options !! "execute" = None
    ∧ main sample_K (sample_env false None) ["maas"; "list"] empty_world
      = (Raise (SystemExit 2),
         log w2 [EvWrite Stderr ("Error: No arguments given." +:+ PyStr.nl)]).
Proof.
  eassert (H1 : prepare_parser sample_K (sample_env false None)
                  ["maas"; "list"] empty_world = (Ok _, _))
    by (vm_compute; reflexivity).
  match type of H1 with
  | _ = (Ok ?p, ?w) =>
      eassert (H2 : ArgumentParser_parse_args (sample_env false None) p
                      ["list"] w = (Ok _, _))
        by (vm_compute; reflexivity)
  end.
  eexists _, _, _, _.
  split; [exact H1 |]. split; [reflexivity |]. split; [exact H2 |].
  match goal with
  | |- ?A ∧ _ => assert (H3 : A) by (vm_compute; reflexivity)
  end.
  split; [exact H3 |].
  exact (proj1 (no_arguments_given sample_K (sample_env false None)
                  ["maas"; "list"] _ _ _ _ H1 eq_refl H2 H3)).
Defined.

(** C7, as stated, fails: the exit that a parse error raises reaches the
    handlers while the options are still unparsed, and it is neither
    inspected nor changed. *)
Lemma recovery_as_stated_fails : ¬ recovery_as_stated.
Proof.
  intros H.
  specialize (H (sample_env false None) 0 None (SystemExit 2) empty_world).
  cbn in H.
  assert (Hne : SystemExit 2 ≠ KeyboardInterrupt) by discriminate.
  specialize (H Hne (or_introl eq_refl)).
  discriminate H.
Qed.

Lemma handlers_Exception (env : Env) (parser : nat)
    (options : option Namespace) (cls msg : string) (w : World) :
  handlers env parser options (Exception cls msg) w
  = match options with
    | None =>
        (Raise (Exception cls msg),
         log w [EvPostMortem (debugger_of env) (Exception cls msg)])
    | Some o =>
        match o !! "debug" with
        | None =>
            (Raise (Exception "AttributeError"
                      ("'Namespace' object has no attribute "
                       +:+ PyStr.repr "debug")), w)
        | Some d =>
            if truthy d then
              (Raise (Exception cls msg),
               log w [EvPostMortem (debugger_of env) (Exception cls msg)])
            else
              (Raise (SystemExit 2),
               log w [EvWrite Stderr (error_text env msg)])
        end
    end.
Proof.
  unfold handlers, getattr, post_mortem.
  destruct options as [o|].
  - destruct (o !! "debug") as [d|] eqn:Hd; [| reflexivity].
    unfold bind at 1. unfold bind at 1. unfold ret at 1. unfold ret at 1.
    destruct (truthy d).
    + reflexivity.
    + unfold bind. now rewrite ArgumentParser_error_eq.
  - reflexivity.
Qed.

(** C7, amended: an exception that escapes [parse_args] reaches the
    handlers with the options unparsed, and one that escapes the dispatch
    reaches them with the parsed options.  There the user's interrupt
    ends the process with status 1 and nothing else happens.  An instance
    of [Exception] is handed to the post-mortem debugger and raised again
    when the options are unparsed or their debug flag is set; otherwise
    its string form is written through the error path of the parser and
    the process exits with status 2.  Any other exception, such as the
    [SystemExit] of the parser's own error path, passes through as it
    is: nothing is inspected or written. *)
Theorem main_recovery (K : Collaborators) (env : Env) (argv : list string)
    (parser : nat) (w1 : World) :
  prepare_parser K env argv empty_world = (Ok parser, w1) →
  completion_requested env = false →
  (∀ e w2,
     ArgumentParser_parse_args env parser (tail argv) w1 = (Raise e, w2) →
     main K env argv empty_world = handlers env parser None e w2)
  ∧ (∀ options w2 e w3,
       ArgumentParser_parse_args env parser (tail argv) w1
       = (Ok options, w2) →
       dispatch K env parser options w2 = (Raise e, w3) →
       main K env argv empty_world
       = handlers env parser (Some options) e w3)
  ∧ (∀ options w,
       handlers env parser options KeyboardInterrupt w
       = (Raise (SystemExit 1), w))
  ∧ (∀ e w,
       is_Exception e = true →
       handlers env parser None e w
       = (Raise e, log w [EvPostMortem (debugger_of env) e]))
  ∧ (∀ e o d w,
       is_Exception e = true →
       o !! "debug" = Some d →
       handlers env parser (Some o) e w
       = if truthy d
         then (Raise e, log w [EvPostMortem (debugger_of env) e])
         else (Raise (SystemExit 2),
               log w [EvWrite Stderr (error_text env (str_of e))]))
  ∧ (∀ e options w,
       is_Exception e = false →
       e ≠ KeyboardInterrupt →
       handlers env parser options e w = (Raise e, w)).
Proof.
  intros H1 Hc. repeat split.
  - intros e w2 H2. now apply (main_parse_raises K env argv parser w1 w2).
  - intros options w2 e w3 H2 H3.
    rewrite (main_parse_returns K env argv parser w1 w2 options H1 Hc H2).
    now rewrite H3.
  - intros e w He. destruct e; try discriminate He.
    now rewrite handlers_Exception.
  - intros e o d w He Hd. destruct e; try discriminate He.
    rewrite handlers_Exception, Hd. reflexivity.
  - intros e options w He Hk. destruct e; try reflexivity.
    + now contradict Hk.
    + discriminate He.
Qed.

Lemma main_recovery_witness :
  ∃ parser w1 options w2 w3,
    prepare_parser sample_K (sample_env false (Some dev_profile))
      ["maas"; "acquire"; "node"] empty_world = (Ok parser, w1)
    ∧ completion_requested (sample_env false (Some dev_profile)) = false
    ∧ ArgumentParser_parse_args (sample_env false (Some dev_profile)) parser
        ["acquire"; "node"] w1 = (Ok options, w2)
    ∧ dispatch sample_K (sample_env false (Some dev_profile)) parser options
        w2 = (Raise (Exception "CommandError" "disk full"), w3)
    ∧ options !! "debug" = Some (VBool false)
    ∧ main sample_K (sample_env false (Some dev_profile))
        ["maas"; "acquire"; "node"] empty_world
      = (Raise (SystemExit 2),
         log w3 [EvWrite Stderr ("Error: disk full" +:+ PyStr.nl)]).
Proof.
  eassert (H1 : prepare_parser sample_K (sample_env false (Some dev_profile))
                  ["maas"; "acquire"; "node"] empty_world = (Ok _, _))
    by (vm_compute; reflexivity).
  match type of H1 with
  | _ = (Ok ?p, ?w) =>
      eassert (H2 : ArgumentParser_parse_args
                      (sample_env false (Some dev_profile)) p
                      ["acquire"; "node"] w = (Ok _, _))
        by (vm_compute; reflexivity)
  end.
  match type of H2 with
  | _ = (Ok ?o, ?w) =>
      eassert (H3 : dispatch sample_K (sample_env false (Some dev_profile))
                      _ o w = (Raise _, _))
        by (vm_compute; reflexivity)
  end.
  eexists _, _, _, _, _.
  split; [exact H1 |]. split; [reflexivity |]. split; [exact H2 |].
  split; [exact H3 |].
  match goal with
  | |- ?A ∧ _ => assert (H4 : A) by (vm_compute; reflexivity)
  end.
  split; [exact H4 |].
  destruct (main_recovery sample_K (sample_env false (Some dev_profile))
              ["maas"; "acquire"; "node"] _ _ H1 eq_refl)
    as (_ & Hm & _ & _ & Hh & _).
  rewrite (Hm _ _ _ _ H2 H3).
  exact (Hh (Exception "CommandError" "disk full") _ _ _ eq_refl H4).
Defined.

(** ** C2: the sub-command registry *)

Lemma access_times_fixed (env : Env) (self r : nat) (w : World) :
  ArgumentParser_subparsers env self w = (Ok r, w) →
  ∀ n, access_times env self n w = (repeat (Ok r) n, w).
Proof.
  intros H n. induction n as [|n IH]; [reflexivity |].
  cbn [access_times repeat]. now rewrite H, IH.
Qed.

(** C2: on a parser whose private registry slot is empty only if
    argparse's own slot is empty too, as it is on every parser the class
    constructs, reading the [subparsers] property returns a registry and
    does not raise; every further read returns the same registry and
    leaves the store as the first read left it.  A first read on a parser
    without registry creates one registry, a new object titled
    "sub-commands" whose metavar is "COMMAND"; a read on a parser that has
    its registry changes nothing.  [add_subparsers] raises
    [NotImplementedError] and changes nothing. *)
Theorem subparsers_idempotent (env : Env) (w : World) (self : nat)
    (node : Parser) :
  parsers w !! self = Some node →
  (priv_subparsers node = None → base_subparsers node = None) →
  ∃ r w1,
    ArgumentParser_subparsers env self w = (Ok r, w1)
    ∧ (∀ n, access_times env self n w1 = (repeat (Ok r) n, w1))
    ∧ (∀ n, access_times env self (S n) w = (repeat (Ok r) (S n), w1))
    ∧ (priv_subparsers node = None →
       r = next_id w
       ∧ registries w1 !! r
         = Some {| reg_metavar := Some "COMMAND";
                   reg_prog_prefix := prog node;
                   reg_choices := []; reg_help := [] |}
       ∧ parsers w1 !! self
         = Some (with_priv_subparsers
                   (argparse.with_base_subparsers node
                      (Some ("sub-commands", r)))
                   (Some r)))
    ∧ (∀ r0, priv_subparsers node = Some r0 → r = r0 ∧ w1 = w)
    ∧ (∀ w',
         ArgumentParser_add_subparsers self w'
         = (Raise (Exception "NotImplementedError"
                     "add_subparsers has been disabled"), w')).
Proof.
  intros Hnode Hwf.
  destruct (priv_subparsers node) as [r0|] eqn:Hpriv.
  - assert (H : ArgumentParser_subparsers env self w = (Ok r0, w)).
    { unfold ArgumentParser_subparsers, bind, get_parser.
      now rewrite Hnode, Hpriv. }
    exists r0, w. split; [exact H |].
    split; [now apply access_times_fixed |].
    split; [intros n; now apply access_times_fixed |].
    split; [discriminate |].
    split; [| reflexivity].
    intros r1 Hr1. now inversion Hr1.
  - specialize (Hwf eq_refl).
    eassert (H : ArgumentParser_subparsers env self w = (Ok (next_id w), _)).
    { unfold ArgumentParser_subparsers, argparse.add_subparsers, bind,
        get_parser, get_registry, put_parser, put_registry, fresh, ret.
      repeat (cbn; first [rewrite Hnode | rewrite Hpriv | rewrite Hwf
                         | rewrite lookup_insert_eq]).
      reflexivity. }
    eexists (next_id w), _.
    split; [exact H |].
    match type of H with
    | _ = (_, ?w1) =>
        assert (H' : ArgumentParser_subparsers env self w1
                     = (Ok (next_id w), w1))
    end.
    { unfold ArgumentParser_subparsers, bind, get_parser. cbn.
      rewrite lookup_insert_eq. reflexivity. }
    split; [now apply access_times_fixed |].
    split.
    { intros n. cbn [access_times]. rewrite H.
      now rewrite (access_times_fixed _ _ _ _ H'). }
    split.
    { intros _. split; [reflexivity |]. cbn.
      rewrite !lookup_insert_eq. split; reflexivity. }
    split; [discriminate |]. reflexivity.
Qed.

Lemma subparsers_idempotent_witness :
  parsers fresh_root_world !! 0 = Some fresh_root
  ∧ (priv_subparsers fresh_root = None → base_subparsers fresh_root = None)
  ∧ fst (access_times (sample_env false None) 0 3 fresh_root_world)
    = [Ok 1; Ok 1; Ok 1].
Proof.
  split; [reflexivity |]. split; [reflexivity |].
  destruct (subparsers_idempotent (sample_env false None) fresh_root_world
              0 fresh_root eq_refl (fun _ => eq_refl))
    as (r & w1 & _ & _ & H & Hnew & _).
  rewrite (H 2). destruct (Hnew eq_refl) as [-> _]. reflexivity.
Defined.

(** ** Reasoning about computations *)

Lemma wp_ret {A} (a : A) (Q : A → Prop) (R : Exn → Prop) :
  Q a → wp (ret a) Q R.
Proof. intros H w. exact H. Qed.

Lemma wp_raise {A} (e : Exn) (Q : A → Prop) (R : Exn → Prop) :
  R e → wp (raise e) Q R.
Proof. intros H w. exact H. Qed.

Lemma wp_bind {A B} (c : M A) (k : A → M B) (Q : B → Prop)
    (R : Exn → Prop) :
  wp c (fun a => wp (k a) Q R) R → wp (bind c k) Q R.
Proof.
  intros H w. unfold bind. specialize (H w).
  destruct (c w) as [[a|e] w']; [apply H | exact H].
Qed.

Lemma wp_mono {A} (c : M A) (Q Q' : A → Prop) (R : Exn → Prop) :
  (∀ a, Q a → Q' a) → wp c Q R → wp c Q' R.
Proof.
  intros HQ H w. specialize (H w).
  destruct (c w) as [[a|e] w']; [now apply HQ | exact H].
Qed.

Lemma wp_emit (ev : Event) (Q : unit → Prop) (R : Exn → Prop) :
  Q tt → wp (emit ev) Q R.
Proof. intros H w. exact H. Qed.

Lemma wp_exit {A} (status : nat) (message : string) (Q : A → Prop)
    (R : Exn → Prop) :
  R (SystemExit status) → wp (argparse.exit status message) Q R.
Proof.
  intros H. unfold argparse.exit. apply wp_bind.
  destruct (String.eqb message "").
  - apply wp_ret. now apply wp_raise.
  - apply wp_emit. now apply wp_raise.
Qed.

Lemma wp_ArgumentParser_error (env : Env) (self : nat) (message : string)
    (Q : Empty_set → Prop) (R : Exn → Prop) :
  R (SystemExit 2) → wp (ArgumentParser_error env self message) Q R.
Proof. intros H. now apply wp_exit. Qed.

(** ** The parsing loop on a parser without sub-commands *)

Lemma find_option_In (node : Parser) (o : string) (a : Action) :
  argparse.find_option node o = Some a →
  In a (actions node) ∧ argparse.has_option o a = true.
Proof. unfold argparse.find_option. apply find_some. Qed.

Lemma long_tuples_In (node : Parser) (pre : string) (a : Action)
    (o : string) :
  In (a, o) (argparse.long_tuples node pre) → In a (actions node).
Proof.
  unfold argparse.long_tuples. rewrite in_flat_map.
  intros (a' & Ha' & Hin). apply in_map_iff in Hin as (o' & Heq & _).
  now inversion Heq; subst.
Qed.

Lemma short_tuples_In (node : Parser) (arg : string) (a : Action)
    (o : string) (e : option string) :
  In (a, o, e) (argparse.short_tuples node arg) → In a (actions node).
Proof.
  unfold argparse.short_tuples. rewrite in_flat_map.
  intros (a' & Ha' & Hin). apply in_flat_map in Hin as (o' & _ & Hin).
  destruct (String.eqb o' _); [| destruct (PyStr.startswith arg o')].
  - destruct Hin as [Heq | []]. now inversion Heq; subst.
  - destruct Hin as [Heq | []]. now inversion Heq; subst.
  - destruct Hin.
Qed.

Lemma option_tuples_In (node : Parser) (arg : string) (a : Action)
    (o : string) (e : option string) :
  In (a, o, e) (argparse.option_tuples node arg) → In a (actions node).
Proof.
  unfold argparse.option_tuples.
  destruct (PyStr.startswith "--" arg).
  - destruct (PyStr.split_first "=" arg) as [[pre v]|]; intros Hin;
      apply in_map_iff in Hin as ([a' o'] & Heq & Hin);
      inversion Heq; subst; now apply long_tuples_In in Hin.
  - apply short_tuples_In.
Qed.

Lemma parse_optional_In (node : Parser) (tok : string) (a : Action)
    (o : string) (e : option string) :
  argparse.parse_optional node tok = argparse.TOption a o e →
  In a (actions node).
Proof.
  unfold argparse.parse_optional.
  destruct tok as [|c rest]; [discriminate |].
  destruct (negb (Ascii.eqb c "-")); [discriminate |].
  destruct (argparse.find_option node (String c rest)) as [a0|] eqn:Hf.
  { intros H. inversion H; subst. now apply find_option_In in Hf. }
  destruct (String.eqb rest ""); [discriminate |].
  destruct (PyStr.split_first "=" (String c rest)) as [[o' v]|].
  - destruct (argparse.find_option node o') as [a0|] eqn:Hf'.
    { intros H. inversion H; subst. now apply find_option_In in Hf'. }
    destruct (argparse.option_tuples node (String c rest))
      as [|[[a1 o1] e1] [|t l]] eqn:Ht.
    + destruct (argparse.is_negative_number _); [discriminate |].
      destruct (PyStr.contains _ _); discriminate.
    + intros H. inversion H; subst.
      apply (option_tuples_In node (String c rest) a o e).
      rewrite Ht. now left.
    + discriminate.
  - destruct (argparse.option_tuples node (String c rest))
      as [|[[a1 o1] e1] [|t l]] eqn:Ht.
    + destruct (argparse.is_negative_number _); [discriminate |].
      destruct (PyStr.contains _ _); discriminate.
    + intros H. inversion H; subst.
      apply (option_tuples_In node (String c rest) a o e).
      rewrite Ht. now left.
    + discriminate.
Qed.

Section Loop.

Variable self_error : nat → string → M Empty_set.
Variable R : Exn → Prop.
Variable self : nat.
Variable node : Parser.
Variable allowed : Action → Prop.
Variable Inv : argparse.PState → Prop.
Variable Post : Namespace * list string → Prop.

Hypothesis error_R :
  ∀ s message, wp (self_error s message) (fun _ => True) R.
Hypothesis leaf : base_subparsers node = None.
Hypothesis take_ok :
  ∀ st a vals o,
    In a (actions node) → allowed a → Inv st →
    wp (argparse.take_action self_error self st (a, vals, o)) Inv R.
Hypothesis extras_ok : ∀ st l, Inv st → Inv (argparse.add_extras st l).
Hypothesis finish_ok :
  ∀ st, Inv st → wp (argparse.finish self_error self node st) Post R.
Hypothesis cluster_ok :
  ∀ a c a',
    In a (actions node) → allowed a → argparse.arity a = 0 →
    argparse.find_option node (String "-" (String c "")) = Some a' →
    allowed a'.

Let good := good node allowed.
Let waiting_ok := waiting_ok node allowed.

Lemma wp_fail {A} (s : nat) (message : string) (Q : A → Prop) :
  wp (argparse.fail self_error s message) Q R.
Proof.
  unfold argparse.fail. apply wp_bind.
  eapply wp_mono; [| apply error_R]. intros [].
Qed.

Lemma wp_take_all (l : list argparse.Taken) :
  ∀ st, Forall good l → Inv st →
        wp (argparse.take_all self_error self st l) Inv R.
Proof.
  induction l as [|[[a vals] o] l IH]; intros st Hl Hst.
  - now apply wp_ret.
  - cbn [argparse.take_all]. apply wp_bind.
    inversion Hl as [|t l' [Hin Hal] Hl']; subst.
    eapply wp_mono; [| now apply take_ok].
    intros st' Hst'. now apply IH.
Qed.

Lemma wp_consume_explicit (expl : string) :
  ∀ a o queue,
    In a (actions node) → allowed a → Forall good queue →
    wp (argparse.consume_explicit self_error self node a o expl queue)
      (fun q =>
         Forall good (fst q)
         ∧ match snd q with
           | Some (a', _) => In a' (actions node) ∧ allowed a'
           | None => True
           end) R.
Proof.
  induction expl as [|c tail IH]; intros a o queue Hin Hal Hq.
  - cbn [argparse.consume_explicit].
    destruct (argparse.arity a) as [|[|n]] eqn:Har.
    + destruct (argparse.single_dash o); apply wp_fail.
    + apply wp_ret. split; [| exact I].
      apply Forall_app. split; [exact Hq |].
      constructor; [now split | constructor].
    + destruct (argparse.single_dash o); apply wp_fail.
  - cbn [argparse.consume_explicit].
    destruct (argparse.arity a) as [|[|n]] eqn:Har.
    + destruct (argparse.single_dash o); [| apply wp_fail].
      destruct (argparse.find_option node _) as [a'|] eqn:Hf;
        [| apply wp_fail].
      assert (Hal' : allowed a') by (now apply (cluster_ok a c)).
      apply find_option_In in Hf as [Hin' _].
      assert (Hq' : Forall good (queue ++ [(a, [], o)])).
      { apply Forall_app. split; [exact Hq |].
        constructor; [now split | constructor]. }
      destruct tail as [|c' tail'].
      * destruct (argparse.arity a' =? 0)%nat.
        -- apply wp_ret. split; [| exact I].
           apply Forall_app. split; [exact Hq |].
           constructor; [now split |].
           constructor; [now split | constructor].
        -- apply wp_ret. split; [exact Hq' | now split].
      * now apply IH.
    + apply wp_ret. split; [| exact I].
      apply Forall_app. split; [exact Hq |].
      constructor; [now split | constructor].
    + unfold argparse.arity in Har. destruct (kind a); discriminate.
Qed.

Lemma wp_loop (args : list string) :
  ∀ st waiting,
    (∀ tok a o e,
       In tok args →
       argparse.parse_optional node tok = argparse.TOption a o e →
       allowed a) →
    Inv st → waiting_ok waiting →
    wp (argparse.loop self_error self node st waiting args) Post R.
Proof.
  induction args as [|tok rest IH]; intros st waiting Hargs Hst Hw.
  - cbn [argparse.loop].
    destruct waiting as [[[queue a] o]|].
    + apply wp_fail.
    + now apply finish_ok.
  - assert (Hrest : ∀ tok' a o e,
               In tok' rest →
               argparse.parse_optional node tok' = argparse.TOption a o e →
               allowed a).
    { intros tok' a o e Hin. apply Hargs. now right. }
    cbn [argparse.loop].
    destruct waiting as [[[queue a] o]|].
    + destruct Hw as (Hq & Hin & Hal).
      destruct (String.eqb tok "--"); [apply wp_fail |].
      destruct (argparse.parse_optional node tok); try apply wp_fail.
      apply wp_bind.
      eapply wp_mono; [| apply wp_take_all; [| exact Hst]].
      * intros st' Hst'. now apply IH.
      * apply Forall_app. split; [exact Hq |].
        constructor; [now split | constructor].
    + destruct (String.eqb tok "--").
      { rewrite leaf. apply finish_ok. now apply extras_ok. }
      destruct (argparse.parse_optional node tok) as [|a o [e|]|l|] eqn:Htok.
      * rewrite leaf. apply IH; [exact Hrest | now apply extras_ok | exact I].
      * assert (Hin : In a (actions node))
          by (now apply parse_optional_In in Htok).
        assert (Hal : allowed a)
          by (now apply (Hargs tok a o (Some e)); [left |]).
        apply wp_bind.
        eapply wp_mono;
          [| apply wp_consume_explicit; [exact Hin | exact Hal |]];
          [| constructor].
        intros [q [[a' o']|]] [Hq Hp]; cbn [fst snd].
        -- apply IH; [exact Hrest | exact Hst |].
           destruct Hp as [Hin' Hal']. now split.
        -- apply wp_bind.
           eapply wp_mono; [| apply wp_take_all; [exact Hq | exact Hst]].
           intros st' Hst'. now apply IH.
      * assert (Hin : In a (actions node))
          by (now apply parse_optional_In in Htok).
        assert (Hal : allowed a)
          by (now apply (Hargs tok a o None); [left |]).
        destruct (argparse.arity a =? 0)%nat.
        -- apply wp_bind.
           eapply wp_mono; [| apply wp_take_all; [| exact Hst]].
           ++ intros st' Hst'. now apply IH.
           ++ constructor; [now split | constructor].
        -- apply IH; [exact Hrest | exact Hst |].
           split; [constructor | now split].
      * apply wp_fail.
      * apply IH; [exact Hrest | now apply extras_ok | exact I].
Qed.

Lemma wp_prescan (args : list string) :
  wp (argparse.prescan self_error self node args) (fun _ => True) R.
Proof.
  induction args as [|tok rest IH]; cbn [argparse.prescan].
  - now apply wp_ret.
  - destruct (String.eqb tok "--"); [now apply wp_ret |].
    destruct (argparse.parse_optional node tok);
      first [exact IH | apply wp_fail].
Qed.

End Loop.

(** ** Registration *)

Lemma bind_inv {A B} (c : M A) (k : A → M B) (w w' : World) (b : B) :
  bind c k w = (Ok b, w') →
  ∃ a w1, c w = (Ok a, w1) ∧ k a w1 = (Ok b, w').
Proof.
  unfold bind. destruct (c w) as [[a|e] w1]; [| discriminate].
  intros H. now exists a, w1.
Qed.

Lemma get_parser_inv (p : nat) (w w' : World) (node : Parser) :
  get_parser p w = (Ok node, w') → w' = w ∧ parsers w !! p = Some node.
Proof.
  unfold get_parser. destruct (parsers w !! p); [| discriminate].
  intros H. now inversion H.
Qed.

Lemma get_parser_eq (p : nat) (w : World) (node : Parser) :
  parsers w !! p = Some node → get_parser p w = (Ok node, w).
Proof. intros H. unfold get_parser. now rewrite H. Qed.

Lemma add_parser_inv (r : nat) (nm : string) (h : Help)
    (d e : option string) (w w' : World) (child : nat) :
  argparse.add_parser r nm h d e w = (Ok child, w') →
  ∃ pre,
    parsers w' !! child
    = Some {| prog := pre +:+ " " +:+ nm; description := d; epilog := e;
              actions := [argparse.help_action]; defaults := ∅;
              base_subparsers := None; priv_subparsers := None |}.
Proof.
  unfold argparse.add_parser. intros H.
  apply bind_inv in H as (reg & w1 & Hreg & H).
  apply bind_inv in H as (c & w2 & Hnew & H).
  apply bind_inv in H as ([] & w3 & Hput & H).
  unfold ret in H. inversion H; subst. clear H.
  exists (reg_prog_prefix reg).
  unfold argparse.new in Hnew.
  apply bind_inv in Hnew as (p & wa & Hfresh & Hnew).
  apply bind_inv in Hnew as ([] & wb & Hputp & Hnew).
  unfold ret in Hnew. inversion Hnew; subst. clear Hnew.
  unfold put_registry in Hput. inversion Hput; subst. clear Hput.
  unfold put_parser in Hputp. inversion Hputp; subst. clear Hputp.
  cbn. apply lookup_insert_eq.
Qed.

Lemma add_argument_eq (p : nat) (spec : argparse.ArgSpec) (w : World)
    (node : Parser) :
  parsers w !! p = Some node →
  argparse.find_option node (argparse.flag spec) = None →
  argparse.add_argument p spec w
  = (Ok tt,
     {| parsers :=
          <[p := argparse.with_actions node
                   (actions node ++
                    [ {| option_strings := [argparse.flag spec];
                         dest :=
                           Some (argparse.dest_of_flag (argparse.flag spec));
                         kind := argparse.s_action spec;
                         atype := argparse.s_type spec;
                         choices := argparse.s_choices spec;
                         required := argparse.s_required spec;
                         default :=
                           match argparse.s_default spec with
                           | Some v => v
                           | None =>
                               match
                                 defaults node
                                 !! argparse.dest_of_flag (argparse.flag spec)
                               with
                               | Some v => v
                               | None =>
                                   match argparse.s_action spec with
                                   | StoreTrue => VBool false
                                   | _ => VNone
                                   end
                               end
                           end;
                         help := argparse.s_help spec;
                         metavar := argparse.s_metavar spec |} ])]>
            (parsers w);
        registries := registries w; next_id := next_id w;
        trace := trace w |}).
Proof.
  intros Hp Hf. unfold argparse.add_argument.
  rewrite (bind_Ok _ _ _ _ _ (get_parser_eq p w node Hp)).
  now rewrite Hf.
Qed.

Lemma set_defaults_eq (p : nat) (kwargs : list (string * Value)) (w : World)
    (node : Parser) :
  parsers w !! p = Some node →
  argparse.set_defaults p kwargs w
  = (Ok tt,
     {| parsers :=
          <[p := argparse.with_actions
                   (argparse.with_defaults node
                      (list_to_map (reverse kwargs) ∪ defaults node))
                   (map
                      (fun a =>
                         match dest a with
                         | Some d =>
                             match
                               (list_to_map (reverse kwargs)
                                : gmap string Value) !! d
                             with
                             | Some v => argparse.with_default a v
                             | None => a
                             end
                         | None => a
                         end)
                      (actions node))]>
            (parsers w);
        registries := registries w; next_id := next_id w;
        trace := trace w |}).
Proof.
  intros Hp. unfold argparse.set_defaults.
  now rewrite (bind_Ok _ _ _ _ _ (get_parser_eq p w node Hp)).
Qed.

Lemma construct_fresh (K : Collaborators) (env : Env) (cls : CommandClass)
    (p : nat) (w : World) (node : Parser) :
  parsers w !! p = Some node →
  actions node = [argparse.help_action] →
  defaults node = ∅ →
  base_subparsers node = None →
  priv_subparsers node = None →
  ∃ w' node',
    construct K env cls p w = (Ok {| inst_cls := cls; inst_parser := p |}, w')
    ∧ parsers w' !! p = Some node'
    ∧ actions node' = command_actions K env (cls_base cls)
    ∧ defaults node' = command_defaults env (cls_base cls)
    ∧ base_subparsers node' = None
    ∧ priv_subparsers node' = None.
Proof.
  intros Hp Hact Hdef Hbase Hpriv.
  assert (Hfind : ∀ f, f = "--profile-name" ∨ f = "--output-format" →
                       argparse.find_option node f = None).
  { intros f [-> | ->]; unfold argparse.find_option; now rewrite Hact. }
  assert (Hne : "profile_name" ≠ "output_format") by discriminate.
  unfold construct, command_actions, command_defaults.
  destruct (cls_base cls).
  - exists w, node. unfold Command_init, bind, ret. now repeat split.
  - unfold TableCommand_init, Command_init.
    unfold bind at 1. unfold bind at 1. unfold ret at 1.
    erewrite add_argument_eq; [| exact Hp | apply Hfind; now right].
    eexists _, _. split; [reflexivity |]. cbn.
    rewrite lookup_insert_eq. split; [reflexivity |]. cbn.
    rewrite Hact. now repeat split.
  - unfold OriginCommandBase_init, Command_init.
    unfold bind at 1. unfold bind at 1. unfold bind at 1. unfold ret at 1.
    erewrite add_argument_eq; [| exact Hp | apply Hfind; now left].
    unfold profile_action.
    destruct (PROFILE_DEFAULT env) as [d|] eqn:Hd.
    + erewrite set_defaults_eq; [| cbn; apply lookup_insert_eq].
      eexists _, _. split; [reflexivity |]. cbn.
      rewrite lookup_insert_eq. split; [reflexivity |]. cbn.
      rewrite Hact, Hdef. cbn. rewrite lookup_insert_eq.
      split; [reflexivity |]. split; [| now split].
      now rewrite (right_id_L ∅ (∪)).
    + eexists _, _. split; [reflexivity |]. cbn.
      rewrite lookup_insert_eq. split; [reflexivity |]. cbn.
      rewrite Hact, Hdef. now repeat split.
  - unfold OriginCommandBase_init, TableCommand_init, Command_init.
    unfold bind at 1. unfold bind at 1. unfold bind at 1. unfold bind at 1.
    unfold ret at 1.
    erewrite add_argument_eq; [| exact Hp | apply Hfind; now right].
    erewrite add_argument_eq;
      [| cbn; apply lookup_insert_eq
       | cbn; unfold argparse.find_option; cbn; now rewrite Hact].
    unfold profile_action, output_action.
    destruct (PROFILE_DEFAULT env) as [d|] eqn:Hd.
    + erewrite set_defaults_eq; [| cbn; apply lookup_insert_eq].
      eexists _, _. split; [reflexivity |]. cbn.
      rewrite lookup_insert_eq. split; [reflexivity |]. cbn.
      rewrite Hact, Hdef. cbn.
      rewrite lookup_insert_eq, (lookup_insert_ne _ _ _ _ Hne), lookup_empty.
      split; [reflexivity |]. split; [| now split].
      now rewrite (right_id_L ∅ (∪)).
    + eexists _, _. split; [reflexivity |]. cbn.
      rewrite lookup_insert_eq. split; [reflexivity |]. cbn.
      rewrite Hact, Hdef. now repeat split.
  - unfold cmd_shell_init, Command_init.
    unfold bind at 1. unfold bind at 1. unfold bind at 1. unfold ret at 1.
    erewrite add_argument_eq; [| exact Hp | apply Hfind; now left].
    unfold shell_action.
    destruct (PROFILE_DEFAULT env) as [d|] eqn:Hd.
    + erewrite set_defaults_eq; [| cbn; apply lookup_insert_eq].
      eexists _, _. split; [reflexivity |]. cbn.
      rewrite lookup_insert_eq. split; [reflexivity |]. cbn.
      rewrite Hact, Hdef. cbn. rewrite lookup_insert_eq.
      split; [reflexivity |]. split; [| now split].
      now rewrite (right_id_L ∅ (∪)).
    + erewrite set_defaults_eq; [| cbn; apply lookup_insert_eq].
      eexists _, _. split; [reflexivity |]. cbn.
      rewrite lookup_insert_eq. split; [reflexivity |]. cbn.
      rewrite Hact, Hdef. cbn. rewrite lookup_insert_eq.
      split; [reflexivity |]. split; [| now split].
      now rewrite (right_id_L ∅ (∪)).
Qed.

Lemma command_actions_dest (K : Collaborators) (env : Env) (b : Base)
    (a : Action) :
  In a (command_actions K env b) → dest a ≠ Some "execute".
Proof.
  unfold command_actions. intros Hin.
  destruct b; cbn in Hin;
    repeat (destruct Hin as [<- | Hin]; [discriminate |]); destruct Hin.
Qed.

(** A registered command has a parser of its own, set up by the
    constructor of its class, with the instance as its [execute]
    default. *)
Lemma register_child (K : Collaborators) (env : Env) (cls : CommandClass)
    (parent : nat) (nm : option string) (w w' : World) :
  Command_register K env cls parent nm w = (Ok tt, w') →
  ∃ child node,
    parsers w' !! child = Some node ∧ command_parser K env cls child node.
Proof.
  unfold Command_register. intros H.
  apply bind_inv in H as (r & w1 & _ & H).
  apply bind_inv in H as (child & w2 & Hadd & H).
  apply add_parser_inv in Hadd as (pre & Hchild).
  destruct (construct_fresh K env cls child w2 _ Hchild eq_refl eq_refl
              eq_refl eq_refl)
    as (w3 & node' & Hc & Hn' & Hact & Hdef & Hbase & Hpriv).
  apply bind_inv in H as (inst & w3' & Hc' & H).
  rewrite Hc in Hc'. inversion Hc'; subst inst w3'. clear Hc'.
  rewrite (set_defaults_eq _ _ _ _ Hn') in H.
  inversion H; subst w'. clear H.
  eexists child, _. cbn. split; [apply lookup_insert_eq |].
  unfold command_parser. cbn.
  split; [| split; [| now split]].
  - rewrite <- Hact. rewrite <- (map_id (actions node')) at 2.
    apply map_ext_in. intros a Ha.
    rewrite Hact in Ha. apply command_actions_dest in Ha.
    destruct (dest a) as [d|]; [| reflexivity].
    rewrite lookup_insert_ne; [now rewrite lookup_empty |].
    congruence.
  - rewrite Hdef. rewrite <- insert_union_l. now rewrite (left_id_L ∅ (∪)).
Qed.

(** ** The parser of a command *)

Lemma command_actions_cases (K : Collaborators) (env : Env) (b : Base)
    (a : Action) :
  In a (command_actions K env b) →
  a = argparse.help_action ∨ a = output_action K env
  ∨ a = profile_action env ∨ a = shell_action env.
Proof.
  unfold command_actions. intros Hin.
  destruct b; cbn in Hin;
    repeat (destruct Hin as [<- | Hin]; [tauto |]); destruct Hin.
Qed.

Lemma mentions_false (node : Parser) (f : string) (args : list string)
    (tok : string) (a : Action) (o : string) (e : option string) :
  mentions node f args = false →
  In tok args →
  argparse.parse_optional node tok = argparse.TOption a o e →
  argparse.has_option f a = false.
Proof.
  unfold mentions. intros Hm Hin Htok.
  destruct (argparse.has_option f a) eqn:Hf; [| reflexivity].
  assert (Hex : existsb (selects node f) args = true).
  { apply existsb_exists. exists tok. split; [exact Hin |].
    unfold selects. now rewrite Htok. }
  congruence.
Qed.

Lemma convert_defaults_id (self_error : nat → string → M Empty_set)
    (self : nat) (l : list Action) :
  (∀ a, In a l → atype a = None ∨ ∀ s, default a ≠ VStr s) →
  ∀ st w, argparse.convert_defaults self_error self l st w = (Ok st, w).
Proof.
  induction l as [|a l IH]; intros Hl st w; [reflexivity |].
  assert (Hl' : ∀ a', In a' l → atype a' = None ∨ ∀ s, default a' ≠ VStr s).
  { intros a' Ha'. apply Hl. now right. }
  cbn [argparse.convert_defaults].
  destruct (argparse.was_seen st a || required a); [now apply IH |].
  destruct (default a) as [| |s| |] eqn:Hd; try (now apply IH).
  destruct (dest a) as [d|]; [| now apply IH].
  destruct (bool_decide (argparse.ns st !! d = Some (VStr s))) eqn:Hb;
    [| now apply IH].
  apply bool_decide_eq_true in Hb.
  destruct (Hl a (or_introl eq_refl)) as [Ht | Hn].
  - unfold argparse.get_value. rewrite Ht. unfold bind at 1. unfold ret at 1.
    rewrite (insert_id _ _ _ Hb).
    destruct st as [m sn ex]. cbn. now apply IH.
  - now destruct (Hn s).
Qed.

Section CommandParser.

Variable K : Collaborators.
Variable env : Env.
Variable cls : CommandClass.
Variable self : nat.
Variable node : Parser.

Hypothesis Hact : actions node = command_actions K env (cls_base cls).
Hypothesis Hleaf : base_subparsers node = None.

Lemma node_actions (a : Action) :
  In a (actions node) →
  a = argparse.help_action ∨ a = output_action K env
  ∨ a = profile_action env ∨ a = shell_action env.
Proof. rewrite Hact. apply command_actions_cases. Qed.

Lemma short_option_is_help (c : ascii) (a : Action) :
  argparse.find_option node (String "-" (String c "")) = Some a →
  a = argparse.help_action.
Proof.
  intros Hf. apply find_option_In in Hf as [Hin Hopt].
  apply node_actions in Hin as [-> | [-> | [-> | ->]]]; [reflexivity | | |];
    exfalso; cbn in Hopt; destruct (Ascii.eqb c "-"); discriminate Hopt.
Qed.

Lemma node_convert_defaults (st : argparse.PState) (w : World) :
  argparse.convert_defaults (ArgumentParser_error env) self (actions node)
    st w = (Ok st, w).
Proof.
  apply convert_defaults_id. intros a Ha.
  apply node_actions in Ha as [-> | [-> | [-> | ->]]];
    [now left | right; discriminate | now left | now left].
Qed.

Lemma node_finish (st : argparse.PState) (w : World) :
  argparse.finish (ArgumentParser_error env) self node st w
  = match argparse.missing node st with
    | [] => (Ok (argparse.ns st, argparse.extras st), w)
    | l =>
        (Raise (SystemExit 2),
         log w [EvWrite Stderr
                  (error_text env
                     ("the following arguments are required: "
                      +:+ PyStr.join ", " l))])
    end.
Proof.
  unfold argparse.finish.
  rewrite (bind_Ok _ _ _ _ _ (node_convert_defaults st w)).
  destruct (argparse.missing node st); [reflexivity |].
  unfold argparse.fail, bind. now rewrite ArgumentParser_error_eq.
Qed.

Lemma node_parse_args (args : list string) (w : World) :
  parsers w !! self = Some node →
  ArgumentParser_parse_args env self args w
  = bind
      (bind (argparse.prescan (ArgumentParser_error env) self node args)
         (fun _ =>
            argparse.loop (ArgumentParser_error env) self node
              (argparse.init node) None args))
      (fun r =>
         match snd r with
         | [] => ret (fst r)
         | l =>
             argparse.fail (ArgumentParser_error env) self
               ("unrecognized arguments: " +:+ PyStr.join " " l)
         end) w.
Proof.
  intros Hp. unfold ArgumentParser_parse_args, argparse.parse_args,
    argparse.parse_known_args.
  unfold bind at 1. unfold bind at 1.
  rewrite (get_parser_eq _ _ _ Hp). reflexivity.
Qed.

(** Every exception of a parse comes from the error path or from the
    help action. *)
Lemma wp_node_parse (args : list string) (allowed : Action → Prop)
    (Inv : argparse.PState → Prop) (Post : Namespace → Prop)
    (R : Exn → Prop) :
  R (SystemExit 2) →
  (∀ st a vals o,
     In a (actions node) → allowed a → Inv st →
     wp (argparse.take_action (ArgumentParser_error env) self st
           (a, vals, o)) Inv R) →
  (∀ st l, Inv st → Inv (argparse.add_extras st l)) →
  (∀ st, Inv st → argparse.missing node st = [] → Post (argparse.ns st)) →
  (allowed argparse.help_action ∨ ∀ a, allowed a → argparse.arity a = 1) →
  (∀ tok a o e,
     In tok args →
     argparse.parse_optional node tok = argparse.TOption a o e →
     allowed a) →
  Inv (argparse.init node) →
  wp (bind
        (bind (argparse.prescan (ArgumentParser_error env) self node args)
           (fun _ =>
              argparse.loop (ArgumentParser_error env) self node
                (argparse.init node) None args))
        (fun r =>
           match snd r with
           | [] => ret (fst r)
           | l =>
               argparse.fail (ArgumentParser_error env) self
                 ("unrecognized arguments: " +:+ PyStr.join " " l)
           end)) Post R.
Proof.
  intros HR Htake Hextras Hfinish Hcluster Hargs Hinit.
  assert (HE : ∀ s message,
             wp (ArgumentParser_error env s message) (fun _ => True) R).
  { intros s message. now apply wp_ArgumentParser_error. }
  apply wp_bind. apply wp_bind.
  eapply wp_mono; [| apply (wp_prescan _ R self node HE)].
  intros _ _.
  eapply wp_mono;
    [| apply (wp_loop (ArgumentParser_error env) R self node allowed Inv
                (fun r => snd r = [] → Post (fst r)) HE Hleaf Htake Hextras)].
  - intros [m [|x l]] Hr; cbn [fst snd].
    + apply wp_ret. now apply Hr.
    + now apply wp_fail.
  - intros st Hst w. rewrite node_finish.
    destruct (argparse.missing node st) eqn:Hm; [| exact HR].
    intros _. now apply Hfinish.
  - intros a c a' Hin Hal Har Hf.
    apply short_option_is_help in Hf. subst a'.
    destruct Hcluster as [Hh | Hone]; [exact Hh |].
    specialize (Hone a Hal). congruence.
  - exact Hargs.
  - exact Hinit.
  - exact I.
Qed.

Lemma consume_explicit_store (a : Action) (o e : string)
    (queue : list argparse.Taken) :
  argparse.arity a = 1 →
  argparse.consume_explicit (ArgumentParser_error env) self node a o e queue
  = ret (queue ++ [(a, [e], o)], None).
Proof. intros Ha. destruct e; cbn; now rewrite Ha. Qed.

(** The parse of one argument of the form [--flag=VALUE] for an option
    that stores its argument. *)
Lemma node_parse_single (tok : string) (a : Action) (o e : string)
    (w : World) :
  parsers w !! self = Some node →
  String.eqb tok "--" = false →
  argparse.parse_optional node tok = argparse.TOption a o (Some e) →
  argparse.arity a = 1 →
  ArgumentParser_parse_args env self [tok] w
  = bind
      (argparse.take_action (ArgumentParser_error env) self
         (argparse.init node) (a, [e], o))
      (fun st' =>
         bind (argparse.finish (ArgumentParser_error env) self node st')
           (fun r =>
              match snd r with
              | [] => ret (fst r)
              | l =>
                  argparse.fail (ArgumentParser_error env) self
                    ("unrecognized arguments: " +:+ PyStr.join " " l)
              end)) w.
Proof.
  intros Hp Hsep Htok Har.
  rewrite (node_parse_args [tok] w Hp).
  cbn [argparse.prescan argparse.loop]. rewrite Hsep, Htok.
  rewrite (consume_explicit_store a o e [] Har).
  unfold bind, ret. cbn [app fst snd argparse.take_all].
  unfold bind, ret.
  destruct (argparse.take_action _ _ _ _ w) as [[st'|ex] w1];
    reflexivity.
Qed.

End CommandParser.

Lemma wp_take_help (env : Env) (self : nat) (st : argparse.PState)
    (vals : list string) (o : string) (Q : argparse.PState → Prop)
    (R : Exn → Prop) :
  R (SystemExit 0) →
  wp (argparse.take_action (ArgumentParser_error env) self st
        (argparse.help_action, vals, o)) Q R.
Proof.
  intros HR. unfold argparse.take_action. cbn.
  apply wp_bind. apply wp_emit. now apply wp_exit.
Qed.

Lemma wp_take_store (env : Env) (self : nat) (st : argparse.PState)
    (a : Action) (vals : list string) (o : string) (R : Exn → Prop) :
  kind a = Store →
  R (SystemExit 2) →
  wp (argparse.take_action (ArgumentParser_error env) self st (a, vals, o))
    (fun st' =>
       ∃ arg v,
         vals = [arg]
         ∧ match atype a with
           | None => v = VStr arg
           | Some t => convert t arg = Some v
           end
         ∧ match choices a with
           | None => True
           | Some l => In v l
           end
         ∧ st' = {| argparse.ns := argparse.set_attr (dest a) v (argparse.ns st);
                    argparse.seen := argparse.seen st ++ [argparse.action_name a];
                    argparse.extras := argparse.extras st |}) R.
Proof.
  intros Hk HR.
  assert (HE : ∀ A s message (Q : A → Prop),
             wp (argparse.fail (ArgumentParser_error env) s message) Q R).
  { intros A s message Q. unfold argparse.fail. apply wp_bind.
    now apply wp_ArgumentParser_error. }
  unfold argparse.take_action. cbn [fst snd]. rewrite Hk.
  destruct vals as [|arg [|x vals]]; try apply HE.
  apply wp_bind. unfold argparse.get_value.
  assert (Hcheck : ∀ v,
             match atype a with
             | None => v = VStr arg
             | Some t => convert t arg = Some v
             end →
             wp (argparse.check_value (ArgumentParser_error env) self a v;;
                 ret {| argparse.ns :=
                          argparse.set_attr (dest a) v (argparse.ns st);
                        argparse.seen :=
                          argparse.seen st ++ [argparse.action_name a];
                        argparse.extras := argparse.extras st |})
               (fun st' =>
                  ∃ arg0 v0,
                    [arg] = [arg0]
                    ∧ match atype a with
                      | None => v0 = VStr arg0
                      | Some t => convert t arg0 = Some v0
                      end
                    ∧ match choices a with
                      | None => True
                      | Some l => In v0 l
                      end
                    ∧ st' = {| argparse.ns :=
                                 argparse.set_attr (dest a) v0 (argparse.ns st);
                               argparse.seen :=
                                 argparse.seen st ++ [argparse.action_name a];
                               argparse.extras := argparse.extras st |}) R).
  { intros v Hv. apply wp_bind. unfold argparse.check_value.
    destruct (choices a) as [l|] eqn:Hc.
    - destruct (bool_decide (v ∈ l)) eqn:Hb; [| apply HE].
      apply bool_decide_eq_true in Hb. apply list_elem_of_In in Hb.
      apply wp_ret. apply wp_ret. exists arg, v. now repeat split.
    - apply wp_ret. apply wp_ret. exists arg, v. now repeat split. }
  destruct (atype a) as [t|] eqn:Ht.
  - destruct (convert t arg) as [v|] eqn:Hv; [| apply HE].
    apply wp_ret. now apply Hcheck.
  - apply wp_ret. now apply Hcheck.
Qed.

(** ** C4: the profile flag *)

Section ProfileBound.

Variable K : Collaborators.
Variable env : Env.
Variable cls : CommandClass.
Variable self : nat.
Variable node : Parser.

Hypothesis Hact : actions node = command_actions K env (cls_base cls).
Hypothesis Hleaf : base_subparsers node = None.
Hypothesis Hbase :
  cls_base cls = OriginCommand ∨ cls_base cls = OriginTableCommand.

Lemma profile_node_actions (a : Action) :
  In a (actions node) →
  a = argparse.help_action ∨ a = output_action K env
  ∨ a = profile_action env.
Proof.
  rewrite Hact. unfold command_actions.
  destruct Hbase as [-> | ->]; cbn; intuition auto.
Qed.

Lemma profile_action_In : In (profile_action env) (actions node).
Proof.
  rewrite Hact. unfold command_actions.
  destruct Hbase as [-> | ->]; cbn; auto.
Qed.

Lemma profile_find_option :
  argparse.find_option node "--profile-name" = Some (profile_action env).
Proof.
  unfold argparse.find_option. rewrite Hact. unfold command_actions.
  destruct Hbase as [-> | ->]; reflexivity.
Qed.

Lemma profile_init :
  argparse.init_namespace node !! "profile_name"
  = Some (default (profile_action env)).
Proof.
  unfold argparse.init_namespace. rewrite Hact. unfold command_actions.
  apply lookup_union_Some_l.
  destruct Hbase as [-> | ->]; cbn [fold_left dest argparse.help_action
                                      output_action profile_action].
  - rewrite lookup_empty. apply lookup_insert_eq.
  - rewrite lookup_empty. rewrite lookup_insert_ne by discriminate.
    rewrite lookup_empty. apply lookup_insert_eq.
Qed.

Lemma profile_missing (st : argparse.PState) :
  PROFILE_DEFAULT env = None →
  argparse.was_seen st (profile_action env) = false →
  argparse.missing node st ≠ [].
Proof.
  intros Hd Hs. unfold argparse.missing.
  assert (Hin : In (profile_action env)
                  (List.filter
                     (fun a => negb (argparse.was_seen st a) && required a)
                     (actions node))).
  { apply filter_In. split; [exact profile_action_In |].
    rewrite Hs. cbn. now rewrite Hd. }
  destruct (List.filter _ (actions node)); [destruct Hin | discriminate].
Qed.

Lemma profile_missing_default (st : argparse.PState) (d : Profile) :
  PROFILE_DEFAULT env = Some d → argparse.missing node st = [].
Proof.
  intros Hd. unfold argparse.missing. rewrite Hact. unfold command_actions.
  destruct Hbase as [-> | ->]; cbn; rewrite Hd, !andb_false_r; reflexivity.
Qed.

Lemma was_seen_app (st : argparse.PState) (a : Action) (m : Namespace)
    (nm : string) (ex : list string) :
  argparse.was_seen
    {| argparse.ns := m; argparse.seen := argparse.seen st ++ [nm];
       argparse.extras := ex |} a
  = argparse.was_seen st a || String.eqb (argparse.action_name a) nm.
Proof.
  unfold argparse.was_seen. cbn. rewrite existsb_app. cbn.
  now rewrite orb_false_r.
Qed.

(** Without a default profile, a parse that never selects the flag, nor
    the help, ends in the error path. *)
Lemma profile_required (args : list string) (w : World) :
  parsers w !! self = Some node →
  PROFILE_DEFAULT env = None →
  mentions node "--profile-name" args = false →
  mentions node "--help" args = false →
  ∃ w', ArgumentParser_parse_args env self args w
        = (Raise (SystemExit 2), w').
Proof.
  intros Hp Hd Hm Hh.
  rewrite (node_parse_args env self node args w Hp).
  pose proof (wp_node_parse K env cls self node Hact Hleaf args
                (fun a => a = output_action K env)
                (fun st => argparse.was_seen st (profile_action env) = false)
                (fun _ => False) (fun e => e = SystemExit 2)) as H.
  match type of H with
  | _ → _ → _ → _ → _ → _ → _ → wp ?c _ _ =>
      assert (Hwp : wp c (fun _ => False) (fun e => e = SystemExit 2))
  end.
  { apply H; clear H.
    - reflexivity.
    - intros st a vals o _ -> Hst.
      eapply wp_mono; [| now apply wp_take_store].
      intros st' (arg & v & _ & _ & _ & ->).
      rewrite was_seen_app, Hst. reflexivity.
    - intros st l Hst. exact Hst.
    - intros st Hst Hmiss. now apply (profile_missing st Hd Hst).
    - right. now intros a ->.
    - intros tok a o e Hin Htok.
      pose proof (mentions_false _ _ _ _ _ _ _ Hm Hin Htok) as H1.
      pose proof (mentions_false _ _ _ _ _ _ _ Hh Hin Htok) as H2.
      apply parse_optional_In in Htok.
      apply profile_node_actions in Htok as [-> | [-> | ->]];
        [discriminate H2 | reflexivity | discriminate H1].
    - reflexivity. }
  specialize (Hwp w).
  match goal with
  | |- ∃ w', ?c w = _ => destruct (c w) as [[a|e] w']
  end.
  - destruct Hwp.
  - subst e. now exists w'.
Qed.

(** With a default profile, a parse that never selects the flag leaves
    the name of the default profile in the options. *)
Lemma profile_defaulted (args : list string) (w w' : World) (d : Profile)
    (m : Namespace) :
  parsers w !! self = Some node →
  PROFILE_DEFAULT env = Some d →
  mentions node "--profile-name" args = false →
  ArgumentParser_parse_args env self args w = (Ok m, w') →
  m !! "profile_name" = Some (VStr (name d)).
Proof.
  intros Hp Hd Hm Hparse.
  rewrite (node_parse_args env self node args w Hp) in Hparse.
  pose proof (wp_node_parse K env cls self node Hact Hleaf args
                (fun a => a = argparse.help_action ∨ a = output_action K env)
                (fun st =>
                   argparse.ns st !! "profile_name" = Some (VStr (name d)))
                (fun m => m !! "profile_name" = Some (VStr (name d)))
                (fun _ => True)) as H.
  match type of H with
  | _ → _ → _ → _ → _ → _ → _ → wp ?c ?Q ?R => assert (Hwp : wp c Q R)
  end.
  { apply H; clear H.
    - exact I.
    - intros st a vals o _ [-> | ->] Hst.
      + now apply wp_take_help.
      + eapply wp_mono; [| now apply wp_take_store].
        intros st' (arg & v & _ & _ & _ & ->). cbn.
        now rewrite lookup_insert_ne by discriminate.
    - intros st l Hst. exact Hst.
    - intros st Hst _. exact Hst.
    - now left; left.
    - intros tok a o e Hin Htok.
      pose proof (mentions_false _ _ _ _ _ _ _ Hm Hin Htok) as H1.
      apply parse_optional_In in Htok.
      apply profile_node_actions in Htok as [-> | [-> | ->]];
        [now left | now right | discriminate H1].
    - cbn. rewrite profile_init. cbn. now rewrite Hd. }
  specialize (Hwp w). rewrite Hparse in Hwp. exact Hwp.
Qed.

(** Whatever the arguments, the profile name in the options of a parse
    that returns is one of the profile names, or the name of the default
    profile. *)
Lemma profile_sound (args : list string) (w w' : World) (m : Namespace) :
  parsers w !! self = Some node →
  ArgumentParser_parse_args env self args w = (Ok m, w') →
  ∃ v, m !! "profile_name" = Some (VStr v)
       ∧ (In v (PROFILE_NAMES env)
          ∨ ∃ d, PROFILE_DEFAULT env = Some d ∧ v = name d).
Proof.
  intros Hp Hparse.
  rewrite (node_parse_args env self node args w Hp) in Hparse.
  pose proof (wp_node_parse K env cls self node Hact Hleaf args
                (fun _ => True)
                (fun st =>
                   (argparse.was_seen st (profile_action env) = false
                    ∧ argparse.ns st !! "profile_name"
                      = Some (default (profile_action env)))
                   ∨ ∃ v, In v (PROFILE_NAMES env)
                          ∧ argparse.ns st !! "profile_name"
                            = Some (VStr v))
                (fun m =>
                   ∃ v, m !! "profile_name" = Some (VStr v)
                        ∧ (In v (PROFILE_NAMES env)
                           ∨ ∃ d, PROFILE_DEFAULT env = Some d
                                  ∧ v = name d))
                (fun _ => True)) as H.
  match type of H with
  | _ → _ → _ → _ → _ → _ → _ → wp ?c ?Q ?R => assert (Hwp : wp c Q R)
  end.
  { apply H; clear H.
    - exact I.
    - intros st a vals o Hin _ Hst.
      apply profile_node_actions in Hin as [-> | [-> | ->]].
      + now apply wp_take_help.
      + eapply wp_mono; [| now apply wp_take_store].
        intros st' (arg & v & _ & _ & _ & ->).
        rewrite was_seen_app. cbn.
        rewrite lookup_insert_ne by discriminate.
        now rewrite orb_false_r.
      + eapply wp_mono; [| now apply wp_take_store].
        intros st' (arg & v & _ & Hv & Hc & ->). cbn in Hv, Hc. subst v.
        right. apply in_map_iff in Hc as (s & Hs & Hin).
        exists s. split; [exact Hin |]. cbn. rewrite <- Hs.
        apply lookup_insert_eq.
    - intros st l Hst. exact Hst.
    - intros st [[Hs Hn] | (v & Hv & Hn)] Hmiss.
      + destruct (PROFILE_DEFAULT env) as [d|] eqn:Hd.
        * exists (name d). split; [| right; now exists d].
          rewrite Hn. cbn. now rewrite Hd.
        * now destruct (profile_missing st Hd Hs).
      + exists v. split; [exact Hn | now left].
    - now left.
    - intros. exact I.
    - left. split; [reflexivity |]. cbn. apply profile_init. }
  specialize (Hwp w). rewrite Hparse in Hwp. exact Hwp.
Qed.

Lemma profile_token (v : string) :
  argparse.parse_optional node ("--profile-name=" +:+ v)
  = argparse.TOption (profile_action env) "--profile-name" (Some v).
Proof.
  rewrite !app_cons, app_empty.
  unfold argparse.parse_optional, argparse.find_option. rewrite Hact.
  unfold command_actions.
  destruct Hbase as [-> | ->]; reflexivity.
Qed.

Lemma profile_missing_init :
  PROFILE_DEFAULT env = None →
  argparse.missing node (argparse.init node) = ["--profile-name"].
Proof.
  intros Hd. unfold argparse.missing. rewrite Hact. unfold command_actions.
  destruct Hbase as [-> | ->]; cbn; now rewrite Hd.
Qed.

Lemma profile_omitted (w : World) :
  parsers w !! self = Some node →
  PROFILE_DEFAULT env = None →
  ArgumentParser_parse_args env self [] w
  = (Raise (SystemExit 2),
     log w [EvWrite Stderr
              (error_text env
                 "the following arguments are required: --profile-name")]).
Proof.
  intros Hp Hd. rewrite (node_parse_args env self node [] w Hp).
  cbn [argparse.prescan argparse.loop].
  unfold bind at 2. unfold ret at 1.
  unfold bind at 1.
  rewrite (node_finish K env cls self node Hact).
  now rewrite (profile_missing_init Hd).
Qed.

Lemma profile_default_used (w : World) (d : Profile) :
  parsers w !! self = Some node →
  PROFILE_DEFAULT env = Some d →
  ∃ m, ArgumentParser_parse_args env self [] w = (Ok m, w)
       ∧ m !! "profile_name" = Some (VStr (name d)).
Proof.
  intros Hp Hd. rewrite (node_parse_args env self node [] w Hp).
  cbn [argparse.prescan argparse.loop].
  unfold bind at 2. unfold ret at 1.
  unfold bind at 1.
  rewrite (node_finish K env cls self node Hact).
  rewrite (profile_missing_default _ d Hd).
  eexists. split; [reflexivity |].
  cbn. rewrite profile_init. cbn. now rewrite Hd.
Qed.

Lemma profile_given (v : string) (w : World) :
  parsers w !! self = Some node →
  In v (PROFILE_NAMES env) →
  ∃ m, ArgumentParser_parse_args env self ["--profile-name=" +:+ v] w
       = (Ok m, w)
       ∧ m !! "profile_name" = Some (VStr v).
Proof.
  intros Hp Hv.
  rewrite (node_parse_single env self node
             ("--profile-name=" +:+ v) (profile_action env)
             "--profile-name" v w Hp eq_refl (profile_token v) eq_refl).
  unfold argparse.take_action, argparse.get_value, argparse.check_value.
  cbn [fst snd kind atype choices profile_action].
  rewrite !bind_assoc, bind_ret_l.
  rewrite bool_decide_eq_true_2
    by (apply list_elem_of_In; now apply in_map).
  repeat (rewrite bind_assoc || rewrite bind_ret_l).
  unfold bind at 1.
  rewrite (node_finish K env cls self node Hact).
  match goal with
  | |- context [argparse.missing node ?st] =>
      assert (Hm : argparse.missing node st = [])
  end.
  { unfold argparse.missing. rewrite Hact. unfold command_actions.
    destruct Hbase as [-> | ->]; cbn; now rewrite !andb_false_r. }
  rewrite Hm. cbn [fst snd argparse.extras argparse.init app].
  eexists. split; [reflexivity |]. cbn. apply lookup_insert_eq.
Qed.

Lemma profile_rejected (v : string) (w : World) :
  parsers w !! self = Some node →
  ¬ In v (PROFILE_NAMES env) →
  ∃ w', ArgumentParser_parse_args env self ["--profile-name=" +:+ v] w
        = (Raise (SystemExit 2), w').
Proof.
  intros Hp Hv.
  rewrite (node_parse_single env self node
             ("--profile-name=" +:+ v) (profile_action env)
             "--profile-name" v w Hp eq_refl (profile_token v) eq_refl).
  unfold argparse.take_action, argparse.get_value, argparse.check_value.
  cbn [fst snd kind atype choices profile_action].
  rewrite !bind_assoc, bind_ret_l.
  rewrite bool_decide_eq_false_2.
  - unfold argparse.argument_error, argparse.fail.
    rewrite !bind_assoc.
    unfold bind. rewrite ArgumentParser_error_eq. now eexists.
  - intros Hin. apply list_elem_of_In in Hin.
    apply in_map_iff in Hin as (s & Hs & Hin). now inversion Hs; subst.
Qed.

End ProfileBound.



(** ** C5: the output format flag *)

Lemma RenderTarget_call_Some (K : Collaborators) (s : string) (v : Value) :
  RenderTarget_call K s = Some v →
  ∃ t, v = VTarget t ∧ In t (RenderTarget_members K)
       ∧ RenderTarget_value t = s.
Proof.
  unfold RenderTarget_call. intros H.
  destruct (List.find _ (RenderTarget_members K)) as [t|] eqn:Hf;
    [| discriminate].
  inversion H; subst. apply find_some in Hf as [Hin Heq].
  exists t. repeat split; [exact Hin |]. now apply String.eqb_eq.
Qed.

Lemma RenderTarget_call_member (K : Collaborators)
    (t : tabular.RenderTarget) :
  In t (RenderTarget_members K) →
  ∃ t', RenderTarget_call K (RenderTarget_value t) = Some (VTarget t')
        ∧ In t' (RenderTarget_members K)
        ∧ RenderTarget_value t' = RenderTarget_value t.
Proof.
  intros Hin. unfold RenderTarget_call.
  destruct (List.find
              (fun t0 => String.eqb (RenderTarget_value t0)
                           (RenderTarget_value t))
              (RenderTarget_members K)) as [t'|] eqn:Hf.
  - apply find_some in Hf as [Hin' Heq]. apply String.eqb_eq in Heq.
    now exists t'.
  - apply (find_none _ _ Hf) in Hin. now rewrite String.eqb_refl in Hin.
Qed.

Lemma RenderTarget_call_None (K : Collaborators) (s : string) :
  (∀ t, In t (RenderTarget_members K) → RenderTarget_value t ≠ s) →
  RenderTarget_call K s = None.
Proof.
  intros H. destruct (RenderTarget_call K s) as [v|] eqn:Hc; [| reflexivity].
  apply RenderTarget_call_Some in Hc as (t & _ & Hin & Hv).
  now destruct (H t Hin).
Qed.

Section TableBound.

Variable K : Collaborators.
Variable env : Env.
Variable cls : CommandClass.
Variable self : nat.
Variable node : Parser.

Hypothesis Hact : actions node = command_actions K env (cls_base cls).
Hypothesis Hleaf : base_subparsers node = None.
Hypothesis Hbase :
  cls_base cls = TableCommand ∨ cls_base cls = OriginTableCommand.

Let default_target : tabular.RenderTarget :=
  if stdout_isatty env then tabular.pretty else tabular.plain.

Lemma table_node_actions (a : Action) :
  In a (actions node) →
  a = argparse.help_action ∨ a = output_action K env
  ∨ a = profile_action env.
Proof.
  rewrite Hact. unfold command_actions.
  destruct Hbase as [-> | ->]; cbn; intuition auto.
Qed.

Lemma output_find_option :
  argparse.find_option node "--output-format" = Some (output_action K env).
Proof.
  unfold argparse.find_option. rewrite Hact. unfold command_actions.
  destruct Hbase as [-> | ->]; reflexivity.
Qed.

Lemma output_init :
  argparse.init_namespace node !! "output_format"
  = Some (VTarget default_target).
Proof.
  unfold argparse.init_namespace. rewrite Hact. unfold command_actions.
  apply lookup_union_Some_l.
  destruct Hbase as [-> | ->]; cbn [fold_left dest argparse.help_action
                                      output_action profile_action].
  - rewrite lookup_empty. apply lookup_insert_eq.
  - rewrite lookup_empty. rewrite lookup_insert_ne by discriminate.
    rewrite lookup_empty. rewrite lookup_insert_ne by discriminate.
    apply lookup_insert_eq.
Qed.

Lemma default_target_member : In default_target (RenderTarget_members K).
Proof.
  unfold default_target, RenderTarget_members.
  destruct (stdout_isatty env); cbn; auto.
Qed.

Lemma output_token (s : string) :
  argparse.parse_optional node ("--output-format=" +:+ s)
  = argparse.TOption (output_action K env) "--output-format" (Some s).
Proof.
  rewrite !app_cons, app_empty.
  unfold argparse.parse_optional, argparse.find_option. rewrite Hact.
  unfold command_actions.
  destruct Hbase as [-> | ->]; reflexivity.
Qed.

(** A parse that never selects the flag leaves the default target in the
    options. *)
Lemma output_defaulted (args : list string) (w w' : World) (m : Namespace) :
  parsers w !! self = Some node →
  mentions node "--output-format" args = false →
  ArgumentParser_parse_args env self args w = (Ok m, w') →
  m !! "output_format" = Some (VTarget default_target).
Proof.
  intros Hp Hm Hparse.
  rewrite (node_parse_args env self node args w Hp) in Hparse.
  pose proof (wp_node_parse K env cls self node Hact Hleaf args
                (fun a => a = argparse.help_action ∨ a = profile_action env)
                (fun st =>
                   argparse.ns st !! "output_format"
                   = Some (VTarget default_target))
                (fun m => m !! "output_format"
                          = Some (VTarget default_target))
                (fun _ => True)) as H.
  match type of H with
  | _ → _ → _ → _ → _ → _ → _ → wp ?c ?Q ?R => assert (Hwp : wp c Q R)
  end.
  { apply H; clear H.
    - exact I.
    - intros st a vals o _ [-> | ->] Hst.
      + now apply wp_take_help.
      + eapply wp_mono; [| now apply wp_take_store].
        intros st' (arg & v & _ & _ & _ & ->). cbn.
        now rewrite lookup_insert_ne by discriminate.
    - intros st l Hst. exact Hst.
    - intros st Hst _. exact Hst.
    - now left; left.
    - intros tok a o e Hin Htok.
      pose proof (mentions_false _ _ _ _ _ _ _ Hm Hin Htok) as H1.
      apply parse_optional_In in Htok.
      apply table_node_actions in Htok as [-> | [-> | ->]];
        [now left | discriminate H1 | now right].
    - cbn. apply output_init. }
  specialize (Hwp w). rewrite Hparse in Hwp. exact Hwp.
Qed.

(** Whatever the arguments, the output format in the options of a parse
    that returns is a member of the enumeration. *)
Lemma output_sound (args : list string) (w w' : World) (m : Namespace) :
  parsers w !! self = Some node →
  ArgumentParser_parse_args env self args w = (Ok m, w') →
  ∃ t, In t (RenderTarget_members K)
       ∧ m !! "output_format" = Some (VTarget t).
Proof.
  intros Hp Hparse.
  rewrite (node_parse_args env self node args w Hp) in Hparse.
  pose proof (wp_node_parse K env cls self node Hact Hleaf args
                (fun _ => True)
                (fun st =>
                   ∃ t, In t (RenderTarget_members K)
                        ∧ argparse.ns st !! "output_format"
                          = Some (VTarget t))
                (fun m =>
                   ∃ t, In t (RenderTarget_members K)
                        ∧ m !! "output_format" = Some (VTarget t))
                (fun _ => True)) as H.
  match type of H with
  | _ → _ → _ → _ → _ → _ → _ → wp ?c ?Q ?R => assert (Hwp : wp c Q R)
  end.
  { apply H; clear H.
    - exact I.
    - intros st a vals o Hin _ (t & Ht & Hst).
      apply table_node_actions in Hin as [-> | [-> | ->]].
      + now apply wp_take_help.
      + eapply wp_mono; [| now apply wp_take_store].
        intros st' (arg & v & _ & Hv & _ & ->). cbn in Hv.
        apply RenderTarget_call_Some in Hv as (t' & -> & Ht' & _).
        exists t'. split; [exact Ht' |]. cbn. apply lookup_insert_eq.
      + eapply wp_mono; [| now apply wp_take_store].
        intros st' (arg & v & _ & _ & _ & ->).
        exists t. split; [exact Ht |]. cbn.
        now rewrite lookup_insert_ne by discriminate.
    - intros st l Hst. exact Hst.
    - intros st Hst _. exact Hst.
    - now left.
    - intros. exact I.
    - exists default_target. split; [apply default_target_member |].
      cbn. apply output_init. }
  specialize (Hwp w). rewrite Hparse in Hwp. exact Hwp.
Qed.

Lemma table_missing (st : argparse.PState) :
  cls_base cls = TableCommand ∨ (∃ d, PROFILE_DEFAULT env = Some d) →
  argparse.missing node st = [].
Proof.
  intros Hd. unfold argparse.missing. rewrite Hact. unfold command_actions.
  destruct Hd as [-> | [d Hd]].
  - cbn. now rewrite !andb_false_r.
  - destruct Hbase as [-> | ->]; cbn; rewrite ?Hd, !andb_false_r;
      reflexivity.
Qed.

Lemma output_default_used (w : World) :
  parsers w !! self = Some node →
  cls_base cls = TableCommand ∨ (∃ d, PROFILE_DEFAULT env = Some d) →
  ∃ m, ArgumentParser_parse_args env self [] w = (Ok m, w)
       ∧ m !! "output_format" = Some (VTarget default_target).
Proof.
  intros Hp Hd. rewrite (node_parse_args env self node [] w Hp).
  cbn [argparse.prescan argparse.loop].
  unfold bind at 2. unfold ret at 1.
  unfold bind at 1.
  rewrite (node_finish K env cls self node Hact).
  rewrite (table_missing _ Hd).
  eexists. split; [reflexivity |].
  cbn. apply output_init.
Qed.

Lemma output_given (t : tabular.RenderTarget) (w : World) :
  parsers w !! self = Some node →
  cls_base cls = TableCommand ∨ (∃ d, PROFILE_DEFAULT env = Some d) →
  In t (RenderTarget_members K) →
  ∃ m t',
    ArgumentParser_parse_args env self
      ["--output-format=" +:+ RenderTarget_value t] w = (Ok m, w)
    ∧ m !! "output_format" = Some (VTarget t')
    ∧ In t' (RenderTarget_members K)
    ∧ RenderTarget_value t' = RenderTarget_value t.
Proof.
  intros Hp Hd Ht.
  destruct (RenderTarget_call_member K t Ht) as (t' & Hc & Ht' & Hv).
  rewrite (node_parse_single env self node
             ("--output-format=" +:+ RenderTarget_value t)
             (output_action K env) "--output-format" (RenderTarget_value t)
             w Hp eq_refl (output_token _) eq_refl).
  unfold argparse.take_action, argparse.get_value, argparse.check_value.
  cbn [fst snd kind atype choices output_action convert].
  rewrite Hc.
  rewrite !bind_assoc, bind_ret_l.
  rewrite bool_decide_eq_true_2
    by (apply list_elem_of_In; now apply in_map).
  repeat (rewrite bind_assoc || rewrite bind_ret_l).
  unfold bind at 1.
  rewrite (node_finish K env cls self node Hact).
  rewrite (table_missing _ Hd).
  cbn [fst snd argparse.extras argparse.init app].
  exists
    (<["output_format" := VTarget t']> (argparse.init_namespace node)), t'.
  split; [reflexivity |]. split; [apply lookup_insert_eq | now split].
Qed.

Lemma output_rejected (s : string) (w : World) :
  parsers w !! self = Some node →
  (∀ t, In t (RenderTarget_members K) → RenderTarget_value t ≠ s) →
  ∃ w', ArgumentParser_parse_args env self ["--output-format=" +:+ s] w
        = (Raise (SystemExit 2), w').
Proof.
  intros Hp Hs.
  rewrite (node_parse_single env self node
             ("--output-format=" +:+ s) (output_action K env)
             "--output-format" s w Hp eq_refl (output_token s) eq_refl).
  unfold argparse.take_action, argparse.get_value.
  cbn [fst snd kind atype output_action convert].
  rewrite (RenderTarget_call_None K s Hs).
  unfold argparse.argument_error, argparse.fail.
  rewrite !bind_assoc.
  unfold bind. rewrite ArgumentParser_error_eq. now eexists.
Qed.

End TableBound.



(** ** The profile names *)

Lemma ascii_compare_Lt_trans (a b c : ascii) :
  Ascii.compare a b = Lt → Ascii.compare b c = Lt → Ascii.compare a c = Lt.
Proof.
  unfold Ascii.compare. rewrite !N.compare_lt_iff. apply N.lt_trans.
Qed.

Lemma string_compare_trans (x y z : string) :
  String.compare x y ≠ Gt → String.compare y z ≠ Gt →
  String.compare x z ≠ Gt.
Proof.
  revert y z. induction x as [|a x IH]; intros [|b y] [|c z]; cbn;
    try congruence.
  destruct (Ascii.compare a b) eqn:Hab; try congruence.
  - apply Ascii.compare_eq_iff in Hab. subst b.
    destruct (Ascii.compare a c) eqn:Hac; try congruence.
    apply IH.
  - destruct (Ascii.compare b c) eqn:Hbc; try congruence.
    + apply Ascii.compare_eq_iff in Hbc. subst c. rewrite Hab. congruence.
    + rewrite (ascii_compare_Lt_trans a b c Hab Hbc). congruence.
Qed.

Lemma leb_trans (x y z : string) :
  String.leb x y = true → String.leb y z = true → String.leb x z = true.
Proof.
  unfold String.leb. intros Hxy Hyz.
  pose proof (string_compare_trans x y z) as H.
  destruct (String.compare x y), (String.compare y z),
    (String.compare x z); try reflexivity; try discriminate;
    exfalso; apply H; congruence.
Qed.

Lemma insert_sorted_perm (x : string) (l : list string) :
  PyStr.insert_sorted x l ≡ₚ x :: l.
Proof.
  induction l as [|y l IH]; cbn; [reflexivity |].
  destruct (String.leb x y); [reflexivity |].
  rewrite IH. apply Permutation_swap.
Qed.

Lemma sorted_perm (l : list string) : PyStr.sorted l ≡ₚ l.
Proof.
  induction l as [|x l IH]; cbn; [reflexivity |].
  unfold PyStr.sorted in IH. now rewrite insert_sorted_perm, IH.
Qed.

Lemma insert_sorted_ascending (x : string) (l : list string) :
  ascending l → ascending (PyStr.insert_sorted x l).
Proof.
  induction l as [|y l IH]; cbn; [now split |].
  intros [Hy Hl]. destruct (String.leb x y) eqn:Hxy; cbn.
  - split; [| now split]. constructor; [exact Hxy |].
    eapply Forall_impl; [exact Hy |]. cbn. intros z Hz.
    now apply (leb_trans x y z).
  - split; [| now apply IH].
    rewrite (insert_sorted_perm x l). constructor; [| exact Hy].
    destruct (String.leb_total x y) as [H | H]; [congruence | exact H].
Qed.

Lemma sorted_ascending (l : list string) : ascending (PyStr.sorted l).
Proof.
  induction l as [|x l IH]; cbn; [exact I |].
  now apply insert_sorted_ascending.
Qed.

(** X1: the profile names offered as choices are those of the profile store,
    each as often as the store yields it, in ascending order; the default
    profile is that of the store. *)
Theorem profile_names_sorted (env : Env) :
  PROFILE_NAMES env ≡ₚ config_names (config env)
  ∧ ascending (PROFILE_NAMES env)
  ∧ (∀ n, n ∈ PROFILE_NAMES env ↔ n ∈ config_names (config env))
  ∧ PROFILE_DEFAULT env = config_default (config env).
Proof.
  unfold PROFILE_NAMES, PROFILE_DEFAULT, get_profile_names_and_default. cbn.
  split; [apply sorted_perm |]. split; [apply sorted_ascending |].
  split; [| reflexivity].
  intros n. now rewrite (sorted_perm (config_names (config env))).
Qed.

(** ** Registration and lookup *)

Lemma assoc_get_set {A} (k : string) (v : A) (l : list (string * A)) :
  argparse.assoc_get k (argparse.assoc_set k v l) = Some v.
Proof.
  induction l as [|[k' v'] l IH]; cbn.
  - now rewrite String.eqb_refl.
  - destruct (String.eqb k k') eqn:Hk; cbn.
    + now rewrite String.eqb_refl.
    + now rewrite Hk.
Qed.

Lemma assoc_get_set_ne {A} (k k' : string) (v : A) (l : list (string * A)) :
  k ≠ k' →
  argparse.assoc_get k (argparse.assoc_set k' v l) = argparse.assoc_get k l.
Proof.
  intros Hne. induction l as [|[k2 v2] l IH]; cbn.
  - apply String.eqb_neq in Hne. now rewrite Hne.
  - destruct (String.eqb k' k2) eqn:Hk; cbn.
    + apply String.eqb_eq in Hk. subst k2.
      apply String.eqb_neq in Hne. now rewrite Hne.
    + destruct (String.eqb k k2); [reflexivity | exact IH].
Qed.

Lemma subparsers_inv (env : Env) (p : nat) (w w1 : World) (r : nat) :
  ArgumentParser_subparsers env p w = (Ok r, w1) →
  (∃ node, parsers w1 !! p = Some node ∧ priv_subparsers node = Some r)
  ∧ (next_id w ≤ next_id w1)%nat
  ∧ trace w1 = trace w
  ∧ (∀ q, q ≠ p → parsers w1 !! q = parsers w !! q).
Proof.
  unfold ArgumentParser_subparsers. intros H.
  apply bind_inv in H as (node & w0 & Hg & H).
  apply get_parser_inv in Hg as [-> Hnode].
  destruct (priv_subparsers node) as [r0|] eqn:Hpriv.
  - unfold ret in H. inversion H; subst. 
    split; [now exists node |]. split; [lia |]. split; [reflexivity |].
    reflexivity.
  - apply bind_inv in H as (r1 & w2 & Hadd & H).
    unfold argparse.add_subparsers in Hadd.
    rewrite (bind_Ok _ _ _ _ _ (get_parser_eq _ _ _ Hnode)) in Hadd.
    destruct (base_subparsers node) as [g|] eqn:Hbase.
    { unfold argparse.fail, bind in Hadd.
      destruct (ArgumentParser_error env p _ w) as [[[]|e] w'];
        discriminate. }
    cbn in Hadd. inversion Hadd; subst r1 w2. clear Hadd.
    cbn in H. unfold bind at 1 in H. unfold get_parser at 1 in H. cbn in H.
    rewrite lookup_insert_eq in H. cbn in H.
    unfold bind at 1 in H. unfold get_registry at 1 in H. cbn in H.
    rewrite lookup_insert_eq in H. cbn in H.
    inversion H; subst. clear H. cbn.
    split; [eexists; split; [apply lookup_insert_eq | reflexivity] |].
    split; [lia |]. split; [reflexivity |].
    intros q Hq. now rewrite !lookup_insert_ne by congruence.
Qed.

Lemma only_parser_refl (p : nat) (w : World) : only_parser p w w.
Proof. now repeat split. Qed.

Lemma only_parser_trans (p : nat) (w1 w2 w3 : World) :
  only_parser p w1 w2 → only_parser p w2 w3 → only_parser p w1 w3.
Proof.
  intros (Hr & Hn & Ht & Hp) (Hr' & Hn' & Ht' & Hp').
  repeat split; try congruence.
  intros q Hq. now rewrite Hp', Hp.
Qed.

Lemma touches_ret {A} (p : nat) (a : A) : touches p (ret a).
Proof. intros w r w' H. inversion H; subst. apply only_parser_refl. Qed.

Lemma touches_bind {A B} (p : nat) (c : M A) (k : A → M B) :
  touches p c → (∀ a, touches p (k a)) → touches p (bind c k).
Proof.
  intros Hc Hk w r w'. unfold bind.
  destruct (c w) as [[a|e] w1] eqn:Hcw.
  - intros H. eapply only_parser_trans; [eapply Hc, Hcw | eapply Hk, H].
  - intros H. inversion H; subst. eapply Hc, Hcw.
Qed.

Lemma touches_add_argument (p : nat) (spec : argparse.ArgSpec) :
  touches p (argparse.add_argument p spec).
Proof.
  intros w r w'. unfold argparse.add_argument, bind, get_parser.
  destruct (parsers w !! p) as [node|].
  - destruct (argparse.find_option node (argparse.flag spec)).
    + intros H. inversion H; subst. apply only_parser_refl.
    + intros H. inversion H; subst. repeat split. cbn.
      intros q Hq. now rewrite lookup_insert_ne by congruence.
  - intros H. inversion H; subst. apply only_parser_refl.
Qed.

Lemma touches_set_defaults (p : nat) (kw : list (string * Value)) :
  touches p (argparse.set_defaults p kw).
Proof.
  intros w r w'. unfold argparse.set_defaults, bind, get_parser.
  destruct (parsers w !! p) as [node|].
  - intros H. inversion H; subst. repeat split. cbn.
    intros q Hq. now rewrite lookup_insert_ne by congruence.
  - intros H. inversion H; subst. apply only_parser_refl.
Qed.

(** The constructor of a command class works on the parser it is given
    and on nothing else. *)
Lemma touches_construct (K : Collaborators) (env : Env) (cls : CommandClass)
    (p : nat) :
  touches p (construct K env cls p).
Proof.
  unfold construct, OriginCommandBase_init, TableCommand_init,
    cmd_shell_init, Command_init.
  destruct (cls_base cls), (PROFILE_DEFAULT env);
    repeat first
      [ apply touches_ret
      | apply touches_add_argument
      | apply touches_set_defaults
      | apply touches_bind; [| intros ?] ].
Qed.

Lemma add_parser_inv_full (r : nat) (nm : string) (h : Help)
    (d e : option string) (w w' : World) (child : nat) :
  argparse.add_parser r nm h d e w = (Ok child, w') →
  ∃ reg,
    registries w !! r = Some reg
    ∧ child = next_id w
    ∧ w' = {| parsers :=
                <[child := {| prog := reg_prog_prefix reg +:+ " " +:+ nm;
                              description := d; epilog := e;
                              actions := [argparse.help_action];
                              defaults := ∅; base_subparsers := None;
                              priv_subparsers := None |}]> (parsers w);
              registries :=
                <[r := {| reg_metavar := reg_metavar reg;
                          reg_prog_prefix := reg_prog_prefix reg;
                          reg_choices :=
                            argparse.assoc_set nm child (reg_choices reg);
                          reg_help :=
                            match h with
                            | HelpNone => reg_help reg
                            | _ => reg_help reg ++ [(nm, h)]
                            end |}]> (registries w);
              next_id := S (next_id w);
              trace := trace w |}.
Proof.
  unfold argparse.add_parser, bind, get_registry.
  destruct (registries w !! r) as [reg|]; [| discriminate].
  cbn. intros H. inversion H; subst. now exists reg.
Qed.

(** X2: a command registered under a parser is found there by its name: the
    lookup returns the parser of the command, a new object that the
    constructor of the class has set up, and changes nothing. *)
Theorem register_getitem (K : Collaborators) (env : Env)
    (cls : CommandClass) (parent : nat) (nm : option string)
    (w w' : World) :
  (parent < next_id w)%nat →
  Command_register K env cls parent nm w = (Ok tt, w') →
  ∃ child node,
    ArgumentParser_getitem env parent (registered_name cls nm) w'
    = (Ok child, w')
    ∧ (next_id w ≤ child)%nat
    ∧ parsers w' !! child = Some node
    ∧ command_parser K env cls child node.
Proof.
  intros Hlt H. unfold Command_register in H.
  apply bind_inv in H as (r & w1 & Hsub & H).
  apply subparsers_inv in Hsub as ((pnode & Hpn & Hpriv) & Hle & _ & _).
  apply bind_inv in H as (child & w2 & Hadd & H).
  pose proof (add_parser_inv _ _ _ _ _ _ _ _ Hadd) as (pre & Hchild).
  apply add_parser_inv_full in Hadd as (reg & Hreg & Hc & Hw2).
  destruct (construct_fresh K env cls child w2 _ Hchild eq_refl eq_refl
              eq_refl eq_refl)
    as (w3 & node' & Hcon & Hn' & Hact & Hdef & Hbase & Hpriv').
  apply bind_inv in H as (inst & w3' & Hcon' & H).
  rewrite Hcon in Hcon'. inversion Hcon'; subst inst w3'. clear Hcon'.
  apply touches_construct in Hcon as (Hr3 & Hn3 & Ht3 & Hp3).
  rewrite (set_defaults_eq _ _ _ _ Hn') in H.
  inversion H; subst w'. clear H.
  assert (Hne : parent ≠ child) by lia.
  eexists child, _. split; [| split; [lia | split]].
  - unfold ArgumentParser_getitem, ArgumentParser_subparsers.
    unfold bind at 1. unfold bind at 1. unfold get_parser at 1. cbn.
    rewrite lookup_insert_ne by congruence.
    rewrite (Hp3 parent Hne). rewrite Hw2. cbn.
    rewrite lookup_insert_ne by congruence.
    rewrite Hpn, Hpriv. cbn.
    unfold bind at 1. unfold get_registry at 1. cbn.
    rewrite Hr3, Hw2. cbn. rewrite lookup_insert_eq. cbn.
    unfold registered_name. now rewrite assoc_get_set.
  - cbn. apply lookup_insert_eq.
  - unfold command_parser. cbn.
    split; [| split; [| now split]].
    + rewrite <- Hact. rewrite <- (map_id (actions node')) at 2.
      apply map_ext_in. intros a Ha.
      rewrite Hact in Ha. apply command_actions_dest in Ha.
      destruct (dest a) as [d0|]; [| reflexivity].
      rewrite lookup_insert_ne; [now rewrite lookup_empty |].
      congruence.
    + rewrite Hdef. rewrite <- insert_union_l.
      now rewrite (left_id_L ∅ (∪)).
Qed.

Lemma register_getitem_witness :
  ∃ w' child node,
    (0 < next_id fresh_root_world)%nat
    ∧ Command_register sample_K (sample_env false None) cmd_list_nodes 0
        (Some "nodes") fresh_root_world = (Ok tt, w')
    ∧ ArgumentParser_getitem (sample_env false None) 0 "nodes" w'
      = (Ok child, w')
    ∧ parsers w' !! child = Some node
    ∧ command_parser sample_K (sample_env false None) cmd_list_nodes child
        node.
Proof.
  assert (Hlt : (0 < next_id fresh_root_world)%nat) by (vm_compute; lia).
  eassert (H : Command_register sample_K (sample_env false None)
                 cmd_list_nodes 0 (Some "nodes") fresh_root_world
               = (Ok tt, _)) by (vm_compute; reflexivity).
  destruct (register_getitem _ _ _ _ _ _ _ Hlt H)
    as (child & node & Hget & _ & Hnode & Hcp).
  eexists _, child, node. split; [exact Hlt |]. split; [exact H |].
  split; [exact Hget |]. split; [exact Hnode | exact Hcp].
Defined.

(** [parser[name]] for a name that is not registered raises [KeyError]
    and leaves the store as it is when the parser has its registry. *)
Lemma getitem_missing_registry (env : Env) (self : nat) (nm : string)
    (w : World) (node : Parser) (r : nat) (reg : Registry) :
  parsers w !! self = Some node →
  priv_subparsers node = Some r →
  registries w !! r = Some reg →
  argparse.assoc_get nm (reg_choices reg) = None →
  ArgumentParser_getitem env self nm w
  = (Raise (Exception "KeyError" (PyStr.repr nm)), w).
Proof.
  intros Hn Hp Hr Hc.
  unfold ArgumentParser_getitem, ArgumentParser_subparsers.
  unfold bind, get_parser, get_registry. rewrite Hn, Hp. cbn.
  now rewrite Hr, Hc.
Qed.

(** X3: [parser[name]] on a parser that never had sub-commands: the lookup
    raises [KeyError], and it leaves behind the empty registry that the
    [subparsers] property made on the way. *)
Theorem getitem_missing (env : Env) (self : nat) (nm : string)
    (w : World) (node : Parser) :
  parsers w !! self = Some node →
  priv_subparsers node = None →
  base_subparsers node = None →
  ∃ w',
    ArgumentParser_getitem env self nm w
    = (Raise (Exception "KeyError" (PyStr.repr nm)), w')
    ∧ parsers w' !! self
      = Some (with_priv_subparsers
                (argparse.with_base_subparsers node
                   (Some ("sub-commands", next_id w)))
                (Some (next_id w)))
    ∧ registries w' !! next_id w = Some (empty_registry node)
    ∧ trace w' = trace w
    ∧ ∀ nm', ArgumentParser_getitem env self nm' w'
             = (Raise (Exception "KeyError" (PyStr.repr nm')), w').
Proof.
  intros Hn Hp Hb.
  unfold ArgumentParser_getitem at 1, ArgumentParser_subparsers.
  unfold argparse.add_subparsers.
  unfold bind, get_parser, get_registry, fresh, put_parser, put_registry,
    ret, raise.
  rewrite Hn, Hp. cbn. rewrite Hn, Hb. cbn.
  rewrite lookup_insert_eq. cbn. rewrite lookup_insert_eq. cbn.
  rewrite lookup_insert_eq. cbn.
  eexists. split; [reflexivity |]. cbn.
  rewrite !lookup_insert_eq. repeat split.
  intros nm'.
  eapply getitem_missing_registry; cbn;
    [apply lookup_insert_eq | reflexivity | apply lookup_insert_eq
    | reflexivity].
Qed.

Lemma getitem_missing_witness :
  ∃ w',
    (parsers fresh_root_world !! 0 = Some fresh_root
     ∧ priv_subparsers fresh_root = None
     ∧ base_subparsers fresh_root = None)
    ∧ ArgumentParser_getitem (sample_env false None) 0 "list"
        fresh_root_world
      = (Raise (Exception "KeyError" (PyStr.repr "list")), w')
    ∧ registries w' !! 1 = Some (empty_registry fresh_root).
Proof.
  assert (H0 : parsers fresh_root_world !! 0 = Some fresh_root)
    by (vm_compute; reflexivity).
  destruct (getitem_missing (sample_env false None) 0 "list"
              fresh_root_world fresh_root H0 eq_refl eq_refl)
    as (w' & Hget & _ & Hreg & _).
  exists w'. split; [now repeat split |]. split; [exact Hget | exact Hreg].
Defined.

(** X4: the help of a registered command lists the options of its class
    after the help option, in the order in which the constructors along
    the method resolution order add them: for a profile-bound table
    command [--output-format] comes before [--profile-name]. *)
Theorem registered_options (K : Collaborators) (env : Env)
    (cls : CommandClass) (parent : nat) (nm : option string)
    (w w' : World) :
  Command_register K env cls parent nm w = (Ok tt, w') →
  ∃ child node,
    parsers w' !! child = Some node
    ∧ argparse.help_listing node
      = ["-h"; "--help"] ++ listed_options (cls_base cls)
    ∧ defaults node !! "execute"
      = Some (VCommand {| inst_cls := cls; inst_parser := child |}).
Proof.
  intros H. apply register_child in H as (child & node & Hn & Hcp).
  destruct Hcp as (Hact & Hdef & _ & _).
  exists child, node. split; [exact Hn |]. split.
  - unfold argparse.help_listing. rewrite Hact.
    now destruct (cls_base cls).
  - rewrite Hdef. apply lookup_insert_eq.
Qed.

Lemma registered_options_witness :
  ∃ w' child node,
    Command_register sample_K (sample_env false None) cmd_list_nodes 0
      (Some "nodes") fresh_root_world = (Ok tt, w')
    ∧ parsers w' !! child = Some node
    ∧ argparse.help_listing node
      = ["-h"; "--help"; "--output-format"; "--profile-name"].
Proof.
  eassert (H : Command_register sample_K (sample_env false None)
                 cmd_list_nodes 0 (Some "nodes") fresh_root_world
               = (Ok tt, _)) by (vm_compute; reflexivity).
  destruct (registered_options _ _ _ _ _ _ _ H)
    as (child & node & Hnode & Hhelp & _).
  eexists _, child, node. split; [exact H |]. split; [exact Hnode |].
  exact Hhelp.
Defined.

(** ** Calls of profile-bound commands *)

(** X5: a profile-bound command whose session or origin cannot be made does
    not run: the exception of the collaborator comes out of the call as
    it is, and [execute] is not called.  Nothing is looked up once the
    session has failed. *)
Theorem origin_call_failure (K : Collaborators) (self : Instance)
    (options : Namespace) (w : World) (profile : Value) :
  options !! "profile_name" = Some profile →
  (∀ e,
     fromProfileName K profile = Raise e →
     OriginCommand_call K self options w
     = (Raise e, log w [EvFromProfileName profile])
     ∧ OriginTableCommand_call K self options w
       = (Raise e, log w [EvFromProfileName profile]))
  ∧ (∀ session e,
       fromProfileName K profile = Ok session →
       Origin_new K session = Raise e →
       OriginCommand_call K self options w
       = (Raise e, log w [EvFromProfileName profile; EvOrigin session])
       ∧ OriginTableCommand_call K self options w
         = (Raise e, log w [EvFromProfileName profile; EvOrigin session])).
Proof.
  intros Hp. split.
  - intros e He.
    unfold OriginCommand_call, OriginTableCommand_call, getattr, extern,
      bind, emit, ret.
    rewrite Hp, He. cbn. now unfold log.
  - intros session e Hs He.
    unfold OriginCommand_call, OriginTableCommand_call, getattr, extern,
      bind, emit, ret.
    rewrite Hp, Hs, He. cbn. unfold log. cbn.
    now rewrite <- !app_assoc.
Qed.

Lemma origin_call_failure_witness :
  <["profile_name" := VStr "nowhere"]> sample_options !! "profile_name"
  = Some (VStr "nowhere")
  ∧ OriginCommand_call sample_K sample_instance
      (<["profile_name" := VStr "nowhere"]> sample_options) empty_world
    = (Raise (Exception "ProfileNotFound" "no such profile"),
       log empty_world [EvFromProfileName (VStr "nowhere")]).
Proof.
  match goal with
  | |- ?A ∧ _ => assert (Hp : A) by (vm_compute; reflexivity)
  end.
  split; [exact Hp |].
  destruct (origin_call_failure sample_K sample_instance
              (<["profile_name" := VStr "nowhere"]> sample_options)
              empty_world (VStr "nowhere") Hp) as [H _].
  exact (proj1 (H _ eq_refl)).
Defined.

(** X6: a profile-bound command that is called with options that hold
    no profile name fails with [AttributeError] before anything is
    opened: no session, no origin, no run. *)
Theorem origin_call_missing_attribute (K : Collaborators) (self : Instance)
    (options : Namespace) (w : World) :
  options !! "profile_name" = None →
  OriginCommand_call K self options w
  = (Raise (Exception "AttributeError"
              ("'Namespace' object has no attribute "
               +:+ PyStr.repr "profile_name")), w)
  ∧ OriginTableCommand_call K self options w
    = (Raise (Exception "AttributeError"
                ("'Namespace' object has no attribute "
                 +:+ PyStr.repr "profile_name")), w).
Proof.
  intros Hp.
  unfold OriginCommand_call, OriginTableCommand_call, getattr, bind.
  now rewrite Hp.
Qed.

Lemma origin_call_missing_attribute_witness :
  (∅ : Namespace) !! "profile_name" = None
  ∧ OriginCommand_call sample_K sample_instance ∅ empty_world
    = (Raise (Exception "AttributeError"
                ("'Namespace' object has no attribute "
                 +:+ PyStr.repr "profile_name")), empty_world).
Proof.
  split; [reflexivity |].
  exact (proj1 (origin_call_missing_attribute sample_K sample_instance ∅
                  empty_world eq_refl)).
Defined.

(** ** The shell command *)

(** X10: without a profile the shell opens no session: the namespace of the
    interpreter is empty, and the only thing written is the welcome
    line, in colour, when both standard input and standard output are
    terminals. *)
Theorem shell_without_profile (K : Collaborators) (env : Env)
    (term : Terminal) (options : Namespace) (w : World) :
  options !! "profile_name" = Some VNone →
  cmd_shell_call K env term options w
  = (Ok (if stdin_isatty term then
           if IPython_importable term then StartIPython []
           else Interact " " []
         else Exec (stdin_text term) []),
     log w
       (if stdin_isatty term && stdout_isatty env then
          [EvWrite Stdout
             (Colorclass.escape "95" +:+ "Welcome to the MAAS shell."
              +:+ Colorclass.escape "39" +:+ PyStr.nl)]
        else [])).
Proof.
  intros Hp. unfold cmd_shell_call, getattr, bind. rewrite Hp. cbn.
  destruct (stdin_isatty term) eqn:Hin; cbn.
  - unfold colorized. destruct (stdout_isatty env) eqn:Hout; cbn.
    + destruct (IPython_importable term); reflexivity.
    + unfold log. rewrite app_nil_r.
      destruct (IPython_importable term); now destruct w.
  - unfold log. rewrite app_nil_r. now destruct w.
Qed.

Lemma shell_without_profile_witness :
  ({["profile_name" := VNone]} : Namespace) !! "profile_name" = Some VNone
  ∧ cmd_shell_call sample_K (sample_env true None)
      {| stdin_isatty := true; IPython_importable := false;
         stdin_text := "" |}
      {["profile_name" := VNone]} empty_world
    = (Ok (Interact " " []),
       log empty_world
         [EvWrite Stdout
            (Colorclass.escape "95" +:+ "Welcome to the MAAS shell."
             +:+ Colorclass.escape "39" +:+ PyStr.nl)]).
Proof.
  split; [reflexivity |].
  exact (shell_without_profile sample_K (sample_env true None)
           {| stdin_isatty := true; IPython_importable := false;
              stdin_text := "" |}
           {["profile_name" := VNone]} empty_world eq_refl).
Defined.

Lemma bind_extern_Ok {A B} (ev : Event) (r : Res A) (a : A) (k : A → M B)
    (w : World) :
  r = Ok a → bind (extern ev r) k w = k a (log w [ev]).
Proof. intros ->. reflexivity. Qed.

Lemma bind_extern_Raise {A B} (ev : Event) (r : Res A) (e : Exn)
    (k : A → M B) (w : World) :
  r = Raise e → bind (extern ev r) k w = (Raise e, log w [ev]).
Proof. intros ->. reflexivity. Qed.

Lemma for_each_print (env : Env) (lines : list string) (w : World) :
  for_each lines (fun line => print (colorized env line)) w
  = (Ok tt,
     log w (map (fun line => EvWrite Stdout (colorized env line +:+ PyStr.nl))
              lines)).
Proof.
  revert w. induction lines as [|l lines IH]; intros w; cbn [for_each map].
  - now rewrite log_nil.
  - unfold bind at 1. unfold print at 1, emit at 1.
    change {| parsers := parsers w; registries := registries w;
              next_id := next_id w;
              trace := trace w ++ [EvWrite Stdout (colorized env l +:+ PyStr.nl)] |}
      with (log w [EvWrite Stdout (colorized env l +:+ PyStr.nl)]).
    rewrite IH. now rewrite log_log.
Qed.

(** X11: with a profile, at a terminal: the session and the origin are made
    before anything is written; the banner is then printed in colour, and
    it lists the origin before the session, each name moved to the right
    of a field of ten characters.  The interpreter gets both objects:
    IPython when it can be imported, the plain console otherwise. *)
Theorem shell_banner (K : Collaborators) (env : Env) (term : Terminal)
    (options : Namespace) (w : World) (p : string) (session : Session)
    (origin : Origin) :
  options !! "profile_name" = Some (VStr p) →
  fromProfileName K (VStr p) = Ok session →
  Origin_new K session = Ok origin →
  stdin_isatty term = true →
  stdout_isatty env = true →
  cmd_shell_call K env term options w
  = (Ok ((if IPython_importable term then StartIPython else Interact " ")
           [("session", VarSession session); ("origin", VarOrigin origin)]),
     log w
       ([EvFromProfileName (VStr p); EvOrigin session]
        ++ map (fun line =>
                  EvWrite Stdout (Colorclass.value_colors line +:+ PyStr.nl))
             ["{automagenta}Welcome to the MAAS shell.{/automagenta}";
              ""; "Predefined variables:"; "";
              "{autoyellow}    origin{/autoyellow}: "
              +:+ "A `viscera` origin, configured for " +:+ p +:+ ".";
              "{autoyellow}   session{/autoyellow}: "
              +:+ "A `bones` session, configured for " +:+ p +:+ "."])).
Proof.
  intros Hp Hs Ho Hin Hout.
  unfold cmd_shell_call, getattr.
  rewrite Hp. rewrite bind_ret_l.
  rewrite bind_assoc. rewrite (bind_extern_Ok _ _ _ _ _ Hs).
  rewrite bind_assoc. rewrite (bind_extern_Ok _ _ _ _ _ Ho).
  rewrite bind_ret_l. rewrite Hin, Hout. cbn [andb fst snd].
  unfold bind at 1. rewrite for_each_print. rewrite !log_log.
  unfold colorized. rewrite Hout.
  destruct (IPython_importable term); reflexivity.
Qed.

Lemma shell_banner_witness :
  ∃ evs,
    cmd_shell_call sample_K (sample_env true None)
      {| stdin_isatty := true; IPython_importable := true;
         stdin_text := "" |}
      {["profile_name" := VStr "prod"]} empty_world
    = (Ok (StartIPython [("session", VarSession 7);
                         ("origin", VarOrigin 107)]),
       log empty_world evs)
    ∧ length evs = 8.
Proof.
  eexists. split.
  - exact (shell_banner sample_K (sample_env true None)
             {| stdin_isatty := true; IPython_importable := true;
                stdin_text := "" |}
             {["profile_name" := VStr "prod"]} empty_world "prod" 7 107
             eq_refl eq_refl eq_refl eq_refl eq_refl).
  - reflexivity.
Defined.

Lemma session_origin_quiet {A} (K : Collaborators) (v : Value)
    (k : Session → Origin → A) (w w1 : World) (r : Res A) :
  (let! session :=
     extern (EvFromProfileName v) (fromProfileName K v) in
   let! origin := extern (EvOrigin session) (Origin_new K session) in
   ret (k session origin)) w = (r, w1) →
  ∃ evs, trace w1 = trace w ++ evs ∧ List.filter is_write evs = [].
Proof.
  destruct (fromProfileName K v) as [ss|e].
  - rewrite (bind_extern_Ok _ _ _ _ _ eq_refl).
    destruct (Origin_new K ss) as [o|e].
    + rewrite (bind_extern_Ok _ _ _ _ _ eq_refl). intros H. inversion H; subst.
      exists [EvFromProfileName v; EvOrigin ss]. cbn.
      now rewrite <- app_assoc.
    + rewrite (bind_extern_Raise _ _ _ _ _ eq_refl). intros H. inversion H; subst.
      exists [EvFromProfileName v; EvOrigin ss]. cbn.
      now rewrite <- app_assoc.
  - rewrite (bind_extern_Raise _ _ _ _ _ eq_refl). intros H. inversion H; subst.
    now exists [EvFromProfileName v].
Qed.

(** X12: a script piped in on standard input is run in the namespace without
    a word of greeting: nothing is written, whether standard output is a
    terminal or not and however the call ends, and when the call returns
    it is the text of standard input that is executed. *)
Theorem shell_script (K : Collaborators) (env : Env) (term : Terminal)
    (options : Namespace) (w w' : World) (r : Res Interpreter) :
  stdin_isatty term = false →
  cmd_shell_call K env term options w = (r, w') →
  (∃ evs,
     trace w' = trace w ++ evs ∧ List.filter is_write evs = [])
  ∧ (∀ i, r = Ok i → ∃ ns, i = Exec (stdin_text term) ns).
Proof.
  intros Hin. unfold cmd_shell_call, getattr.
  destruct (options !! "profile_name") as [v|].
  2: { intros H. inversion H; subst. split; [| discriminate].
       exists []. now rewrite app_nil_r. }
  rewrite bind_ret_l. unfold bind at 1.
  match goal with
  | |- match ?c w with _ => _ end = _ → _ =>
      assert (Hq : ∀ r1 w1, c w = (r1, w1) →
                ∃ evs, trace w1 = trace w ++ evs
                       ∧ List.filter is_write evs = []);
      [| destruct (c w) as [[vars|e] w1] eqn:Hc]
  end.
  - intros r1 w1.
    destruct v; try apply session_origin_quiet.
    intros H. inversion H; subst. exists []. now rewrite app_nil_r.
  - rewrite Hin. cbn. intros H. inversion H; subst.
    split; [exact (Hq _ _ eq_refl) |].
    intros i Hi. inversion Hi. now eexists.
  - intros H. inversion H; subst.
    split; [exact (Hq _ _ eq_refl) | discriminate].
Qed.

Lemma shell_script_witness :
  ∃ w',
    cmd_shell_call sample_K (sample_env true None)
      {| stdin_isatty := false; IPython_importable := true;
         stdin_text := "print(origin)" |}
      {["profile_name" := VStr "prod"]} empty_world
    = (Ok (Exec "print(origin)"
             [("session", VarSession 7); ("origin", VarOrigin 107)]), w')
    ∧ ∃ evs, trace w' = trace empty_world ++ evs
             ∧ List.filter is_write evs = [].
Proof.
  eassert (H : cmd_shell_call sample_K (sample_env true None)
                 {| stdin_isatty := false; IPython_importable := true;
                    stdin_text := "print(origin)" |}
                 {["profile_name" := VStr "prod"]} empty_world
               = (Ok _, _)) by (vm_compute; reflexivity).
  eexists. split; [exact H |].
  exact (proj1 (shell_script sample_K (sample_env true None)
                  {| stdin_isatty := false; IPython_importable := true;
                     stdin_text := "print(origin)" |}
                  _ _ _ _ eq_refl H)).
Defined.

(** X9: the shell does not require a profile.  With no arguments the
    parser of the shell command returns options in which the profile
    name is that of the default profile, or [None] when there is no
    default; the command to execute is the shell. *)
Theorem shell_profile_optional (K : Collaborators) (env : Env) (self : nat)
    (node : Parser) (w : World) :
  parsers w !! self = Some node →
  command_parser K env cmd_shell self node →
  ∃ options,
    ArgumentParser_parse_args env self [] w = (Ok options, w)
    ∧ options !! "profile_name"
      = Some match PROFILE_DEFAULT env with
             | None => VNone
             | Some d => VStr (name d)
             end
    ∧ options !! "execute"
      = Some (VCommand {| inst_cls := cmd_shell; inst_parser := self |}).
Proof.
  intros Hp (Hact & Hdef & Hbase & Hpriv).
  rewrite (node_parse_args env self node [] w Hp).
  cbn [argparse.prescan argparse.loop].
  exists (argparse.init_namespace node). split.
  - unfold bind at 1. unfold bind at 1. unfold ret at 1.
    rewrite (node_finish K env cmd_shell self node Hact).
    unfold argparse.missing. rewrite Hact. reflexivity.
  - unfold argparse.init_namespace. rewrite Hact, Hdef.
    unfold command_actions, command_defaults, shell_action.
    cbn [cls_base cmd_shell].
    destruct (PROFILE_DEFAULT env) as [d|]; split; vm_compute; reflexivity.
Qed.

Lemma shell_profile_optional_witness :
  ∃ w node options,
    parsers w !! 2 = Some node
    ∧ command_parser sample_K (sample_env false None) cmd_shell 2 node
    ∧ ArgumentParser_parse_args (sample_env false None) 2 [] w
      = (Ok options, w)
    ∧ options !! "profile_name" = Some VNone.
Proof.
  pose (w := snd (Command_register sample_K (sample_env false None)
                    cmd_shell 0 None fresh_root_world)).
  eassert (Hn : parsers w !! 2 = Some _) by (vm_compute; reflexivity).
  match type of Hn with
  | _ = Some ?n =>
      assert (Hcp : command_parser sample_K (sample_env false None)
                      cmd_shell 2 n)
        by (repeat split; vm_compute; reflexivity)
  end.
  destruct (shell_profile_optional sample_K (sample_env false None) 2 _ w
              Hn Hcp) as (options & Hparse & Hprofile & _).
  eexists w, _, options.
  split; [exact Hn |]. split; [exact Hcp |]. split; [exact Hparse |].
  exact Hprofile.
Defined.

(** ** What computations add to the trace *)

Section Emits.

Variables ok err : Event → Prop.
Hypothesis ok_err : ∀ ev, ok ev → err ev.

Lemma emits_ret {A} (a : A) : emits ok err (ret a).
Proof. intros w. exists []. cbn. now rewrite app_nil_r. Qed.

Lemma emits_raise {A} (e : Exn) : emits ok err (@raise A e).
Proof. intros w. exists []. cbn. now rewrite app_nil_r. Qed.

Lemma emits_bind {A B} (c : M A) (k : A → M B) :
  emits ok err c → (∀ a, emits ok err (k a)) → emits ok err (bind c k).
Proof.
  intros Hc Hk w. unfold bind.
  destruct (Hc w) as (e1 & Ht1 & H1).
  destruct (c w) as [[a|e] w1]; cbn in *.
  - destruct (Hk a w1) as (e2 & Ht2 & H2).
    exists (e1 ++ e2). rewrite Ht2, Ht1, app_assoc. split; [reflexivity |].
    destruct (fst (k a w1)); apply Forall_app; split; try assumption.
    eapply Forall_impl; [exact H1 | exact ok_err].
  - now exists e1.
Qed.

Lemma emits_emit (ev : Event) : ok ev → emits ok err (emit ev).
Proof. intros H w. exists [ev]. cbn. split; [reflexivity | now constructor]. Qed.

Lemma emits_emit_raise {A} (ev : Event) (e : Exn) :
  err ev → emits ok err (emit ev ;; @raise A e).
Proof. intros H w. exists [ev]. cbn. split; [reflexivity | now constructor]. Qed.

Lemma emits_extern {A} (ev : Event) (r : Res A) :
  ok ev → emits ok err (extern ev r).
Proof.
  intros H w. exists [ev]. cbn. split; [reflexivity |].
  destruct r; constructor; auto.
Qed.

Lemma emits_get_parser (p : nat) : emits ok err (get_parser p).
Proof.
  intros w. exists []. unfold get_parser.
  destruct (parsers w !! p); cbn; now rewrite app_nil_r.
Qed.

Lemma emits_put_parser (p : nat) (node : Parser) :
  emits ok err (put_parser p node).
Proof. intros w. exists []. cbn. now rewrite app_nil_r. Qed.

Lemma emits_get_registry (r : nat) : emits ok err (get_registry r).
Proof.
  intros w. exists []. unfold get_registry.
  destruct (registries w !! r); cbn; now rewrite app_nil_r.
Qed.

Lemma emits_put_registry (r : nat) (reg : Registry) :
  emits ok err (put_registry r reg).
Proof. intros w. exists []. cbn. now rewrite app_nil_r. Qed.

Lemma emits_fresh : emits ok err fresh.
Proof. intros w. exists []. cbn. now rewrite app_nil_r. Qed.

Lemma emits_for_each {A} (l : list A) (body : A → M unit) :
  (∀ x, emits ok err (body x)) → emits ok err (for_each l body).
Proof.
  intros H. induction l as [|x l IH]; cbn [for_each].
  - apply emits_ret.
  - apply emits_bind; [apply H | intros _; exact IH].
Qed.

Hypothesis err_write : ∀ m, err (EvWrite Stderr m).
Hypothesis err_help : ∀ p, err (EvPrintHelp Stdout p).

Lemma emits_exit {A} (status : nat) (message : string) :
  emits ok err (@argparse.exit A status message).
Proof.
  intros w. unfold argparse.exit.
  destruct (String.eqb message "").
  - exists []. cbn. now rewrite app_nil_r.
  - exists [EvWrite Stderr message]. cbn. split; [reflexivity |].
    constructor; [apply err_write | constructor].
Qed.

Lemma emits_error (env : Env) (self : nat) (message : string) :
  emits ok err (ArgumentParser_error env self message).
Proof. apply emits_exit. Qed.

Lemma emits_fail {A} (env : Env) (self : nat) (message : string) :
  emits ok err (@argparse.fail (ArgumentParser_error env) A self message).
Proof.
  unfold argparse.fail. apply emits_bind; [apply emits_error |].
  intros [].
Qed.

End Emits.

Ltac emits_step :=
  first
    [ apply emits_ret
    | apply emits_raise
    | apply emits_get_parser
    | apply emits_put_parser
    | apply emits_get_registry
    | apply emits_put_registry
    | apply emits_fresh
    | apply emits_exit; assumption
    | apply emits_error; assumption
    | apply emits_fail; assumption
    | apply emits_bind; [assumption | | intros ?]
    | match goal with
      | |- emits _ _ (match ?x with _ => _ end) => destruct x
      | |- emits _ _ (if ?x then _ else _) => destruct x
      end ].

Ltac emits_auto := repeat emits_step.

Section EmitsParser.

Variables ok err : Event → Prop.
Hypothesis ok_err : ∀ ev, ok ev → err ev.
Hypothesis err_write : ∀ m, err (EvWrite Stderr m).
Hypothesis err_help : ∀ p, err (EvPrintHelp Stdout p).
Variable env : Env.

Lemma emits_new (p : string) (d e : option string) :
  emits ok err (argparse.new p d e).
Proof. unfold argparse.new. emits_auto. Qed.

Lemma emits_add_argument (p : nat) (spec : argparse.ArgSpec) :
  emits ok err (argparse.add_argument p spec).
Proof. unfold argparse.add_argument. emits_auto. Qed.

Lemma emits_set_defaults (p : nat) (kw : list (string * Value)) :
  emits ok err (argparse.set_defaults p kw).
Proof. unfold argparse.set_defaults. emits_auto. Qed.

Lemma emits_add_subparsers (p : nat) (title : string) :
  emits ok err (argparse.add_subparsers (ArgumentParser_error env) p title).
Proof. unfold argparse.add_subparsers. emits_auto. Qed.

Lemma emits_add_parser (r : nat) (nm : string) (h : Help)
    (d e : option string) :
  emits ok err (argparse.add_parser r nm h d e).
Proof.
  unfold argparse.add_parser.
  apply emits_bind; [assumption | emits_auto | intros reg].
  apply emits_bind; [assumption | now apply emits_new | intros child].
  emits_auto.
Qed.

Lemma emits_subparsers (p : nat) :
  emits ok err (ArgumentParser_subparsers env p).
Proof.
  unfold ArgumentParser_subparsers.
  apply emits_bind; [assumption | emits_auto | intros node].
  destruct (priv_subparsers node); [emits_auto |].
  apply emits_bind; [assumption | now apply emits_add_subparsers | intros r].
  emits_auto.
Qed.

Lemma emits_getitem (p : nat) (nm : string) :
  emits ok err (ArgumentParser_getitem env p nm).
Proof.
  unfold ArgumentParser_getitem.
  apply emits_bind; [assumption | now apply emits_subparsers | intros r].
  emits_auto.
Qed.

Lemma emits_construct (K : Collaborators) (cls : CommandClass) (p : nat) :
  emits ok err (construct K env cls p).
Proof.
  unfold construct, OriginCommandBase_init, TableCommand_init,
    cmd_shell_init, Command_init.
  destruct (cls_base cls), (PROFILE_DEFAULT env);
    repeat first
      [ apply emits_ret
      | apply emits_add_argument
      | apply emits_set_defaults
      | apply emits_bind; [assumption | | intros ?] ].
Qed.

Lemma emits_register (K : Collaborators) (cls : CommandClass) (p : nat)
    (nm : option string) :
  emits ok err (Command_register K env cls p nm).
Proof.
  unfold Command_register.
  apply emits_bind; [assumption | now apply emits_subparsers | intros r].
  apply emits_bind; [assumption | now apply emits_add_parser | intros c].
  apply emits_bind; [assumption | now apply emits_construct | intros i].
  now apply emits_set_defaults.
Qed.

Lemma emits_resolve (p : nat) (path : list string) :
  emits ok err (resolve env p path).
Proof.
  revert p. induction path as [|n path IH]; intros p; cbn [resolve].
  - apply emits_ret.
  - apply emits_bind; [assumption | now apply emits_getitem | intros c].
    apply IH.
Qed.

Lemma emits_module_register (K : Collaborators) (m : list Registration)
    (p : nat) :
  emits ok err (module_register K env m p).
Proof.
  unfold module_register. apply emits_for_each; [assumption |].
  intros r.
  apply emits_bind; [assumption | now apply emits_resolve | intros n].
  now apply emits_register.
Qed.

Lemma emits_add_group (p : nat) (nm h : string) :
  emits ok err (add_group env p nm h).
Proof.
  unfold add_group.
  apply emits_bind; [assumption | now apply emits_subparsers | intros r].
  apply emits_bind; [assumption | now apply emits_add_parser | intros c].
  apply emits_ret.
Qed.

End EmitsParser.

Section EmitsParsing.

Variables ok err : Event → Prop.
Hypothesis ok_err : ∀ ev, ok ev → err ev.
Hypothesis err_write : ∀ m, err (EvWrite Stderr m).
Hypothesis err_help : ∀ p, err (EvPrintHelp Stdout p).
Variable env : Env.

Let self_error := ArgumentParser_error env.

Lemma emits_argument_error {A} (self : nat) (a : Action) (m : string) :
  emits ok err (@argparse.argument_error self_error A self a m).
Proof. unfold argparse.argument_error. now apply emits_fail. Qed.

Lemma emits_get_value (self : nat) (a : Action) (arg : string) :
  emits ok err (argparse.get_value self_error self a arg).
Proof.
  unfold argparse.get_value.
  destruct (atype a) as [t|]; [| apply emits_ret].
  destruct (convert t arg); [apply emits_ret | apply emits_argument_error].
Qed.

Lemma emits_check_value (self : nat) (a : Action) (v : Value) :
  emits ok err (argparse.check_value self_error self a v).
Proof.
  unfold argparse.check_value.
  destruct (choices a) as [l|]; [| apply emits_ret].
  destruct (bool_decide (v ∈ l));
    [apply emits_ret | apply emits_argument_error].
Qed.

Lemma emits_take_action (self : nat) (st : argparse.PState)
    (t : argparse.Taken) :
  emits ok err (argparse.take_action self_error self st t).
Proof.
  unfold argparse.take_action.
  destruct (kind (fst (fst t))).
  - destruct (snd (fst t)) as [|arg [|]];
      try apply emits_argument_error.
    apply emits_bind; [assumption | apply emits_get_value | intros v].
    apply emits_bind; [assumption | apply emits_check_value | intros _].
    apply emits_ret.
  - apply emits_ret.
  - intros w. exists [EvPrintHelp Stdout self]. cbn.
    split; [reflexivity |]. constructor; [apply err_help | constructor].
Qed.

Lemma emits_take_all (self : nat) (l : list argparse.Taken)
    (st : argparse.PState) :
  emits ok err (argparse.take_all self_error self st l).
Proof.
  revert st. induction l as [|t l IH]; intros st; cbn [argparse.take_all].
  - apply emits_ret.
  - apply emits_bind; [assumption | apply emits_take_action | intros st'].
    apply IH.
Qed.

Lemma emits_consume_explicit (self : nat) (node : Parser) (expl : string) :
  ∀ (a : Action) (o : string) (queue : list argparse.Taken),
    emits ok err
      (argparse.consume_explicit self_error self node a o expl queue).
Proof.
  induction expl as [|c tail IH]; intros a o queue;
    cbn [argparse.consume_explicit].
  - destruct (argparse.arity a) as [|[|n]]; try apply emits_ret;
      destruct (argparse.single_dash o); apply emits_argument_error.
  - destruct (argparse.arity a) as [|[|n]]; try apply emits_ret;
      (destruct (argparse.single_dash o); [| apply emits_argument_error];
       destruct (argparse.find_option node _);
         [| apply emits_argument_error];
       destruct tail; [destruct (_ =? _)%nat; apply emits_ret | apply IH]).
Qed.

Lemma emits_convert_defaults (self : nat) (l : list Action)
    (st : argparse.PState) :
  emits ok err (argparse.convert_defaults self_error self l st).
Proof.
  revert st. induction l as [|a l IH]; intros st;
    cbn [argparse.convert_defaults].
  - apply emits_ret.
  - destruct (argparse.was_seen st a || required a); [apply IH |].
    destruct (default a); try apply IH.
    destruct (dest a); [| apply IH].
    destruct (bool_decide _); [| apply IH].
    apply emits_bind; [assumption | apply emits_get_value | intros v].
    apply IH.
Qed.

Lemma emits_finish (self : nat) (node : Parser) (st : argparse.PState) :
  emits ok err (argparse.finish self_error self node st).
Proof.
  unfold argparse.finish.
  apply emits_bind; [assumption | apply emits_convert_defaults | intros st'].
  destruct (argparse.missing node st');
    [apply emits_ret | now apply emits_fail].
Qed.

Lemma emits_prescan (self : nat) (node : Parser) (args : list string) :
  emits ok err (argparse.prescan self_error self node args).
Proof.
  induction args as [|tok rest IH]; cbn [argparse.prescan].
  - apply emits_ret.
  - destruct (String.eqb tok "--"); [apply emits_ret |].
    destruct (argparse.parse_optional node tok); try exact IH.
    now apply emits_fail.
Qed.

Lemma emits_expected_one {A} (self : nat) (a : Action) :
  emits ok err (@argparse.expected_one self_error A self a).
Proof. apply emits_argument_error. Qed.

Lemma emits_invalid_command {A} (self : nat) (reg : Registry)
    (tok : string) :
  emits ok err (@argparse.invalid_command self_error A self reg tok).
Proof. unfold argparse.invalid_command. now apply emits_fail. Qed.

Lemma emits_loop (args : list string) :
  ∀ (self : nat) (node : Parser) (st : argparse.PState)
    (waiting : option (list argparse.Taken * Action * string)),
    emits ok err (argparse.loop self_error self node st waiting args).
Proof.
  induction args as [|tok rest IH]; intros self node st waiting;
    cbn [argparse.loop].
  - destruct waiting as [[[q a] o]|];
      [apply emits_expected_one | apply emits_finish].
  - assert (Hsub : ∀ r,
              emits ok err
                (let! reg := get_registry r in
                 match argparse.assoc_get tok (reg_choices reg) with
                 | None => argparse.invalid_command self_error self reg tok
                 | Some child =>
                     let! cnode := get_parser child in
                     argparse.prescan self_error child cnode rest ;;
                     let! sub :=
                       argparse.loop self_error child cnode
                         (argparse.init cnode) None rest in
                     argparse.finish self_error self node
                       (argparse.merge st sub)
                 end)).
    { intros r.
      apply emits_bind; [assumption | apply emits_get_registry | intros reg].
      destruct (argparse.assoc_get tok (reg_choices reg)) as [child|];
        [| apply emits_invalid_command].
      apply emits_bind; [assumption | apply emits_get_parser | intros cn].
      apply emits_bind; [assumption | apply emits_prescan | intros _].
      apply emits_bind; [assumption | apply IH | intros sub].
      apply emits_finish. }
    destruct waiting as [[[q a] o]|].
    + destruct (String.eqb tok "--"); [apply emits_expected_one |].
      destruct (argparse.parse_optional node tok);
        try apply emits_expected_one.
      apply emits_bind; [assumption | apply emits_take_all | intros st'].
      apply IH.
    + destruct (String.eqb tok "--").
      * destruct (base_subparsers node) as [[t r]|];
          [destruct rest; [apply emits_finish | apply Hsub]
          | apply emits_finish].
      * destruct (argparse.parse_optional node tok) as [|a o [e|]|l|].
        -- destruct (base_subparsers node) as [[t r]|];
             [apply Hsub | apply IH].
        -- apply emits_bind;
             [assumption | apply emits_consume_explicit | intros q].
           destruct (snd q) as [[a' o']|]; [apply IH |].
           apply emits_bind; [assumption | apply emits_take_all | intros ?].
           apply IH.
        -- destruct (_ =? _)%nat; [| apply IH].
           apply emits_bind; [assumption | apply emits_take_all | intros ?].
           apply IH.
        -- now apply emits_fail.
        -- apply IH.
Qed.

Lemma emits_parse_args (self : nat) (args : list string) :
  emits ok err (ArgumentParser_parse_args env self args).
Proof.
  unfold ArgumentParser_parse_args, argparse.parse_args,
    argparse.parse_known_args.
  apply emits_bind; [assumption | | intros r].
  - apply emits_bind; [assumption | apply emits_get_parser | intros node].
    apply emits_bind; [assumption | apply emits_prescan | intros _].
    apply emits_loop.
  - destruct (snd r); [apply emits_ret | now apply emits_fail].
Qed.

End EmitsParsing.

Lemma emits_silent {A} (c : M A) (w w' : World) (a : A) :
  emits nothing anything c → c w = (Ok a, w') → trace w' = trace w.
Proof.
  intros H Hc. destruct (H w) as (evs & Ht & Hf). rewrite Hc in Ht, Hf.
  cbn in Ht, Hf. destruct evs as [|ev evs]; [now rewrite app_nil_r in Ht |].
  inversion Hf as [|? ? Hev _]. destruct Hev.
Qed.

Lemma nothing_anything (ev : Event) : nothing ev → anything ev.
Proof. intros []. Qed.

Lemma anything_write (m : string) : anything (EvWrite Stderr m).
Proof. exact I. Qed.

Lemma anything_help (p : nat) : anything (EvPrintHelp Stdout p).
Proof. exact I. Qed.

Lemma import_module_inv (K : Collaborators) (nm : string) (w w' : World)
    (m : list Registration) :
  import_module K nm w = (Ok m, w') →
  modules K nm = Some m ∧ w' = log w [EvImport nm].
Proof.
  unfold import_module, bind, emit. cbn.
  destruct (modules K nm) as [m'|]; [| discriminate].
  intros H. inversion H; subst. now split.
Qed.

Lemma for_each_modules (K : Collaborators) (env : Env) (parser : nat)
    (l : list string) (w w' : World) :
  for_each l
    (fun submodule =>
       let! module := import_module K ("." +:+ submodule) in
       module_register K env module parser) w = (Ok tt, w') →
  trace w' = trace w ++ map (fun m => EvImport ("." +:+ m)) l
  ∧ ∀ m, In m l → is_Some (modules K ("." +:+ m)).
Proof.
  revert w. induction l as [|x l IH]; intros w; cbn [for_each].
  - intros H. inversion H; subst. cbn. rewrite app_nil_r.
    split; [reflexivity | intros m []].
  - intros H. apply bind_inv in H as ([] & w1 & Hx & H).
    apply bind_inv in Hx as (m & w0 & Hi & Hr).
    apply import_module_inv in Hi as [Hm ->].
    apply (emits_silent _ _ _ _
             (emits_module_register nothing anything nothing_anything
                anything_write env K m parser)) in Hr.
    destruct (IH _ H) as [Ht Hl]. split.
    + rewrite Ht, Hr. cbn. now rewrite <- app_assoc.
    + intros m' [<- | Hin]; [now rewrite Hm | now apply Hl].
Qed.

Lemma prepare_parser_trace (K : Collaborators) (env : Env)
    (argv : list string) (w w' : World) (parser : nat) :
  prepare_parser K env argv w = (Ok parser, w') →
  trace w' = trace w ++ imports
  ∧ (∀ m, In m submodules → is_Some (modules K ("." +:+ m)))
  ∧ parser = next_id w
  ∧ argv ≠ [].
Proof.
  unfold prepare_parser. intros H.
  apply bind_inv in H as (prog & w0 & Hprog & H).
  destruct argv as [|p argv]; [discriminate |].
  inversion Hprog; subst prog w0. clear Hprog.
  apply bind_inv in H as (root & w1 & Hnew & H).
  assert (Hroot : root = next_id w ∧ trace w1 = trace w).
  { unfold argparse.new, bind, fresh, put_parser, ret in Hnew.
    inversion Hnew; subst. now split. }
  destruct Hroot as [-> Ht1].
  apply bind_inv in H as ([] & w2 & Hshell & H).
  apply (emits_silent _ _ _ _
           (emits_register nothing anything nothing_anything
              anything_write env K cmd_shell _ None)) in Hshell.
  apply bind_inv in H as ([] & w3 & Hg1 & H).
  apply (emits_silent _ _ _ _
           (emits_add_group nothing anything nothing_anything
              anything_write env _ _ _)) in Hg1.
  apply bind_inv in H as ([] & w4 & Hg2 & H).
  apply (emits_silent _ _ _ _
           (emits_add_group nothing anything nothing_anything
              anything_write env _ _ _)) in Hg2.
  apply bind_inv in H as ([] & w5 & Hg3 & H).
  apply (emits_silent _ _ _ _
           (emits_add_group nothing anything nothing_anything
              anything_write env _ _ _)) in Hg3.
  apply bind_inv in H as ([] & w6 & Hg4 & H).
  apply (emits_silent _ _ _ _
           (emits_add_group nothing anything nothing_anything
              anything_write env _ _ _)) in Hg4.
  apply bind_inv in H as ([] & w7 & Hmods & H).
  apply for_each_modules in Hmods as [Ht7 Hall].
  apply bind_inv in H as ([] & w8 & Hdbg & H).
  apply (emits_silent _ _ _ _
           (emits_add_argument nothing anything nothing_anything _ _))
    in Hdbg.
  inversion H; subst. clear H.
  split; [| split; [exact Hall | split; [reflexivity | discriminate]]].
  rewrite Hdbg, Ht7. unfold imports. congruence.
Qed.

(** X13: when [prepare_parser] returns, all of the five modules were
    found, each was imported once, in the order of the loop, and nothing
    else was done that can be observed: no output was written.  The
    parser it returns is a new object, and the argument list was not
    empty. *)
Theorem prepare_parser_imports (K : Collaborators) (env : Env)
    (argv : list string) (w w' : World) (parser : nat) :
  prepare_parser K env argv w = (Ok parser, w') →
  trace w' = trace w ++ imports
  ∧ (∀ m, In m submodules → is_Some (modules K ("." +:+ m)))
  ∧ parser = next_id w
  ∧ argv ≠ [].
Proof. apply prepare_parser_trace. Qed.

Lemma prepare_parser_imports_witness :
  ∃ w',
    prepare_parser sample_K (sample_env false None) ["maas"] empty_world
    = (Ok 0, w')
    ∧ trace w'
      = [EvImport ".profiles"; EvImport ".files"; EvImport ".nodes";
         EvImport ".tags"; EvImport ".users"].
Proof.
  assert (Hf : fst (prepare_parser sample_K (sample_env false None) ["maas"]
                      empty_world) = Ok 0) by (vm_compute; reflexivity).
  destruct (prepare_parser sample_K (sample_env false None) ["maas"]
              empty_world) as [r w] eqn:H.
  cbn in Hf. subst r. exists w. split; [reflexivity |].
  exact (proj1 (prepare_parser_imports _ _ _ _ _ _ H)).
Defined.

(** X19: what [parse_args] prints.  When it returns the options nothing
    was written; when it raises, the only output is the help on standard
    output and error lines on standard error: the error path of this
    parser never prints usage or help. *)
Theorem parse_args_output (env : Env) (self : nat) (args : list string)
    (w : World) :
  ∃ evs,
    trace (snd (ArgumentParser_parse_args env self args w)) = trace w ++ evs
    ∧ match fst (ArgumentParser_parse_args env self args w) with
      | Ok _ => evs = []
      | Raise _ =>
          Forall (fun ev =>
                    (∃ m, ev = EvWrite Stderr m)
                    ∨ ∃ p, ev = EvPrintHelp Stdout p) evs
      end.
Proof.
  destruct (emits_parse_args nothing
              (fun ev => (∃ m, ev = EvWrite Stderr m)
                         ∨ ∃ p, ev = EvPrintHelp Stdout p)
              ltac:(intros ev [])
              ltac:(intros m; left; now exists m)
              ltac:(intros p; right; now exists p)
              env self args w) as (evs & Ht & Hf).
  exists evs. split; [exact Ht |].
  destruct (fst (ArgumentParser_parse_args env self args w)); [| exact Hf].
  destruct evs as [|ev evs]; [reflexivity |].
  inversion Hf as [|? ? Hev _]. destruct Hev.
Qed.

Lemma no_command_refl (ev : Event) : no_command ev → no_command ev.
Proof. auto. Qed.

Lemma no_command_write (m : string) : no_command (EvWrite Stderr m).
Proof. reflexivity. Qed.

Lemma no_command_help (p : nat) : no_command (EvPrintHelp Stdout p).
Proof. reflexivity. Qed.

Lemma commands_run_app (l1 l2 : list Event) :
  commands_run (l1 ++ l2) = (commands_run l1 + commands_run l2)%nat.
Proof. unfold commands_run. now rewrite List.filter_app, length_app. Qed.

Lemma commands_run_none (l : list Event) :
  Forall no_command l → commands_run l = 0%nat.
Proof.
  unfold commands_run, no_command.
  induction 1 as [|ev l Hev _ IH]; [reflexivity |].
  cbn. now rewrite Hev.
Qed.

Lemma emits_import_module (K : Collaborators) (nm : string) :
  emits no_command no_command (import_module K nm).
Proof.
  unfold import_module.
  apply emits_bind; [auto | now apply emits_emit | intros _].
  destruct (modules K nm); [apply emits_ret | apply emits_raise].
Qed.

Lemma emits_prepare_parser (K : Collaborators) (env : Env)
    (argv : list string) :
  emits no_command no_command (prepare_parser K env argv).
Proof.
  pose proof no_command_refl as Hr.
  pose proof no_command_write as Hw.
  unfold prepare_parser.
  apply emits_bind; [exact Hr | | intros prog].
  { destruct argv; [apply emits_raise | apply emits_ret]. }
  apply emits_bind; [exact Hr | now apply emits_new | intros parser].
  apply emits_bind; [exact Hr | now apply emits_register | intros _].
  do 4 (apply emits_bind; [exact Hr | now apply emits_add_group | intros _]).
  apply emits_bind; [exact Hr | | intros _].
  { apply emits_for_each; [exact Hr |]. intros m.
    apply emits_bind; [exact Hr | apply emits_import_module | intros md].
    now apply emits_module_register. }
  apply emits_bind; [exact Hr | now apply emits_add_argument | intros _].
  apply emits_ret.
Qed.

Lemma emits_autocomplete (env : Env) (parser : nat) :
  emits no_command no_command (autocomplete env parser).
Proof.
  unfold autocomplete. destruct (completion_requested env).
  - now apply emits_emit_raise.
  - apply emits_ret.
Qed.

Lemma emits_catch {A} (c : M A) :
  emits no_command no_command c → emits no_command no_command (catch c).
Proof.
  intros H w. destruct (H w) as (evs & Ht & Hf). exists evs.
  unfold catch. destruct (c w) as [[a|e] w']; cbn in *; now split.
Qed.

Lemma emits_getattr (ok err : Event → Prop) (o : Namespace) (a : string) :
  emits ok err (getattr o a).
Proof.
  unfold getattr. destruct (o !! a); [apply emits_ret | apply emits_raise].
Qed.

Lemma emits_handlers (env : Env) (parser : nat) (o : option Namespace)
    (e : Exn) :
  emits no_command no_command (handlers env parser o e).
Proof.
  pose proof no_command_refl as Hr.
  unfold handlers. destruct e; try apply emits_raise.
  apply emits_bind; [exact Hr | | intros inspect].
  - destruct o as [o|]; [| apply emits_ret].
    apply emits_bind; [exact Hr | apply emits_getattr | intros d].
    apply emits_ret.
  - destruct inspect.
    + unfold post_mortem. now apply emits_emit_raise.
    + apply emits_bind;
        [exact Hr | apply emits_error; exact no_command_write |].
      intros [].
Qed.

Lemma runs_once_call_value (K : Collaborators) (f : Value)
    (options : Namespace) :
  runs_once (call_value K f options).
Proof.
  intros w. unfold call_value.
  destruct f as [| | | |i];
    try (exists []; cbn; rewrite app_nil_r;
         split; [reflexivity | split; [lia | discriminate]]).
  unfold call_instance.
  destruct (cls_base (inst_cls i)).
  1, 2, 5:
    (exists [EvCall (cls_name (inst_cls i)) options];
     split; [reflexivity | split; [cbn; lia | reflexivity]]).
  - unfold OriginCommand_call, getattr, bind.
    destruct (options !! "profile_name") as [p|]; cbn.
    2: { exists []. rewrite app_nil_r.
         split; [reflexivity | split; [cbn; lia | discriminate]]. }
    destruct (fromProfileName K p) as [s|e]; cbn.
    2: { exists [EvFromProfileName p].
         split; [reflexivity | split; [cbn; lia | discriminate]]. }
    destruct (Origin_new K s) as [o|e]; cbn.
    2: { exists [EvFromProfileName p; EvOrigin s].
         rewrite <- app_assoc.
         split; [reflexivity | split; [cbn; lia | discriminate]]. }
    eexists [EvFromProfileName p; EvOrigin s; EvExecute _ _ _ _].
    rewrite <- !app_assoc.
    split; [reflexivity | split; [cbn; lia | reflexivity]].
  - unfold OriginTableCommand_call, getattr, bind.
    destruct (options !! "profile_name") as [p|]; cbn.
    2: { exists []. rewrite app_nil_r.
         split; [reflexivity | split; [cbn; lia | discriminate]]. }
    destruct (fromProfileName K p) as [s|e]; cbn.
    2: { exists [EvFromProfileName p].
         split; [reflexivity | split; [cbn; lia | discriminate]]. }
    destruct (Origin_new K s) as [o|e]; cbn.
    2: { exists [EvFromProfileName p; EvOrigin s].
         rewrite <- app_assoc.
         split; [reflexivity | split; [cbn; lia | discriminate]]. }
    destruct (options !! "output_format") as [t|]; cbn.
    2: { exists [EvFromProfileName p; EvOrigin s].
         rewrite <- app_assoc.
         split; [reflexivity | split; [cbn; lia | discriminate]]. }
    eexists [EvFromProfileName p; EvOrigin s; EvExecute _ _ _ _].
    rewrite <- !app_assoc.
    split; [reflexivity | split; [cbn; lia | reflexivity]].
Qed.

Lemma runs_once_dispatch (K : Collaborators) (env : Env) (parser : nat)
    (options : Namespace) :
  runs_once (dispatch K env parser options).
Proof.
  intros w. unfold dispatch.
  destruct (options !! "execute") as [f|].
  - destruct (runs_once_call_value K f options w) as (evs & Ht & Hle & Hok).
    exists evs. unfold bind.
    destruct (call_value K f options w) as [[v|e] w']; cbn in *.
    + split; [exact Ht | split; [exact Hle |]]. intros _ _. now apply (Hok v).
    + split; [exact Ht | split; [exact Hle | discriminate]].
  - destruct (emits_error no_command no_command no_command_write env parser
                "No arguments given." w) as (evs & Ht & Hf).
    exists evs. unfold bind.
    destruct (ArgumentParser_error env parser "No arguments given." w)
      as [[[]|e] w']; cbn in *.
    split; [exact Ht |]. rewrite (commands_run_none _ Hf).
    split; [lia | discriminate].
Qed.

Lemma main_runs (K : Collaborators) (env : Env) (argv : list string)
    (w w' : World) (r : Res unit) :
  main K env argv w = (r, w') →
  ∃ evs,
    trace w' = trace w ++ evs
    ∧ (commands_run evs ≤ 1)%nat
    ∧ (r = Ok tt → commands_run evs = 1%nat).
Proof.
  intros H. unfold main in H. unfold bind at 1 in H.
  destruct (emits_prepare_parser K env argv w) as (e1 & Ht1 & Hf1).
  destruct (prepare_parser K env argv w) as [[parser|e] w1]; cbn in Ht1, Hf1.
  2: { inversion H; subst. exists e1. rewrite (commands_run_none _ Hf1).
       split; [exact Ht1 | split; [lia | discriminate]]. }
  unfold bind at 1 in H.
  destruct (emits_autocomplete env parser w1) as (e2 & Ht2 & Hf2).
  destruct (autocomplete env parser w1) as [[[]|e] w2]; cbn in Ht2, Hf2.
  2: { inversion H; subst. exists (e1 ++ e2).
       rewrite commands_run_app, (commands_run_none _ Hf1),
         (commands_run_none _ Hf2), Ht2, Ht1, app_assoc.
       split; [reflexivity | split; [lia | discriminate]]. }
  unfold bind at 1 in H. unfold catch at 1 in H.
  destruct (emits_parse_args no_command no_command no_command_refl
              no_command_write no_command_help env parser (tail argv) w2)
    as (e3 & Ht3 & Hf3).
  destruct (ArgumentParser_parse_args env parser (tail argv) w2)
    as [[options|e] w3]; cbn in Ht3, Hf3.
  2: { destruct (emits_handlers env parser None e w3) as (e4 & Ht4 & Hf4).
       rewrite H in Ht4, Hf4. cbn in Ht4, Hf4.
       exists (e1 ++ e2 ++ e3 ++ e4).
       rewrite !commands_run_app, (commands_run_none _ Hf1),
         (commands_run_none _ Hf2), (commands_run_none _ Hf3).
       rewrite Ht4, Ht3, Ht2, Ht1, <- !app_assoc.
       split; [reflexivity |].
       destruct r as [[]|e'].
       - exfalso. unfold handlers in H.
         destruct e;
           first [ discriminate
                 | unfold bind, ret, post_mortem, emit, raise in H;
                   discriminate ].
       - rewrite (commands_run_none _ Hf4). split; [lia | discriminate]. }
  unfold bind at 1 in H. unfold catch at 1 in H.
  destruct (runs_once_dispatch K env parser options w3)
    as (e4 & Ht4 & Hle4 & Hok4).
  destruct (dispatch K env parser options w3) as [[[]|e] w4];
    cbn in Ht4, Hok4.
  - inversion H; subst. exists (e1 ++ e2 ++ e3 ++ e4).
    rewrite !commands_run_app, (commands_run_none _ Hf1),
      (commands_run_none _ Hf2), (commands_run_none _ Hf3).
    rewrite Ht4, Ht3, Ht2, Ht1, <- !app_assoc.
    split; [reflexivity |]. rewrite (Hok4 tt eq_refl).
    split; [lia | reflexivity].
  - destruct (emits_handlers env parser (Some options) e w4)
      as (e5 & Ht5 & Hf5).
    rewrite H in Ht5, Hf5. cbn in Ht5, Hf5.
    exists (e1 ++ e2 ++ e3 ++ e4 ++ e5).
    rewrite !commands_run_app, (commands_run_none _ Hf1),
      (commands_run_none _ Hf2), (commands_run_none _ Hf3).
    rewrite Ht5, Ht4, Ht3, Ht2, Ht1, <- !app_assoc.
    split; [reflexivity |].
    destruct r as [[]|e'].
    + exfalso. unfold handlers in H.
      destruct e; try discriminate.
      unfold bind in H.
      destruct (getattr options "debug" w4) as [[d|e0] w6]; [| discriminate].
      cbn in H. destruct (truthy d); cbn in H; [discriminate |].
      destruct (ArgumentParser_error env parser _ w6) as [[[]|e0] w7];
        discriminate.
    + rewrite (commands_run_none _ Hf5). split; [lia | discriminate].
Qed.

(** X18: one run of the program runs at most one command, whatever the
    command groups register and whatever the arguments are; when [main]
    returns, exactly one command has run. *)
Theorem main_runs_one_command (K : Collaborators) (env : Env)
    (argv : list string) (w : World) :
  ∃ evs,
    trace (snd (main K env argv w)) = trace w ++ evs
    ∧ (commands_run evs ≤ 1)%nat
    ∧ (fst (main K env argv w) = Ok tt → commands_run evs = 1%nat).
Proof.
  destruct (main K env argv w) as [r w'] eqn:Hm.
  exact (main_runs K env argv w w' r Hm).
Qed.

(** ** What registrations keep *)

Lemma extends_refl (w : World) : extends w w.
Proof.
  split; [lia |]. split.
  - intros q node _ H. now exists node.
  - intros r reg _ H. now exists reg.
Qed.

Lemma extends_trans (w1 w2 w3 : World) :
  extends w1 w2 → extends w2 w3 → extends w1 w3.
Proof.
  intros (Hn & Hp & Hr) (Hn' & Hp' & Hr').
  split; [lia |]. split.
  - intros q node Hq Hnode.
    destruct (Hp q node Hq Hnode) as (n1 & H1 & Ha & Hd & Hs).
    destruct (Hp' q n1 ltac:(lia) H1) as (n2 & H2 & Ha' & Hd' & Hs').
    exists n2. repeat split; try congruence.
    intros Hsome. specialize (Hs Hsome). subst n1. now apply Hs'.
  - intros r reg Hlt Hreg.
    destruct (Hr r reg Hlt Hreg) as (r1 & H1 & Hpre & Hm).
    destruct (Hr' r r1 ltac:(lia) H1) as (r2 & H2 & Hpre' & Hm').
    exists r2. split; [exact H2 |]. split; [| congruence].
    now transitivity (map fst (reg_choices r1)).
Qed.

Lemma extends_only (p : nat) (w1 w2 w3 : World) :
  extends w1 w2 → (next_id w1 ≤ p)%nat → only_parser p w2 w3 →
  extends w1 w3.
Proof.
  intros (Hn & Hp & Hr) Hle (Hr3 & Hn3 & _ & Hp3).
  split; [lia |]. split.
  - intros q node Hq Hnode. rewrite Hp3 by lia. now apply Hp.
  - intros r reg Hlt Hreg. rewrite Hr3. now apply Hr.
Qed.

Lemma extends_log (w : World) (evs : list Event) : extends w (log w evs).
Proof.
  split; [cbn; lia |]. split.
  - intros q node _ H. now exists node.
  - intros r reg _ H. now exists reg.
Qed.

Lemma assoc_set_keys {A} (k : string) (v : A) (l : list (string * A)) :
  map fst l `prefix_of` map fst (argparse.assoc_set k v l).
Proof.
  induction l as [|[k' v'] l IH]; cbn.
  - apply prefix_nil.
  - destruct (String.eqb k k') eqn:Hk; cbn.
    + apply String.eqb_eq in Hk. now subst k'.
    + now apply prefix_cons.
Qed.

Lemma subparsers_extends (env : Env) (p : nat) (w w1 : World) (r : nat) :
  ArgumentParser_subparsers env p w = (Ok r, w1) → extends w w1.
Proof.
  unfold ArgumentParser_subparsers. intros H.
  apply bind_inv in H as (node & w0 & Hg & H).
  apply get_parser_inv in Hg as [-> Hnode].
  destruct (priv_subparsers node) as [r0|] eqn:Hpriv.
  - unfold ret in H. inversion H; subst. apply extends_refl.
  - apply bind_inv in H as (r1 & w2 & Hadd & H).
    unfold argparse.add_subparsers in Hadd.
    rewrite (bind_Ok _ _ _ _ _ (get_parser_eq _ _ _ Hnode)) in Hadd.
    destruct (base_subparsers node) as [g|] eqn:Hbase.
    { unfold argparse.fail, bind in Hadd.
      destruct (ArgumentParser_error env p _ w) as [[[]|e] w'];
        discriminate. }
    cbn in Hadd. inversion Hadd; subst r1 w2. clear Hadd.
    cbn in H. unfold bind at 1 in H. unfold get_parser at 1 in H. cbn in H.
    rewrite lookup_insert_eq in H. cbn in H.
    unfold bind at 1 in H. unfold get_registry at 1 in H. cbn in H.
    rewrite lookup_insert_eq in H. cbn in H.
    inversion H; subst. clear H.
    split; [cbn; lia |]. split; cbn.
    + intros q n Hq Hn. destruct (decide (q = p)) as [-> | Hne].
      * rewrite lookup_insert_eq. eexists. split; [reflexivity |].
        assert (n = node) by congruence. subst n. cbn.
        repeat split. rewrite Hpriv. intros [? ?]. discriminate.
      * rewrite !lookup_insert_ne by congruence. now exists n.
    + intros r reg Hlt Hreg.
      rewrite !lookup_insert_ne by lia. now exists reg.
Qed.

Lemma add_parser_extends (r : nat) (nm : string) (h : Help)
    (d e : option string) (w w' : World) (child : nat) :
  argparse.add_parser r nm h d e w = (Ok child, w') → extends w w'.
Proof.
  intros H. apply add_parser_inv_full in H as (reg & Hreg & -> & ->).
  split; [cbn; lia |]. split; cbn.
  - intros q n Hq Hn. rewrite lookup_insert_ne by lia. now exists n.
  - intros r' reg' Hlt Hreg'. destruct (decide (r' = r)) as [-> | Hne].
    + rewrite lookup_insert_eq. eexists. split; [reflexivity |]. cbn.
      assert (reg' = reg) by congruence. subst reg'.
      split; [apply assoc_set_keys | reflexivity].
    + rewrite lookup_insert_ne by congruence. now exists reg'.
Qed.

Lemma register_extends (K : Collaborators) (env : Env) (cls : CommandClass)
    (parent : nat) (nm : option string) (w w' : World) :
  Command_register K env cls parent nm w = (Ok tt, w') → extends w w'.
Proof.
  unfold Command_register. intros H.
  apply bind_inv in H as (r & w1 & Hsub & H).
  apply subparsers_extends in Hsub.
  apply bind_inv in H as (child & w2 & Hadd & H).
  pose proof (add_parser_extends _ _ _ _ _ _ _ _ Hadd) as Hext.
  apply add_parser_inv_full in Hadd as (reg & _ & Hc & _).
  apply bind_inv in H as (inst & w3 & Hcon & H).
  apply touches_construct in Hcon.
  apply touches_set_defaults in H.
  assert (Hle : (next_id w ≤ child)%nat) by (destruct Hsub; lia).
  eapply extends_only; [| exact Hle | exact H].
  eapply extends_only; [| exact Hle | exact Hcon].
  eapply extends_trans; eassumption.
Qed.

Lemma getitem_extends (env : Env) (p : nat) (nm : string) (w w' : World)
    (c : nat) :
  ArgumentParser_getitem env p nm w = (Ok c, w') → extends w w'.
Proof.
  unfold ArgumentParser_getitem. intros H.
  apply bind_inv in H as (r & w1 & Hsub & H).
  apply subparsers_extends in Hsub.
  apply bind_inv in H as (reg & w2 & Hreg & H).
  unfold get_registry in Hreg.
  destruct (registries w1 !! r); [| discriminate].
  inversion Hreg; subst.
  destruct (argparse.assoc_get nm (reg_choices reg)); [| discriminate].
  inversion H; subst. exact Hsub.
Qed.

Lemma resolve_extends (env : Env) (path : list string) :
  ∀ (p : nat) (w w' : World) (n : nat),
    resolve env p path w = (Ok n, w') → extends w w'.
Proof.
  induction path as [|x path IH]; intros p w w' n; cbn [resolve].
  - intros H. inversion H; subst. apply extends_refl.
  - intros H. apply bind_inv in H as (c & w1 & Hget & H).
    eapply extends_trans; [eapply getitem_extends, Hget | eapply IH, H].
Qed.

Lemma module_register_extends (K : Collaborators) (env : Env)
    (m : list Registration) (parser : nat) :
  ∀ w w', module_register K env m parser w = (Ok tt, w') → extends w w'.
Proof.
  unfold module_register.
  induction m as [|x m IH]; intros w w'; cbn [for_each].
  - intros H. inversion H; subst. apply extends_refl.
  - intros H. apply bind_inv in H as ([] & w1 & Hx & H).
    apply bind_inv in Hx as (n & w0 & Hres & Hreg).
    eapply extends_trans; [eapply resolve_extends, Hres |].
    eapply extends_trans; [eapply register_extends, Hreg |].
    eapply IH, H.
Qed.

Lemma modules_extend (K : Collaborators) (env : Env) (parser : nat)
    (l : list string) :
  ∀ w w',
    for_each l
      (fun submodule =>
         let! module := import_module K ("." +:+ submodule) in
         module_register K env module parser) w = (Ok tt, w') →
    extends w w'.
Proof.
  induction l as [|x l IH]; intros w w'; cbn [for_each].
  - intros H. inversion H; subst. apply extends_refl.
  - intros H. apply bind_inv in H as ([] & w1 & Hx & H).
    apply bind_inv in Hx as (m & w0 & Hi & Hr).
    assert (Hw0 : w0 = log w [EvImport ("." +:+ x)]).
    { unfold import_module, bind, emit in Hi. cbn in Hi.
      destruct (modules K ("." +:+ x)); [| discriminate].
      now inversion Hi. }
    subst w0.
    eapply extends_trans; [apply extends_log |].
    eapply extends_trans; [eapply module_register_extends, Hr |].
    eapply IH, H.
Qed.

(** ** prepare_parser and main, whatever the command groups are *)

Lemma prepare_parser_stages (K : Collaborators) (env : Env) (prog : string)
    (args : list string) (w : World) :
  prepare_parser K env (prog :: args) w
  = (let! parser := register_toplevel K env prog in
     register_rest K env parser) w.
Proof.
  unfold prepare_parser, register_toplevel, register_rest, bind, ret.
  destruct (argparse.new prog _ _ w) as [[p|e] w1]; [| reflexivity].
  destruct (Command_register K env cmd_shell p None w1) as [[[]|e] w2];
    [| reflexivity].
  destruct (add_group env p "acquire" _ w2) as [[[]|e] w3]; [| reflexivity].
  destruct (add_group env p "launch" _ w3) as [[[]|e] w4]; [| reflexivity].
  destruct (add_group env p "release" _ w4) as [[[]|e] w5]; [| reflexivity].
  destruct (add_group env p "list" _ w5) as [[[]|e] w6]; reflexivity.
Qed.

(** The first stage of [prepare_parser], from the empty store: the root
    parser, its registry, the shell command and the four groups, made in
    that order. *)
Lemma toplevel_world (K : Collaborators) (env : Env) (prog : string) :
  ∃ w,
    register_toplevel K env prog empty_world = (Ok 0, w)
    ∧ next_id w = 7
    ∧ trace w = []
    ∧ parsers w !! 0 = Some (root_node prog 1)
    ∧ (∃ reg,
         registries w !! 1 = Some reg
         ∧ reg_choices reg
           = [("shell", 2); ("acquire", 3); ("launch", 4); ("release", 5);
              ("list", 6)]
         ∧ reg_metavar reg = Some "COMMAND")
    ∧ (∃ node,
         parsers w !! 2 = Some node ∧ command_parser K env cmd_shell 2 node)
    ∧ grouping_node w 3 ∧ grouping_node w 4
    ∧ grouping_node w 5 ∧ grouping_node w 6.
Proof.
  exists (snd (register_toplevel K env prog empty_world)).
  destruct env as [o e i c [names [d|]]].
  all: split;
    [ match goal with
      | |- ?c = _ =>
          assert (H : fst c = Ok 0) by (vm_compute; reflexivity);
          destruct c as [r w]; cbn in H; now subst r
      end |].
  all: split; [vm_compute; reflexivity |].
  all: split; [vm_compute; reflexivity |].
  all: split; [vm_compute; reflexivity |].
  all: split;
    [eexists; split; [vm_compute; reflexivity | split; reflexivity] |].
  all: split;
    [ eexists; split; [vm_compute; reflexivity |];
      unfold command_parser; repeat split; vm_compute; reflexivity |].
  all: repeat split; unfold grouping_node; eexists;
    (split; [vm_compute; reflexivity | repeat split]).
Qed.

(** X14: the first stage of [prepare_parser].  The function is this
    stage followed by the registrations of the modules and the [--debug]
    flag; from the empty store the stage makes, in this order, the root
    parser, its registry, the [shell] command with its own parser and
    the four groups [acquire], [launch], [release] and [list], which
    have the help option only and no command of their own. *)
Theorem prepare_parser_toplevel (K : Collaborators) (env : Env)
    (prog : string) :
  (∀ args w,
     prepare_parser K env (prog :: args) w
     = (let! parser := register_toplevel K env prog in
        register_rest K env parser) w)
  ∧ ∃ w,
      register_toplevel K env prog empty_world = (Ok 0, w)
      ∧ next_id w = 7
      ∧ trace w = []
      ∧ parsers w !! 0 = Some (root_node prog 1)
      ∧ (∃ reg,
           registries w !! 1 = Some reg
           ∧ reg_choices reg
             = [("shell", 2); ("acquire", 3); ("launch", 4); ("release", 5);
                ("list", 6)]
           ∧ reg_metavar reg = Some "COMMAND")
      ∧ (∃ node,
           parsers w !! 2 = Some node
           ∧ command_parser K env cmd_shell 2 node)
      ∧ grouping_node w 3 ∧ grouping_node w 4
      ∧ grouping_node w 5 ∧ grouping_node w 6.
Proof.
  split; [intros args w; apply prepare_parser_stages | apply toplevel_world].
Qed.

Lemma prepared_root_inv (K : Collaborators) (env : Env) (prog : string)
    (args : list string) (parser : nat) (w : World) :
  prepare_parser K env (prog :: args) empty_world = (Ok parser, w) →
  parser = 0
  ∧ parsers w !! 0 = Some (prepared_root prog)
  ∧ argparse.help_listing (prepared_root prog) = ["-h"; "--help"]
  ∧ ∃ reg,
      registries w !! 1 = Some reg
      ∧ toplevel_names `prefix_of` map fst (reg_choices reg)
      ∧ reg_metavar reg = Some "COMMAND".
Proof.
  rewrite prepare_parser_stages. intros H.
  apply bind_inv in H as (p & w1 & Htop & H).
  destruct (toplevel_world K env prog)
    as (w1' & Htop' & Hn & _ & Hroot & (reg & Hreg & Hch & Hmv) & _).
  rewrite Htop' in Htop. inversion Htop; subst p w1'. clear Htop.
  unfold register_rest in H.
  apply bind_inv in H as ([] & w2 & Hmods & H).
  apply modules_extend in Hmods as (_ & Hp & Hr).
  destruct (Hp 0 _ ltac:(lia) Hroot) as (root & Hroot2 & _ & _ & Hsame).
  rewrite (Hsame ltac:(eexists; reflexivity)) in Hroot2. clear Hsame.
  destruct (Hr 1 _ ltac:(lia) Hreg) as (reg2 & Hreg2 & Hpre & Hmv2).
  apply bind_inv in H as ([] & w3 & Hdbg & H).
  assert (Hfind : argparse.find_option (root_node prog 1)
                    (argparse.flag debug_flag) = None) by reflexivity.
  rewrite (add_argument_eq _ _ _ _ Hroot2 Hfind) in Hdbg.
  inversion Hdbg; subst w3. clear Hdbg.
  inversion H; subst. clear H.
  split; [reflexivity |]. cbn.
  split; [apply lookup_insert_eq |]. split; [reflexivity |].
  exists reg2. split; [exact Hreg2 |]. split; [| congruence].
  rewrite Hch in Hpre. exact Hpre.
Qed.

(** X15: what [prepare_parser] returns, whatever the command groups
    register: the root parser has the help option and the hidden
    [--debug] flag and nothing else, and no defaults, so no command of
    its own; the names that [prepare_parser] enters itself come first at
    the top level. *)
Theorem prepare_parser_root (K : Collaborators) (env : Env) (prog : string)
    (args : list string) (parser : nat) (w : World) :
  prepare_parser K env (prog :: args) empty_world = (Ok parser, w) →
  parser = 0
  ∧ parsers w !! 0 = Some (prepared_root prog)
  ∧ argparse.help_listing (prepared_root prog) = ["-h"; "--help"]
  ∧ ∃ reg,
      registries w !! 1 = Some reg
      ∧ toplevel_names `prefix_of` map fst (reg_choices reg)
      ∧ reg_metavar reg = Some "COMMAND".
Proof. apply prepared_root_inv. Qed.

Lemma prepare_parser_root_witness :
  ∃ w,
    prepare_parser sample_K (sample_env false None) ["maas"] empty_world
    = (Ok 0, w)
    ∧ parsers w !! 0 = Some (prepared_root "maas").
Proof.
  assert (Hf : fst (prepare_parser sample_K (sample_env false None) ["maas"]
                      empty_world) = Ok 0) by (vm_compute; reflexivity).
  destruct (prepare_parser sample_K (sample_env false None) ["maas"]
              empty_world) as [r w] eqn:H.
  cbn in Hf. subst r. exists w. split; [reflexivity |].
  exact (proj1 (proj2 (prepare_parser_root _ _ _ _ _ _ H))).
Defined.

(** The options that the root parser gives for an argument list without
    a command. *)
Lemma parse_root_no_arguments (env : Env) (prog : string) (w : World) :
  parsers w !! 0 = Some (prepared_root prog) →
  ArgumentParser_parse_args env 0 [] w
  = (Ok {["debug" := VBool false]}, w)
  ∧ ArgumentParser_parse_args env 0 ["--debug"] w
    = (Ok {["debug" := VBool true]}, w)
  ∧ ArgumentParser_parse_args env 0 ["-h"] w
    = (Raise (SystemExit 0), log w [EvPrintHelp Stdout 0])
  ∧ ArgumentParser_parse_args env 0 ["--help"] w
    = (Raise (SystemExit 0), log w [EvPrintHelp Stdout 0]).
Proof.
  intros Hroot.
  unfold ArgumentParser_parse_args, argparse.parse_args,
    argparse.parse_known_args.
  repeat split;
    rewrite bind_assoc;
    rewrite (bind_Ok _ _ _ _ _ (get_parser_eq _ _ _ Hroot));
    vm_compute; reflexivity.
Qed.

(** X16: without a command on the command line the program ends in the error
    path, whatever the command groups register: with no arguments at all
    and with [--debug] alone it writes "No arguments given." to standard
    error and exits with status 2.  The flag does not bring up the
    debugger here: the exit of the error path is not an [Exception]. *)
Theorem main_without_command (K : Collaborators) (env : Env)
    (prog : string) (args : list string) (parser : nat) (w1 : World) :
  prepare_parser K env (prog :: args) empty_world = (Ok parser, w1) →
  completion_requested env = false →
  args = [] ∨ args = ["--debug"] →
  main K env (prog :: args) empty_world
  = (Raise (SystemExit 2),
     log w1 [EvWrite Stderr (error_text env "No arguments given.")])
  ∧ trace w1 = imports.
Proof.
  intros Hprep Hc Hargs.
  destruct (prepared_root_inv K env prog args parser w1 Hprep)
    as (-> & Hroot & _).
  destruct (parse_root_no_arguments env prog w1 Hroot) as (H0 & H1 & _).
  split; [| exact (proj1 (prepare_parser_trace K env _ _ _ _ Hprep))].
  destruct Hargs as [-> | ->].
  - rewrite (main_parse_returns K env _ _ _ _ _ Hprep Hc H0).
    unfold dispatch. rewrite lookup_singleton_ne by discriminate.
    unfold bind. now rewrite ArgumentParser_error_eq.
  - rewrite (main_parse_returns K env _ _ _ _ _ Hprep Hc H1).
    unfold dispatch. rewrite lookup_singleton_ne by discriminate.
    unfold bind. now rewrite ArgumentParser_error_eq.
Qed.

Lemma main_without_command_witness :
  ∃ w1,
    prepare_parser sample_K (sample_env false None) ["maas"; "--debug"]
      empty_world = (Ok 0, w1)
    ∧ main sample_K (sample_env false None) ["maas"; "--debug"] empty_world
      = (Raise (SystemExit 2),
         log w1
           [EvWrite Stderr
              (error_text (sample_env false None) "No arguments given.")]).
Proof.
  assert (Hf : fst (prepare_parser sample_K (sample_env false None)
                      ["maas"; "--debug"] empty_world) = Ok 0)
    by (vm_compute; reflexivity).
  destruct (prepare_parser sample_K (sample_env false None)
              ["maas"; "--debug"] empty_world) as [r w] eqn:H.
  cbn in Hf. subst r. exists w. split; [reflexivity |].
  exact (proj1 (main_without_command _ _ _ _ _ _ H eq_refl
                  (or_intror eq_refl))).
Defined.

(** X17: a request for help at the top level prints the help of the root
    parser on standard output and ends the program with status 0,
    whatever the command groups register: the exit passes the handlers
    unchanged, nothing is written to standard error and no command
    runs. *)
Theorem main_help (K : Collaborators) (env : Env) (prog : string)
    (args : list string) (parser : nat) (w1 : World) :
  prepare_parser K env (prog :: args) empty_world = (Ok parser, w1) →
  completion_requested env = false →
  args = ["-h"] ∨ args = ["--help"] →
  main K env (prog :: args) empty_world
  = (Raise (SystemExit 0), log w1 [EvPrintHelp Stdout 0])
  ∧ exit_status (fst (main K env (prog :: args) empty_world)) = 0.
Proof.
  intros Hprep Hc Hargs.
  destruct (prepared_root_inv K env prog args parser w1 Hprep)
    as (-> & Hroot & _).
  destruct (parse_root_no_arguments env prog w1 Hroot) as (_ & _ & H0 & H1).
  assert (Hm : main K env (prog :: args) empty_world
               = (Raise (SystemExit 0), log w1 [EvPrintHelp Stdout 0])).
  { destruct Hargs as [-> | ->].
    - now rewrite (main_parse_raises K env _ _ _ _ _ Hprep Hc H0).
    - now rewrite (main_parse_raises K env _ _ _ _ _ Hprep Hc H1). }
  split; [exact Hm | now rewrite Hm].
Qed.

Lemma main_help_witness :
  ∃ w1,
    prepare_parser sample_K (sample_env false None) ["maas"; "--help"]
      empty_world = (Ok 0, w1)
    ∧ main sample_K (sample_env false None) ["maas"; "--help"] empty_world
      = (Raise (SystemExit 0), log w1 [EvPrintHelp Stdout 0]).
Proof.
  assert (Hf : fst (prepare_parser sample_K (sample_env false None)
                      ["maas"; "--help"] empty_world) = Ok 0)
    by (vm_compute; reflexivity).
  destruct (prepare_parser sample_K (sample_env false None)
              ["maas"; "--help"] empty_world) as [r w] eqn:H.
  cbn in Hf. subst r. exists w. split; [reflexivity |].
  exact (proj1 (main_help _ _ _ _ _ _ H eq_refl (or_intror eq_refl))).
Defined.
